(** * The resilient message-broker client (package mq)

    A shallow embedding of the trace carrier adapter, the reconnecting
    Publisher and the acknowledging Consumer, together with the properties
    their specification states about them.

    Conventions.
    - A Go [error] value is an [error]; the nil error is [None : option error].
    - A Go map is a reference: a table lives in a store and a map value is
      either nil or the address of a live table.
    - Calls into the broker library, the tracing library and the logger are
      recorded, in program order, in a list of events; what those calls
      return is an input of the model.  A library call that returns a
      pointer and an error returns one or the other, so its result is a sum.
    - The mutex of the Publisher is not an event: a function or a step of the
      model covers whole critical sections. *)

From Stdlib Require Import ZArith Lia.
From stdpp Require Import base option list gmap strings pretty.

Open Scope string_scope.
Open Scope list_scope.
Open Scope Z_scope.

(** ** Go values shared by the three components *)

(** [errors.New], [fmt.Errorf("...: %w", err)] and the errors that come out of
    the libraries (broker, JSON encoder, context). *)
Inductive error : Type :=
| ErrNew (msg : string)
| ErrWrap (prefix : string) (cause : error)
| ErrLib (code : nat).

(** [errors.Unwrap]. *)
Definition Unwrap (e : error) : option error :=
  match e with
  | ErrWrap _ cause => Some cause
  | _ => None
  end.

(** What a Go function call ends in: a result or a run-time panic. *)
Inductive outcome (A : Type) : Type :=
| Done (a : A)
| Panic (msg : string).
Arguments Done {A} a.
Arguments Panic {A} msg.

(** Values stored behind [interface{}] in a header table. *)
Inductive value : Type :=
| VNil
| VBool (b : bool)
| VInt (n : Z)
| VString (s : string).

(** Addresses of Go maps; [None] at type [option loc] is the nil map. *)
Abbreviation loc := positive (only parsing).
Abbreviation store := (gmap positive (gmap string value)) (only parsing).

(** * Trace carrier adapter *)
Module Carrier.

(** [fmt.Sprintf("%v", val)] on the values above. *)
Definition sprint_v (v : value) : string :=
  match v with
  | VNil => "<nil>"
  | VBool true => "true"
  | VBool false => "false"
  | VInt n => pretty n
  | VString s => s
  end.

(** [type tableCarrier struct { table amqp.Table }] *)
Record tableCarrier : Type := { table : option loc }.

(** [c.table[key]] with the comma-ok form: a nil map has no entries. *)
Definition index (c : tableCarrier) (h : store) (key : string) : option value :=
  l ← table c; t ← h !! l; t !! key.

(** [func (c tableCarrier) Get(key string) string] *)
Definition Get (c : tableCarrier) (h : store) (key : string) : string :=
  match index c h key with
  | Some val =>
      match val with
      | VString str => str
      | _ => sprint_v val
      end
  | None => ""
  end.

(** [func (c tableCarrier) Set(key, value string)]: the assignment goes to the
    table the carrier points at; assigning into a nil map panics. *)
Definition Set_ (c : tableCarrier) (key val : string) (h : store) : outcome store :=
  match table c with
  | Some l => Done (alter (insert key (VString val)) l h)
  | None => Panic "assignment to entry in nil map"
  end.

(** [func (c tableCarrier) Keys() []string], with the keys visited in the
    order [map_to_list] gives. *)
Definition Keys (c : tableCarrier) (h : store) : list string :=
  match table c with
  | Some l =>
      match h !! l with
      | Some t => (map_to_list t).*1
      | None => []
      end
  | None => []
  end.

(** Go leaves the order of [range] over a map open: any arrangement of the
    keys above is a possible result of [Keys]. *)
Definition Keys_result (c : tableCarrier) (h : store) (keys : list string) : Prop :=
  keys ≡ₚ Keys c h.

(** [propagation.TextMapCarrier], the interface a propagator reads and
    writes through, and [tableCarrier] as an implementation of it. *)
Class TextMapCarrier (C : Type) : Type := {
  carrier_Get : C → store → string → string;
  carrier_Set : C → string → string → store → outcome store;
  carrier_Keys : C → store → list string
}.

#[global] Instance tableCarrier_TextMapCarrier : TextMapCarrier tableCarrier := {|
  carrier_Get := Get;
  carrier_Set := Set_;
  carrier_Keys := Keys
|}.

(** [propagator.Inject(ctx, carrier)] of a text-map propagator: one [Set] per
    field of the context, in order. *)
Fixpoint Inject {C : Type} `{TextMapCarrier C} (fields : list (string * string))
    (c : C) (h : store) : outcome store :=
  match fields with
  | [] => Done h
  | (k, v) :: rest =>
      match carrier_Set c k v h with
      | Done h' => Inject rest c h'
      | Panic msg => Panic msg
      end
  end.


(** The table after the entries [fields] are written into [t] one by one. *)
Definition written (fields : list (string * string)) (t : gmap string value)
  : gmap string value :=
  foldl (λ t kv, <[kv.1 := VString kv.2]> t) t fields.

(** [make(amqp.Table)]: a fresh empty table. *)
Definition make_table (h : store) : loc * store :=
  let l := fresh (dom h) in (l, <[l := ∅]> h).


End Carrier.

(** * Decimal numerals *)

(** [%v] prints an integer as its decimal numeral.  [read_decimal] reads a
    numeral back: an optional minus sign, then digits with no leading zero;
    the empty string, a lone sign and a signed zero are not numerals. *)
Module Decimal.
Import Stdlib.Strings.Ascii.





End Decimal.

(** Calls into the libraries, as the program issues them. *)
Inductive Connection : Type := ConnId (n : nat).
Inductive Channel : Type := ChanId (n : nat).

Inductive level : Type := Info | Warn | Error.

Inductive attr : Type :=
| AString (key val : string)
| AInt (key : string) (val : Z).

(** [amqp.Publishing], with the fields the program sets. *)
Record Publishing : Type := {
  ContentType : string;
  DeliveryMode : Z;
  Timestamp : Z;
  Body : list Byte.byte;
  Headers : option loc
}.

Inductive event : Type :=
| EvChannel (c : Connection)
| EvQos (ch : Channel) (prefetchCount prefetchSize : Z) (global : bool)
| EvQueueDeclare (ch : Channel) (name : string)
    (durable autoDelete exclusive noWait : bool)
| EvConsume (ch : Channel) (queue consumer : string)
    (autoAck exclusive noLocal noWait : bool)
| EvChannelClose (ch : Channel)
| EvConnClose (c : Connection)
| EvNotifyClose (c : Connection)
| EvDial
| EvSleep (d : Z)
| EvGo (routine : string)
| EvLog (l : level) (msg : string)
| EvSpanStart (name : string) (attrs : list attr)
| EvSpanRecordError (e : error)
| EvSpanSetAttributes (attrs : list attr)
| EvSpanEnd
| EvInject (fields : list (string * string))
| EvExtract (headers : loc)
| EvNow
| EvPublish (ch : Channel) (exchange key : string) (mandatory immediate : bool)
    (msg : Publishing)
| EvHandler (body : list Byte.byte)
| EvAck (tag : N) (multiple : bool)
| EvNack (tag : N) (multiple requeue : bool).

(** [time.Duration] is an [int64] count of nanoseconds. *)
Definition wrap64 (z : Z) : Z := (z + 2 ^ 63) mod 2 ^ 64 - 2 ^ 63.
Definition Second : Z := 1000000000.

(** [amqp.Persistent] *)
Definition Persistent : Z := 2.

(** * Publisher and its connection supervisor *)
Module Publisher.

(** [type Publisher struct]: the fields the mutex guards.  A nil pointer is
    [None].  The logger, the configuration and the dial function do not
    change after construction; what the dial function returns is an input
    of [reconnect]. *)
Record Publisher : Type := {
  conn : option Connection;
  ch : option Channel;
  closed : bool
}.

(** The program state a Publisher method runs in: the Publisher it has a
    pointer to, the store of header tables, and the calls issued so far
    (oldest first). *)
Record world : Type := {
  pub : Publisher;
  heap : store;
  trace : list event
}.

(** State passing with panics. *)
Definition M (A : Type) : Type := world → outcome (A * world).

#[global] Instance M_ret : MRet M := λ A a w, Done (a, w).

#[global] Instance M_bind : MBind M := λ A B f m w,
  match m w with
  | Done (a, w') => f a w'
  | Panic msg => Panic msg
  end.

Definition emit (e : event) : M unit := λ w,
  Done (tt, {| pub := pub w; heap := heap w; trace := trace w ++ [e] |}).

Definition get_pub : M Publisher := λ w, Done (pub w, w).

Definition set_pub (p : Publisher) : M unit := λ w,
  Done (tt, {| pub := p; heap := heap w; trace := trace w |}).

Definition get_heap : M store := λ w, Done (heap w, w).

Definition set_heap (h : store) : M unit := λ w,
  Done (tt, {| pub := pub w; heap := h; trace := trace w |}).

Definition panic {A : Type} (msg : string) : M A := λ _, Panic msg.

(** [func NewPublisher(conn, log, cfg, dialFn)], returning a Publisher or an error.
    [channel_res] and [qos_res] are what [conn.Channel()] and [ch.Qos] return.
    Calling [Channel] through a nil connection dereferences it. *)
Definition NewPublisher (conn : option Connection)
    (channel_res : Channel + error) (qos_res : option error)
  : outcome ((Publisher + error) * list event) :=
  match conn with
  | None => Panic "invalid memory address or nil pointer dereference"
  | Some c =>
      match channel_res with
      | inr err => Done (inr err, [EvChannel c])
      | inl ch =>
          match qos_res with
          | Some err => Done (inr err, [EvChannel c; EvQos ch 0 0 false])
          | None =>
              Done (inl {| conn := Some c; ch := Some ch; closed := false |},
                    [EvChannel c; EvQos ch 0 0 false; EvGo "watchConnection"])
          end
      end
  end.

(** [func (p *Publisher) getChannel()], a channel or an error, the whole body
    under the read lock. *)
Definition getChannel (p : Publisher) : Channel + error :=
  if closed p then inr (ErrNew "publisher is closed")
  else match ch p with
       | None => inr (ErrNew "channel is not available")
       | Some c => inl c
       end.

(** [func (p *Publisher) Close() error], the whole body under the write lock.
    [close_res] is what [p.ch.Close()] returns. *)
Definition Close (close_res : option error) : M (option error) :=
  p ← get_pub;
  set_pub {| conn := conn p; ch := ch p; closed := true |};;
  match ch p with
  | Some c => emit (EvChannelClose c);; mret close_res
  | None => mret None
  end.

(** One attempt of the reconnect loop, by how far it gets. *)
Inductive attempt : Type :=
| DialFails (e : error)
| ChannelFails (c : Connection) (e : error)
| QosFails (c : Connection) (h : Channel) (e : error)
| Connected (c : Connection) (h : Channel).

Inductive loop_ctl : Type :=
| Continue (backoff : Z)
| Return.

Definition maxBackoff : Z := 30 * Second.

(** [time.Sleep(backoff); backoff = min(backoff*2, maxBackoff)] *)
Definition sleep_and_double (backoff : Z) : M loop_ctl :=
  emit (EvSleep backoff);;
  mret (Continue (Z.min (wrap64 (backoff * 2)) maxBackoff)).

(** The body of the [for] loop of [reconnect], run once with the attempt
    going as [a] says. *)
Definition reconnect_iter (a : attempt) (backoff : Z) : M loop_ctl :=
  p ← get_pub;
  if closed p then mret Return
  else
    emit (EvLog Info "Attempting to reconnect to RabbitMQ");;
    emit EvDial;;
    match a with
    | DialFails e =>
        emit (EvLog Error "Failed to reconnect to RabbitMQ");;
        sleep_and_double backoff
    | ChannelFails c e =>
        emit (EvChannel c);;
        emit (EvLog Error "Failed to create channel after reconnect");;
        emit (EvConnClose c);;
        sleep_and_double backoff
    | QosFails c h e =>
        emit (EvChannel c);;
        emit (EvQos h 0 0 false);;
        emit (EvLog Error "Failed to set QoS after reconnect");;
        emit (EvChannelClose h);;
        emit (EvConnClose c);;
        sleep_and_double backoff
    | Connected c h =>
        emit (EvChannel c);;
        emit (EvQos h 0 0 false);;
        p' ← get_pub;
        set_pub {| conn := Some c; ch := Some h; closed := closed p' |};;
        emit (EvLog Info "Successfully reconnected to RabbitMQ");;
        mret Return
    end.

(** How a loop that waits on its environment stands after a finite script:
    it has returned, or the script ran out and the loop is still going. *)
Inductive loop_end : Type :=
| Returned
| Running (backoff : Z).

Fixpoint reconnect_from (backoff : Z) (script : list attempt) : M loop_end :=
  match script with
  | [] => mret (Running backoff)
  | a :: script' =>
      r ← reconnect_iter a backoff;
      match r with
      | Return => mret Returned
      | Continue backoff' => reconnect_from backoff' script'
      end
  end.

(** [func (p *Publisher) reconnect()]: [backoff := time.Second], then the loop. *)
Definition reconnect (script : list attempt) : M loop_end :=
  reconnect_from Second script.

(** The calls of [Close] that other goroutines complete while this one is
    blocked, each with what its [p.ch.Close()] returns. *)
Fixpoint run_closes (closes : list (option error)) : M unit :=
  match closes with
  | [] => mret tt
  | res :: rest => Close res;; run_closes rest
  end.

Inductive watch_ctl : Type :=
| WReturn
| WContinue
| WReconnecting (backoff : Z).

(** The body of the [for] loop of [watchConnection], run once: [amqpErr] is
    what arrives on the close notification, [closes] what happens to the
    Publisher while the watcher waits for it, [script] how the reconnect
    attempts go. *)
Definition watch_iter (closes : list (option error)) (amqpErr : option error)
    (script : list attempt) : M watch_ctl :=
  p ← get_pub;
  if closed p then mret WReturn
  else
    match conn p with
    | None => emit (EvSleep Second);; mret WContinue
    | Some c =>
        emit (EvNotifyClose c);;
        run_closes closes;;
        p' ← get_pub;
        if closed p' then mret WReturn
        else
          emit (EvLog Warn
                  match amqpErr with
                  | Some _ => "RabbitMQ connection closed"
                  | None => "RabbitMQ connection closed gracefully"
                  end);;
          r ← reconnect script;
          match r with
          | Returned => mret WContinue
          | Running backoff => mret (WReconnecting backoff)
          end
    end.

(** One pass of the watcher: what happens while it waits, what arrives on the
    notification, and how the reconnect attempts go. *)
Record watch_round : Type := {
  round_closes : list (option error);
  round_amqpErr : option error;
  round_script : list attempt
}.

(** The watcher has returned, or it is still going: at the top of its loop
    when the rounds ran out, inside [reconnect] when a script did. *)
Inductive watch_end : Type :=
| WDone
| WWatching
| WInReconnect (backoff : Z).

(** [func (p *Publisher) watchConnection()]: the loop against a finite list of
    rounds. *)
Fixpoint watchConnection (rounds : list watch_round) : M watch_end :=
  match rounds with
  | [] => mret WWatching
  | r :: rounds' =>
      ctl ← watch_iter (round_closes r) (round_amqpErr r) (round_script r);
      match ctl with
      | WReturn => mret WDone
      | WContinue => watchConnection rounds'
      | WReconnecting backoff => mret (WInReconnect backoff)
      end
  end.

(** The critical sections of the Publisher.  Every access to its fields is
    inside one of them, so whatever the goroutines do, the fields go through
    a sequence of these. *)
Inductive critical : Type :=
| SecRead
| SecClose
| SecSwap (c : Connection) (h : Channel).

Definition run_critical (p : Publisher) (s : critical) : Publisher :=
  match s with
  | SecRead => p
  | SecClose => {| conn := conn p; ch := ch p; closed := true |}
  | SecSwap c h => {| conn := Some c; ch := Some h; closed := closed p |}
  end.

Definition run_criticals (p : Publisher) (ss : list critical) : Publisher :=
  foldl run_critical p ss.

(** The events of a trace that send a message to the broker. *)
Definition is_publish (e : event) : bool :=
  match e with
  | EvPublish _ _ _ _ _ _ => true
  | _ => false
  end.

Definition sends (tr : list event) : list event := filter is_publish tr.

(** The delays slept, in order. *)
Definition sleeps (tr : list event) : list Z :=
  omap (λ e, match e with EvSleep d => Some d | _ => None end) tr.

(** The channels [Close] was called on, in order. *)
Definition channel_closes (tr : list event) : list Channel :=
  omap (λ e, match e with EvChannelClose c => Some c | _ => None end) tr.

(** [config.Config], declared outside this package, with the field the
    package reads: [cfg.App.Name]. *)
Record AppCfg : Type := { Name : string }.
Record Config : Type := { App : AppCfg }.

Section PublishJSON.

(** The type behind [body any] and [sonic.Marshal] on it. *)
Variable any : Type.
Variable Marshal : any → list Byte.byte + error.

(** What the surroundings answer during one call: the fields the propagator
    writes for the context of the span just started, the clock, and the
    result of [ch.PublishWithContext]. *)
Record publish_env : Type := {
  span_fields : list (string * string);
  now : Z;
  send_res : option error
}.

Definition lift_store (r : outcome store) : M unit :=
  match r with
  | Done h => set_heap h
  | Panic msg => panic msg
  end.

(** [PublishJSON] from the start of the span to the [return]s. *)
Definition PublishJSON_span (env : publish_env) (exchangeName routingKey : string)
    (b : list Byte.byte) : M (option error) :=
  h ← get_heap;
  let headers := Carrier.make_table h in
  set_heap headers.2;;
  emit (EvInject (span_fields env));;
  lift_store (Carrier.Inject (span_fields env)
                {| Carrier.table := Some headers.1 |} headers.2);;
  emit EvNow;;
  let publishing :=
    {| ContentType := "application/json";
       DeliveryMode := Persistent;
       Timestamp := now env;
       Body := b;
       Headers := Some headers.1 |} in
  p ← get_pub;
  match getChannel p with
  | inr err =>
      emit (EvSpanRecordError err);;
      mret (Some (ErrWrap "failed to get channel: " err))
  | inl c =>
      emit (EvPublish c exchangeName routingKey false false publishing);;
      match send_res env with
      | Some err => emit (EvSpanRecordError err);; mret (Some err)
      | None =>
          emit (EvSpanSetAttributes
                  [AInt "messaging.message.body.size" (Z.of_nat (length b))]);;
          mret None
      end
  end.

(** [func (p *Publisher) PublishJSON(ctx, exchangeName, routingKey, body) error];
    the deferred [span.End()] runs after the span part returns. *)
Definition PublishJSON (env : publish_env) (exchangeName routingKey : string)
    (body : any) : M (option error) :=
  match Marshal body with
  | inr err => mret (Some err)
  | inl b =>
      emit (EvSpanStart "rabbitmq.publish"
              [AString "messaging.system" "rabbitmq";
               AString "messaging.destination" exchangeName;
               AString "messaging.destination_kind" "exchange";
               AString "messaging.rabbitmq.routing_key" routingKey]);;
      r ← PublishJSON_span env exchangeName routingKey b;
      emit EvSpanEnd;;
      mret r
  end.

(** [PublishJSON] with the [cfg] field of the Publisher in view.
    [NewPublisher] stores the pointer it is given without a check and nothing
    assigns the field afterwards, so the field is nil exactly when the
    Publisher was built with a nil configuration.  The method reads it once,
    for the name of the tracer, after the body is serialised and before the
    span is started and its end deferred; reading through a nil pointer is a
    run-time panic.  [PublishJSON] above is the method on a Publisher whose
    [cfg] is not nil. *)
Definition PublishJSON_cfg (cfg : option Config) (env : publish_env)
    (exchangeName routingKey : string) (body : any) : M (option error) :=
  match Marshal body with
  | inr err => mret (Some err)
  | inl b =>
      match cfg with
      | None =>
          panic "runtime error: invalid memory address or nil pointer dereference"
      | Some cfg =>
          let tracer := Name (App cfg) in
          emit (EvSpanStart "rabbitmq.publish"
                  [AString "messaging.system" "rabbitmq";
                   AString "messaging.destination" exchangeName;
                   AString "messaging.destination_kind" "exchange";
                   AString "messaging.rabbitmq.routing_key" routingKey]);;
          r ← PublishJSON_span env exchangeName routingKey b;
          emit EvSpanEnd;;
          mret r
      end
  end.

(** What the goroutines that share a Publisher can do to the program state,
    one step each: a call of [Close] or [PublishJSON], a pass of the watcher
    or of the reconnect loop, or a single critical section of any of them
    with other steps in between. *)
Inductive step : world → world → Prop :=
| step_Close res r w w' :
    Close res w = Done (r, w') → step w w'
| step_PublishJSON env exchangeName routingKey body r w w' :
    PublishJSON env exchangeName routingKey body w = Done (r, w') → step w w'
| step_reconnect a backoff r w w' :
    reconnect_iter a backoff w = Done (r, w') → step w w'
| step_watch closes amqpErr script r w w' :
    watch_iter closes amqpErr script w = Done (r, w') → step w w'
| step_critical s w w' :
    pub w' = run_critical (pub w) s → step w w'.

End PublishJSON.

(** An attempt that ends in an error. *)
Definition failed (a : attempt) : bool :=
  match a with
  | Connected _ _ => false
  | _ => true
  end.

(** The delay the specification gives for the sleep after the [i]-th failed
    attempt in a row, counting from 0: min(2^i, 30) seconds. *)
Definition backoff_delay (i : nat) : Z :=
  Z.min (2 ^ Z.of_nat i) 30 * Second.

Definition total (ds : list Z) : Z := foldr Z.add 0 ds.

(** The goroutines started, in order. *)
Definition spawned (tr : list event) : list string :=
  omap (λ e, match e with EvGo routine => Some routine | _ => None end) tr.

(** The call one [Close] makes on the channel of [p]. *)
Definition close_events (p : Publisher) : list event :=
  match ch p with
  | Some c => [EvChannelClose c]
  | None => []
  end.

(** The event of [tracer.Start(ctx, "rabbitmq.publish", ...)]. *)
Definition span_start (ex key : string) : event :=
  EvSpanStart "rabbitmq.publish"
    [AString "messaging.system" "rabbitmq";
     AString "messaging.destination" ex;
     AString "messaging.destination_kind" "exchange";
     AString "messaging.rabbitmq.routing_key" key].

(** Unfolds the state-passing plumbing. *)
Ltac run :=
  unfold mbind, M_bind, mret, M_ret, emit, get_pub, set_pub, get_heap, set_heap;
  simpl.

End Publisher.

(** * Consumer *)
Module Consumer.

(** [amqp.Queue] *)
Record Queue : Type := {
  Name : string;
  Messages : Z;
  Consumers : Z
}.

(** [type Consumer struct]: the channel it consumes on and its queue. *)
Record Consumer : Type := {
  ch : Channel;
  q : Queue
}.

(** [amqp.Delivery], with the fields the program reads. *)
Record Delivery : Type := {
  Headers : option loc;
  DeliveryTag : N;
  Body : list Byte.byte
}.

(** [func NewConsumer(conn, queueName, prefetch, log, cfg)], returning a
    Consumer or an error.  [channel_res], [qos_res] and [declare_res] are what
    [conn.Channel()], [ch.Qos] and [ch.QueueDeclare] return. *)
Definition NewConsumer (conn : option Connection) (queueName : string)
    (prefetch : Z) (channel_res : Channel + error) (qos_res : option error)
    (declare_res : Queue + error)
  : outcome ((Consumer + error) * list event) :=
  match conn with
  | None => Panic "invalid memory address or nil pointer dereference"
  | Some c =>
      match channel_res with
      | inr err => Done (inr err, [EvChannel c])
      | inl ch =>
          let prefetch := if prefetch <=? 0 then 10 else prefetch in
          match qos_res with
          | Some err => Done (inr err, [EvChannel c; EvQos ch prefetch 0 false])
          | None =>
              let declare :=
                EvQueueDeclare ch queueName true false false false in
              match declare_res with
              | inr err =>
                  Done (inr err, [EvChannel c; EvQos ch prefetch 0 false; declare])
              | inl q =>
                  Done (inl {| ch := ch; q := q |},
                        [EvChannel c; EvQos ch prefetch 0 false; declare])
              end
          end
      end
  end.

(** [func (c *Consumer) Close() error]; [close_res] is what [c.ch.Close()]
    returns. *)
Definition Close (c : Consumer) (close_res : option error)
  : option error * list event :=
  (close_res, [EvChannelClose (ch c)]).

(** What one [select] of the loop of [Handle] takes: the context is done
    (and [ctx.Err()] is [err]), a delivery arrives, or the receive finds the
    delivery channel closed. *)
Inductive selected : Type :=
| CtxDone (err : error)
| Received (m : Delivery)
| MsgsClosed.

(** [Handle] has returned an error, or is blocked in its [select]. *)
Inductive handle_end : Type :=
| HReturned (err : error)
| HSelecting.

Section Handle.

(** The caller's handler: a Go closure, so it has a state of its own. *)
Variable hstate : Type.
Variable handler : hstate → list Byte.byte → option error * hstate.

(** The [case m, ok := <-msgs] branch with [ok], up to the end of the loop
    body. *)
Definition deliver (c : Consumer) (st : hstate) (m : Delivery)
  : hstate * list event :=
  let extract :=
    match Headers m with
    | Some l => [EvExtract l]
    | None => []
    end in
  let span :=
    EvSpanStart "rabbitmq.consume"
      [AString "messaging.system" "rabbitmq";
       AString "messaging.destination" (Name (q c));
       AString "messaging.destination_kind" "queue";
       AString "messaging.operation" "receive";
       AInt "messaging.message.body.size" (Z.of_nat (length (Body m)))] in
  match handler st (Body m) with
  | (Some err, st') =>
      (st', extract ++ [span; EvHandler (Body m); EvSpanRecordError err;
                        EvNack (DeliveryTag m) false true;
                        EvLog Error "consume error"])
  | (None, st') =>
      (st', extract ++ [span; EvHandler (Body m); EvAck (DeliveryTag m) false])
  end.

(** The [for { select { ... } }] loop against a schedule of what the selects
    take.  Each pass defers one [span.End()]; they all run at the return. *)
Fixpoint Handle_loop (c : Consumer) (st : hstate) (deferred : nat)
    (sched : list selected) : handle_end * list event :=
  match sched with
  | [] => (HSelecting, [])
  | CtxDone err :: _ => (HReturned err, replicate deferred EvSpanEnd)
  | MsgsClosed :: _ =>
      (HReturned (ErrNew "consumer channel closed"),
       replicate deferred EvSpanEnd)
  | Received m :: sched' =>
      let d := deliver c st m in
      let r := Handle_loop c d.1 (S deferred) sched' in
      (r.1, d.2 ++ r.2)
  end.

(** [func (c *Consumer) Handle(ctx, handler) error]; [consume_res] is the error
    of [c.ch.Consume]. *)
Definition Handle (c : Consumer) (consume_res : option error) (st : hstate)
    (sched : list selected) : handle_end * list event :=
  let consume := EvConsume (ch c) (Name (q c)) "" false false false false in
  match consume_res with
  | Some err => (HReturned err, [consume])
  | None =>
      let r := Handle_loop c st 0 sched in
      (r.1, consume :: r.2)
  end.

(** The deliveries the loop takes before it returns. *)
Fixpoint received (sched : list selected) : list Delivery :=
  match sched with
  | Received m :: sched' => m :: received sched'
  | _ => []
  end.

(** What the handler answers on a run of deliveries. *)
Fixpoint handler_results (st : hstate) (ms : list Delivery) : list (option error) :=
  match ms with
  | [] => []
  | m :: ms' =>
      let r := handler st (Body m) in
      r.1 :: handler_results r.2 ms'
  end.

End Handle.

(** The acknowledgments of a trace, in order. *)
Definition is_ack (e : event) : bool :=
  match e with
  | EvAck _ _ | EvNack _ _ _ => true
  | _ => false
  end.

Definition acks (tr : list event) : list event := filter is_ack tr.

(** The acknowledgment that answers a handler result. *)
Definition ack_for (m : Delivery) (r : option error) : event :=
  match r with
  | Some _ => EvNack (DeliveryTag m) false true
  | None => EvAck (DeliveryTag m) false
  end.

(** The first entry of a schedule that is not a delivery. *)
Fixpoint first_stop (sched : list selected) : option selected :=
  match sched with
  | [] => None
  | Received _ :: sched' => first_stop sched'
  | s :: _ => Some s
  end.

(** The delivery tag an acknowledgment names. *)
Definition ack_tag (e : event) : option N :=
  match e with
  | EvAck tag _ | EvNack tag _ _ => Some tag
  | _ => None
  end.

(** The acknowledgments of a trace that name [tag]. *)
Definition acks_of (tag : N) (tr : list event) : list event :=
  filter (λ e, ack_tag e = Some tag) (acks tr).

(** The bodies the handler was called with, in order. *)
Definition handled (tr : list event) : list (list Byte.byte) :=
  omap (λ e, match e with EvHandler body => Some body | _ => None end) tr.

End Consumer.

(** * Further readings of a trace *)
Module Obs.

(** The connections [Close] was called on, in order. *)
Definition conn_closes (tr : list event) : list Connection :=
  omap (λ e, match e with EvConnClose c => Some c | _ => None end) tr.

(** The connections a close notification was asked of, in order. *)
Definition notified (tr : list event) : list Connection :=
  omap (λ e, match e with EvNotifyClose c => Some c | _ => None end) tr.

(** The number of calls of the dial function. *)
Definition dials (tr : list event) : nat :=
  length (omap (λ e, match e with EvDial => Some tt | _ => None end) tr).

(** The spans started, by name, and the number of spans ended. *)
Definition span_starts (tr : list event) : list string :=
  omap (λ e, match e with EvSpanStart name _ => Some name | _ => None end) tr.

Definition span_ends (tr : list event) : nat :=
  length (omap (λ e, match e with EvSpanEnd => Some tt | _ => None end) tr).

(** The header tables the propagator extracted from, in order. *)
Definition extracted (tr : list event) : list loc :=
  omap (λ e, match e with EvExtract l => Some l | _ => None end) tr.

(** The connection and the channel an attempt of [reconnect] has opened by
    the time it ends. *)
Definition opened_conn (a : Publisher.attempt) : option Connection :=
  match a with
  | Publisher.DialFails _ => None
  | Publisher.ChannelFails c _ => Some c
  | Publisher.QosFails c _ _ => Some c
  | Publisher.Connected c _ => Some c
  end.

Definition opened_chan (a : Publisher.attempt) : option Channel :=
  match a with
  | Publisher.QosFails _ h _ => Some h
  | Publisher.Connected _ h => Some h
  | _ => None
  end.

(** The calls by which the reconnect loop takes and gives back resources
    and waits: the dials, the closes and the sleeps, in order. *)
Inductive lifecycle : Type :=
| Dialed
| ChannelClosed (h : Channel)
| ConnClosed (c : Connection)
| Slept.

Definition lifecycle_of (tr : list event) : list lifecycle :=
  omap (λ e, match e with
             | EvDial => Some Dialed
             | EvChannelClose h => Some (ChannelClosed h)
             | EvConnClose c => Some (ConnClosed c)
             | EvSleep _ => Some Slept
             | _ => None
             end) tr.

(** What is due from one attempt of [reconnect]: a dial, and after a failure
    the close of the channel it opened, then the close of the connection it
    opened, then the sleep. *)
Definition attempt_lifecycle (a : Publisher.attempt) : list lifecycle :=
  Dialed ::
  if Publisher.failed a
  then (ChannelClosed <$> option_list (opened_chan a)) ++
       (ConnClosed <$> option_list (opened_conn a)) ++ [Slept]
  else [].

(** A round of the watcher in which nobody closes the Publisher and the
    reconnect, after some failed attempts, installs the pair [ch]. *)
Definition recovers (r : Publisher.watch_round) (ch : Connection * Channel) : Prop :=
  Publisher.round_closes r = [] ∧
  ∃ fails, forallb Publisher.failed fails = true ∧
           Publisher.round_script r = fails ++ [Publisher.Connected ch.1 ch.2].

(** The value the last entry for [k] in [fields] carries. *)
Fixpoint last_value (fields : list (string * string)) (k : string) : option string :=
  match fields with
  | [] => None
  | (k', v) :: rest =>
      match last_value rest k with
      | Some v' => Some v'
      | None => if decide (k' = k) then Some v else None
      end
  end.

End Obs.

(** * Path utilities (package path) *)
Module Path.
Import Stdlib.Strings.Ascii.

(** A Go string is a sequence of bytes; the functions of package [strings]
    the program calls, on such sequences. *)

(** [s] without the leading [prefix], when it starts with it. *)
Fixpoint strip (s prefix : string) {struct prefix} : option string :=
  match prefix, s with
  | EmptyString, _ => Some s
  | String a prefix', String b s' =>
      if decide (a = b) then strip s' prefix' else None
  | String _ _, EmptyString => None
  end.

(** [strings.HasPrefix] *)
Definition HasPrefix (s prefix : string) : bool :=
  match strip s prefix with
  | Some _ => true
  | None => false
  end.

(** [strings.TrimPrefix] *)
Definition TrimPrefix (s prefix : string) : string :=
  default s (strip s prefix).

(** [strings.HasSuffix] *)
Fixpoint HasSuffix (s suffix : string) : bool :=
  bool_decide (s = suffix) ||
  match s with
  | EmptyString => false
  | String _ s' => HasSuffix s' suffix
  end.

(** [strings.Contains] *)
Fixpoint Contains (s substr : string) : bool :=
  HasPrefix s substr ||
  match s with
  | EmptyString => false
  | String _ s' => Contains s' substr
  end.

(** [strings.Split(s, sep)] for a separator of one byte. *)
Fixpoint Split (s : string) (sep : Ascii.ascii) : list string :=
  match s with
  | EmptyString => [EmptyString]
  | String a s' =>
      if decide (a = sep) then EmptyString :: Split s' sep
      else match Split s' sep with
           | part :: parts => String a part :: parts
           | [] => [String a EmptyString]
           end
  end.

(** The byte [a] is one of the bytes of [cutset]. *)
Fixpoint in_cutset (a : Ascii.ascii) (cutset : string) : bool :=
  match cutset with
  | EmptyString => false
  | String b cutset' => bool_decide (a = b) || in_cutset a cutset'
  end.

(** [strings.TrimLeft], [strings.TrimRight] and [strings.Trim] for a cutset
    of ASCII bytes. *)
Fixpoint TrimLeft (s cutset : string) : string :=
  match s with
  | EmptyString => EmptyString
  | String a s' => if in_cutset a cutset then TrimLeft s' cutset else s
  end.

Fixpoint TrimRight (s cutset : string) : string :=
  match s with
  | EmptyString => EmptyString
  | String a s' =>
      match TrimRight s' cutset with
      | EmptyString => if in_cutset a cutset then EmptyString else String a EmptyString
      | rest => String a rest
      end
  end.

Definition Trim (s cutset : string) : string :=
  TrimLeft (TrimRight s cutset) cutset.

(** [strings.ReplaceAll(s, old, new)] for an [old] of one byte. *)
Fixpoint ReplaceAll (s : string) (old : Ascii.ascii) (new : string) : string :=
  match s with
  | EmptyString => EmptyString
  | String a s' =>
      if decide (a = old) then new +:+ ReplaceAll s' old new
      else String a (ReplaceAll s' old new)
  end.

(** The byte 0 and the string ["\x00"]. *)
Definition NUL : Ascii.ascii := Ascii.zero.
Definition NULs : string := String NUL EmptyString.

Definition ErrEmptyPath : error := ErrNew "path cannot be empty".
Definition ErrInvalidPath : error := ErrNew "path format is invalid".
Definition ErrPathTraversal : error := ErrNew "path contains directory traversal".

(** The [for _, part := range parts] loop of [ValidatePath]. *)
Fixpoint check_parts (parts : list string) : option error :=
  match parts with
  | [] => None
  | part :: parts' =>
      if decide (part = "") then check_parts parts'
      else if bool_decide (Trim part "." = "") && (1 <? String.length part)%nat
      then Some ErrPathTraversal
      else if Contains part NULs then Some ErrInvalidPath
      else check_parts parts'
  end.

(** [func ValidatePath(path string) error] *)
Definition ValidatePath (path : string) : option error :=
  if decide (path = "") then Some ErrEmptyPath
  else if Contains path ".." then Some ErrPathTraversal
  else if decide (path = "/") then None
  else check_parts (Split path "/"%char).

(** [func SanitizePath(path string) string] *)
Definition SanitizePath (path : string) : string :=
  let cleanPath := TrimPrefix path "/" in
  let cleanPath := TrimPrefix cleanPath "./" in
  let cleanPath := ReplaceAll cleanPath NUL "_" in
  if HasPrefix cleanPath "." then "file_" +:+ cleanPath else cleanPath.

Section GetDirectoriesFromPaths.

(** [strings.TrimSpace], which cuts the white space of Unicode at both ends:
    taken as it is. *)
Variable TrimSpace : string → string.

(** The parent path as the loop uses it. *)
Definition normalize_parent (parentPath : string) : string :=
  let parentPath := if decide (parentPath = "") then "/" else parentPath in
  let parentPath := TrimSpace parentPath in
  let parentPath :=
    if negb (HasPrefix parentPath "/") then "/" +:+ parentPath else parentPath in
  if negb (bool_decide (parentPath = "/")) && negb (HasSuffix parentPath "/")
  then parentPath +:+ "/" else parentPath.

(** The body of the loop over [filePaths]: the name one file path adds to
    the map, if it adds one. *)
Definition child_of (parentPath filePath : string) : option string :=
  let filePath := TrimSpace filePath in
  if decide (filePath = "") then None
  else
    let filePath :=
      if negb (HasPrefix filePath "/") then "/" +:+ filePath else filePath in
    if negb (HasPrefix filePath parentPath) then None
    else
      let relativePath := TrimPrefix filePath parentPath in
      if decide (relativePath = "") then None
      else
        match Split relativePath "/"%char with
        | part0 :: _ => if decide (part0 = "") then None else Some part0
        | [] => None
        end.

(** The keys of [directories] after the loop; every value of the map is
    [true]. *)
Definition directories (parentPath : string) (filePaths : list string)
  : gset string :=
  foldl (λ dirs filePath,
           match child_of parentPath filePath with
           | Some dir => {[dir]} ∪ dirs
           | None => dirs
           end) ∅ filePaths.

(** [func GetDirectoriesFromPaths(parentPath string, filePaths []string) []string],
    with the keys of the map in the order [elements] gives; Go leaves the
    order open, so any arrangement of this list is a possible result. *)
Definition GetDirectoriesFromPaths (parentPath : string)
    (filePaths : list string) : list string :=
  elements (directories (normalize_parent parentPath) filePaths).

Definition GetDirectoriesFromPaths_result (parentPath : string)
    (filePaths : list string) (result : list string) : Prop :=
  result ≡ₚ GetDirectoriesFromPaths parentPath filePaths.

End GetDirectoriesFromPaths.

(** A [TrimSpace] for strings whose white space is ASCII. *)
Definition TrimSpace_ascii (s : string) : string :=
  Trim s (String " "%char (String "009"%char (String "010"%char
          (String "011"%char (String "012"%char (String "013"%char
          EmptyString)))))).

End Path.

(** * Message normalizer for the OpenAI format (package converter) *)

(** [service.PartIn], with the fields the normalizer sets; the others keep
    their zero value.  A value of a [Meta] map is a string or a JSON object;
    the type [O] of JSON objects is taken as it is, and [None] at type
    [option O] is the nil map. *)
Module Service.

Inductive meta_value (O : Type) : Type :=
| MString (s : string)
| MObject (o : option O).
Arguments MString {O} s.
Arguments MObject {O} o.

Record PartIn (O : Type) : Type := {
  Type_ : string;
  Text : string;
  Meta : option (gmap string (meta_value O));
  FileField : string
}.
Arguments Type_ {O} p.
Arguments Text {O} p.
Arguments Meta {O} p.
Arguments FileField {O} p.

End Service.

Module Converter.

(** [OpenAIImageURL], [OpenAIInputAudio] and [OpenAIFunctionCall], with the
    fields the normalizer reads. *)
Record OpenAIImageURL : Type := { URL : string; Detail : string }.
Record OpenAIInputAudio : Type := { Data : string; Format : string }.
Record OpenAIFunctionCall : Type := { Name : string; Arguments : string }.

(** [type OpenAIPartIn struct]; a nil pointer is [None]. *)
Record OpenAIPartIn : Type := {
  Type_ : string;
  Text : string;
  ImageURL : option OpenAIImageURL;
  InputAudio : option OpenAIInputAudio;
  ID : string;
  Function : option OpenAIFunctionCall;
  ToolCallID : string;
  Output : string;
  FileField : string
}.

Section NormalizeFromOpenAI.

(** The decoded JSON objects, and [json.Unmarshal] of a string into a
    [map[string]interface{}] variable: the map it leaves there (nil for the
    JSON null) or its error. *)
Variable O : Type.
Variable Unmarshal : string → option O + error.

(** The body of the [switch part.Type]: the internal part, or the error the
    function returns at this part. *)
Definition convert_part (part : OpenAIPartIn) : Service.PartIn O + error :=
  if decide (Type_ part = "text") then
    if decide (Text part = "") then
      inr (ErrNew "text part requires non-empty text field")
    else
      inl {| Service.Type_ := "text";
             Service.Text := Text part;
             Service.Meta := None;
             Service.FileField := FileField part |}
  else if decide (Type_ part = "image_url") then
    match ImageURL part with
    | None => inr (ErrNew "image_url part requires image_url field")
    | Some image =>
        let meta : gmap string (Service.meta_value O) :=
          {[ "url" := Service.MString (URL image) ]} in
        let meta :=
          if decide (Detail image = "") then meta
          else <["detail" := Service.MString (Detail image)]> meta in
        inl {| Service.Type_ := "image";
               Service.Text := "";
               Service.Meta := Some meta;
               Service.FileField := FileField part |}
    end
  else if decide (Type_ part = "input_audio") then
    match InputAudio part with
    | None => inr (ErrNew "input_audio part requires input_audio field")
    | Some audio =>
        inl {| Service.Type_ := "audio";
               Service.Text := "";
               Service.Meta :=
                 Some (<["data" := Service.MString (Data audio)]>
                         {[ "format" := Service.MString (Format audio) ]});
               Service.FileField := "" |}
    end
  else if decide (Type_ part = "tool_call") then
    if decide (ID part = "") then
      inr (ErrNew "tool_call part requires id and function fields")
    else
      match Function part with
      | None => inr (ErrNew "tool_call part requires id and function fields")
      | Some function =>
          let arguments :=
            if decide (Arguments function = "") then inl None
            else Unmarshal (Arguments function) in
          match arguments with
          | inr err => inr (ErrWrap "invalid tool_call arguments JSON: " err)
          | inl arguments =>
              inl {| Service.Type_ := "tool-call";
                     Service.Text := "";
                     Service.Meta :=
                       Some (<["id" := Service.MString (ID part)]>
                               (<["tool_name" := Service.MString (Name function)]>
                                  {[ "arguments" := Service.MObject arguments ]}));
                     Service.FileField := "" |}
          end
      end
  else if decide (Type_ part = "tool_result") then
    if decide (ToolCallID part = "") then
      inr (ErrNew "tool_result part requires tool_call_id field")
    else
      inl {| Service.Type_ := "tool-result";
             Service.Text := "";
             Service.Meta :=
               Some (<["tool_call_id" := Service.MString (ToolCallID part)]>
                       {[ "result" := Service.MString (Output part) ]});
             Service.FileField := "" |}
  else inr (ErrNew ("unsupported OpenAI part type: " +:+ Type_ part)).

(** The [for _, part := range parts] loop: it appends the converted parts
    in order and returns at the first error. *)
Fixpoint convert_parts (parts : list OpenAIPartIn)
  : list (Service.PartIn O) + error :=
  match parts with
  | [] => inl []
  | part :: parts' =>
      match convert_part part with
      | inr err => inr err
      | inl p =>
          match convert_parts parts' with
          | inr err => inr err
          | inl ps => inl (p :: ps)
          end
      end
  end.

(** [func (n *OpenAINormalizer) NormalizeFromOpenAI(role, parts)]: the role
    and the parts, or the error. *)
Definition NormalizeFromOpenAI (role : string) (parts : list OpenAIPartIn)
  : string * list (Service.PartIn O) + error :=
  let normalizedRole :=
    if bool_decide (role = "tool") || bool_decide (role = "function")
    then "user" else role in
  if bool_decide (normalizedRole = "user") ||
     bool_decide (normalizedRole = "assistant") ||
     bool_decide (normalizedRole = "system")
  then
    match convert_parts parts with
    | inr err => inr err
    | inl normalizedParts => inl (normalizedRole, normalizedParts)
    end
  else inr (ErrNew ("invalid OpenAI role: " +:+ role)).

End NormalizeFromOpenAI.

(** The internal type the normalizer gives a part of an OpenAI type. *)
Definition internal_type (openai_type : string) : option string :=
  if decide (openai_type = "text") then Some "text"
  else if decide (openai_type = "image_url") then Some "image"
  else if decide (openai_type = "input_audio") then Some "audio"
  else if decide (openai_type = "tool_call") then Some "tool-call"
  else if decide (openai_type = "tool_result") then Some "tool-result"
  else None.

(** The roles the normalizer accepts. *)
Definition valid_role (role : string) : Prop :=
  role ∈ ["user"; "assistant"; "system"; "tool"; "function"].

(** Sample values: parts as the tests of the repository build them, every
    field they do not name at its zero value, and a [json.Unmarshal] that
    knows the empty object and null. *)
Definition part_of_type (t : string) : OpenAIPartIn :=
  {| Type_ := t; Text := ""; ImageURL := None; InputAudio := None; ID := "";
     Function := None; ToolCallID := ""; Output := ""; FileField := "" |}.

Definition text_part (text file_field : string) : OpenAIPartIn :=
  {| Type_ := "text"; Text := text; ImageURL := None; InputAudio := None;
     ID := ""; Function := None; ToolCallID := ""; Output := "";
     FileField := file_field |}.

Definition image_url_part (image : option OpenAIImageURL) : OpenAIPartIn :=
  {| Type_ := "image_url"; Text := ""; ImageURL := image; InputAudio := None;
     ID := ""; Function := None; ToolCallID := ""; Output := "";
     FileField := "" |}.

Definition input_audio_part (audio : option OpenAIInputAudio) : OpenAIPartIn :=
  {| Type_ := "input_audio"; Text := ""; ImageURL := None;
     InputAudio := audio; ID := ""; Function := None; ToolCallID := "";
     Output := ""; FileField := "" |}.

Definition tool_call_part (id : string) (function : option OpenAIFunctionCall)
  : OpenAIPartIn :=
  {| Type_ := "tool_call"; Text := ""; ImageURL := None; InputAudio := None;
     ID := id; Function := function; ToolCallID := ""; Output := "";
     FileField := "" |}.

Definition tool_result_part (tool_call_id output : string) : OpenAIPartIn :=
  {| Type_ := "tool_result"; Text := ""; ImageURL := None; InputAudio := None;
     ID := ""; Function := None; ToolCallID := tool_call_id; Output := output;
     FileField := "" |}.

Definition Unmarshal_sample (s : string) : option () + error :=
  if decide (s = "{}") then inl (Some ())
  else if decide (s = "null") then inl None
  else inr (ErrLib 1).

End Converter.

(** * Sample runs of the Consumer *)

(** A handler that fails on its first call and succeeds afterwards. *)
Definition flaky_handler (calls : nat) (body : list Byte.byte)
  : option error * nat :=
  (match calls with
   | O => Some (ErrLib 42)
   | S _ => None
   end, S calls).

Definition orders_consumer : Consumer.Consumer :=
  {| Consumer.ch := ChanId 2;
     Consumer.q := {| Consumer.Name := "orders";
                      Consumer.Messages := 0;
                      Consumer.Consumers := 0 |} |}.

(** A delivery, its redelivery under the next tag, then cancellation. *)
Definition redelivery_schedule : list Consumer.selected :=
  [Consumer.Received {| Consumer.Headers := None;
                        Consumer.DeliveryTag := 1;
                        Consumer.Body := [Byte.x7b; Byte.x7d] |};
   Consumer.Received {| Consumer.Headers := Some 1%positive;
                        Consumer.DeliveryTag := 2;
                        Consumer.Body := [Byte.x7b; Byte.x7d] |};
   Consumer.CtxDone (ErrLib 9)].

(** * Properties of the trace carrier adapter *)
Section carrier_facts.
Import Carrier.

Lemma index_live c (h : store) l (t : gmap string value) k :
  table c = Some l → h !! l = Some t → index c h k = t !! k.
Proof. intros Hc Hl. unfold index. rewrite Hc. simpl. rewrite Hl. done. Qed.

Lemma Set_live c (h : store) l (t : gmap string value) k v :
  table c = Some l → h !! l = Some t →
  Set_ c k v h = Done (<[l := <[k := VString v]> t]> h).
Proof.
  intros Hc Hl. unfold Set_. rewrite Hc. f_equal.
  apply map_eq. intros l'. destruct (decide (l = l')) as [<-|Hne].
  - rewrite lookup_alter_eq, lookup_insert_eq, Hl. done.
  - rewrite lookup_alter_ne, lookup_insert_ne by done. done.
Qed.

Lemma Keys_live c (h : store) l (t : gmap string value) :
  table c = Some l → h !! l = Some t → Keys c h = (map_to_list t).*1.
Proof. intros Hc Hl. unfold Keys. by rewrite Hc, Hl. Qed.

Lemma Get_nil (h : store) k : Get {| table := None |} h k = "".
Proof. reflexivity. Qed.




Lemma Keys_exact c (h : store) l (t : gmap string value) keys :
  table c = Some l → h !! l = Some t → Keys_result c h keys →
  NoDup keys ∧ (∀ k, k ∈ keys ↔ is_Some (t !! k)) ∧ length keys = size t.
Proof.
  intros Hc Hl Hks. unfold Keys_result in Hks.
  rewrite (Keys_live c h l t) in Hks by done.
  split; [|split].
  - rewrite Hks. apply NoDup_fst_map_to_list.
  - intros k. rewrite Hks, list_elem_of_fmap. split.
    + intros [[k' v] [-> Hin]]. apply elem_of_map_to_list in Hin. by exists v.
    + intros [v Hv]. exists (k, v). split; [done|]. by apply elem_of_map_to_list.
  - by rewrite Hks, length_fmap, length_map_to_list.
Qed.

End carrier_facts.

Lemma Inject_live fields c (h : store) l (t : gmap string value) :
  Carrier.table c = Some l → h !! l = Some t →
  Carrier.Inject fields c h = Done (<[l := Carrier.written fields t]> h).
Proof.
  intros Hc. revert h t. induction fields as [|[k v] fields IH]; intros h t Hl.
  - simpl. by rewrite insert_id.
  - simpl. rewrite (Set_live c h l t) by done.
    rewrite (IH _ (<[k := VString v]> t)) by apply lookup_insert_eq.
    by rewrite insert_insert_eq.
Qed.




(** ** Decimal numerals and the strings [pretty] gives *)

Section decimal_facts.
Import Stdlib.Strings.Ascii.















End decimal_facts.



(** * Properties of the Publisher *)
Section publisher_facts.
Import Publisher.

Lemma Close_run res w :
  Close res w =
  Done (match ch (pub w) with Some _ => res | None => None end,
        {| pub := {| conn := conn (pub w); ch := ch (pub w); closed := true |};
           heap := heap w;
           trace := trace w ++ close_events (pub w) |}).
Proof.
  unfold Close, close_events. run. destruct (ch (pub w)); run; [done|].
  by rewrite app_nil_r.
Qed.

Lemma bind_Done {A B} (m : M A) (f : A → M B) w r w' :
  (m ≫= f) w = Done (r, w') →
  ∃ a w1, m w = Done (a, w1) ∧ f a w1 = Done (r, w').
Proof.
  unfold mbind, M_bind. destruct (m w) as [[a w1]|msg]; [|done]. eauto.
Qed.

Lemma run_criticals_app p ss1 ss2 :
  run_criticals p (ss1 ++ ss2) = run_criticals (run_criticals p ss1) ss2.
Proof. apply foldl_app. Qed.

Lemma run_criticals_closed p ss :
  closed p = true → closed (run_criticals p ss) = true.
Proof.
  revert p. induction ss as [|s ss IH]; intros p Hp; [done|].
  simpl. apply IH. by destruct s.
Qed.

Lemma run_criticals_ch p ss :
  is_Some (ch p) → is_Some (ch (run_criticals p ss)).
Proof.
  revert p. induction ss as [|s ss IH]; intros p Hp; [done|].
  simpl. apply IH. destruct s; simpl; eauto.
Qed.

Lemma sleeps_snoc tr e :
  sleeps (tr ++ [e]) =
  sleeps tr ++ match e with EvSleep d => [d] | _ => [] end.
Proof. unfold sleeps. rewrite omap_app. by destruct e. Qed.

Lemma reconnect_iter_closed a backoff w :
  closed (pub w) = true → reconnect_iter a backoff w = Done (Return, w).
Proof. intros Hc. unfold reconnect_iter. run. by rewrite Hc. Qed.

Lemma reconnect_iter_failed a backoff w :
  closed (pub w) = false → failed a = true →
  ∃ w', reconnect_iter a backoff w =
          Done (Continue (Z.min (wrap64 (backoff * 2)) maxBackoff), w') ∧
        pub w' = pub w ∧ heap w' = heap w ∧
        sleeps (trace w') = sleeps (trace w) ++ [backoff].
Proof.
  intros Hc Ha. unfold reconnect_iter, sleep_and_double. run. rewrite Hc.
  destruct a; try done; run; eexists; (split; [reflexivity|]); simpl;
    rewrite !sleeps_snoc, <- ?app_assoc; simpl; by rewrite ?app_nil_r.
Qed.

Lemma reconnect_iter_connected c h backoff w :
  closed (pub w) = false →
  ∃ w', reconnect_iter (Connected c h) backoff w = Done (Return, w') ∧
        pub w' = {| conn := Some c; ch := Some h; closed := false |} ∧
        heap w' = heap w ∧
        sleeps (trace w') = sleeps (trace w).
Proof.
  intros Hc. unfold reconnect_iter. run. rewrite Hc. run.
  eexists. split; [reflexivity|]. simpl. rewrite Hc.
  rewrite !sleeps_snoc. simpl. by rewrite !app_nil_r.
Qed.

Lemma wrap64_small z : - 2 ^ 63 ≤ z < 2 ^ 63 → wrap64 z = z.
Proof.
  intros Hz. unfold wrap64. rewrite Z.mod_small by lia. lia.
Qed.

Lemma backoff_delay_next i :
  Z.min (wrap64 (backoff_delay i * 2)) maxBackoff = backoff_delay (S i).
Proof.
  unfold backoff_delay, maxBackoff, Second.
  rewrite Nat2Z.inj_succ, Z.pow_succ_r by lia.
  assert (0 < 2 ^ Z.of_nat i) by (apply Z.pow_pos_nonneg; lia).
  rewrite wrap64_small by lia. lia.
Qed.

Lemma reconnect_from_failed script i w :
  closed (pub w) = false → forallb failed script = true →
  ∃ w', reconnect_from (backoff_delay i) script w =
          Done (Running (backoff_delay (i + length script)), w') ∧
        pub w' = pub w ∧ heap w' = heap w ∧
        sleeps (trace w') =
          sleeps (trace w) ++ (backoff_delay <$> seq i (length script)).
Proof.
  revert i w. induction script as [|a script IH]; intros i w Hc Hall.
  - exists w. simpl. rewrite Nat.add_0_r, app_nil_r. done.
  - simpl in Hall. apply andb_prop in Hall as [Ha Hall].
    destruct (reconnect_iter_failed a (backoff_delay i) w Hc Ha)
      as (w1 & Hrun & Hpub & Hheap & Hsl).
    destruct (IH (S i) w1) as (w2 & Hrun2 & Hpub2 & Hheap2 & Hsl2);
      [by rewrite Hpub | done |].
    exists w2. simpl. unfold mbind, M_bind at 1. rewrite Hrun.
    rewrite backoff_delay_next, Hrun2.
    replace (i + S (length script))%nat with (S i + length script)%nat by lia.
    repeat split; [congruence..|].
    rewrite Hsl2, Hsl, <- app_assoc. done.
Qed.

Lemma Close_criticals res r w w' :
  Close res w = Done (r, w') → pub w' = run_criticals (pub w) [SecClose].
Proof. rewrite Close_run. by intros [= _ <-]. Qed.

Lemma reconnect_iter_criticals a backoff r w w' :
  reconnect_iter a backoff w = Done (r, w') →
  ∃ ss, pub w' = run_criticals (pub w) ss.
Proof.
  destruct (closed (pub w)) eqn:Hc.
  - rewrite reconnect_iter_closed by done. intros [= _ <-]. by exists [].
  - destruct (failed a) eqn:Ha.
    + destruct (reconnect_iter_failed a backoff w Hc Ha) as (w1 & -> & Hp & _).
      intros [= _ <-]. by exists [].
    + destruct a; try done.
      destruct (reconnect_iter_connected c h backoff w Hc) as (w1 & -> & Hp & _).
      intros [= _ <-]. exists [SecSwap c h]. simpl. by rewrite Hc.
Qed.

Lemma reconnect_from_criticals script backoff r w w' :
  reconnect_from backoff script w = Done (r, w') →
  ∃ ss, pub w' = run_criticals (pub w) ss.
Proof.
  revert backoff w. induction script as [|a script IH]; intros backoff w.
  - intros [= _ <-]. by exists [].
  - simpl. intros (c & w1 & H1 & H2)%bind_Done.
    apply reconnect_iter_criticals in H1 as [ss1 Hss1].
    destruct c as [backoff'|].
    + apply IH in H2 as [ss2 Hss2]. exists (ss1 ++ ss2).
      by rewrite run_criticals_app, <- Hss1.
    + injection H2 as _ <-. by exists ss1.
Qed.

Lemma run_closes_criticals closes r w w' :
  run_closes closes w = Done (r, w') →
  ∃ ss, pub w' = run_criticals (pub w) ss.
Proof.
  revert w. induction closes as [|res closes IH]; intros w.
  - intros [= _ <-]. by exists [].
  - simpl. intros (c & w1 & H1 & H2)%bind_Done.
    apply Close_criticals in H1. apply IH in H2 as [ss Hss].
    exists (SecClose :: ss). by rewrite Hss, H1.
Qed.

Lemma watch_iter_criticals closes amqpErr script r w w' :
  watch_iter closes amqpErr script w = Done (r, w') →
  ∃ ss, pub w' = run_criticals (pub w) ss.
Proof.
  unfold watch_iter. intros (p & w1 & [= <- <-] & H)%bind_Done.
  destruct (closed (pub w)). { injection H as _ <-. by exists []. }
  destruct (conn (pub w)).
  2:{ apply bind_Done in H as (? & w1 & [= _ <-] & [= _ <-]). by exists []. }
  apply bind_Done in H as (? & w1 & [= _ <-] & H).
  apply bind_Done in H as (? & w2 & H1 & H).
  apply run_closes_criticals in H1 as [ss1 Hss1]. simpl in Hss1.
  apply bind_Done in H as (p' & w3 & [= <- <-] & H).
  destruct (closed (pub w2)). { injection H as _ <-. by exists ss1. }
  apply bind_Done in H as (? & w3 & [= _ <-] & H).
  apply bind_Done in H as (e & w4 & H2 & H).
  apply reconnect_from_criticals in H2 as [ss2 Hss2]. simpl in Hss2.
  exists (ss1 ++ ss2). rewrite run_criticals_app, <- Hss1, <- Hss2.
  by destruct e; injection H as _ <-.
Qed.

Section publish.
Variable any : Type.
Variable Marshal : any → list Byte.byte + error.

Lemma PublishJSON_no_channel env ex key body b w e :
  Marshal body = inl b → getChannel (pub w) = inr e →
  PublishJSON any Marshal env ex key body w =
  Done (Some (ErrWrap "failed to get channel: " e),
        {| pub := pub w;
           heap := <[fresh (dom (heap w)) := Carrier.written (span_fields env) ∅]> (heap w);
           trace := trace w ++ [span_start ex key; EvInject (span_fields env); EvNow;
                                EvSpanRecordError e; EvSpanEnd] |}).
Proof.
  intros Hb He. unfold PublishJSON, PublishJSON_span. rewrite Hb. run.
  unfold lift_store.
  rewrite (Inject_live _ _ _ (fresh (dom (heap w))) ∅)
    by (done || apply lookup_insert_eq).
  run. rewrite He. run. rewrite insert_insert_eq, <- !app_assoc. done.
Qed.

Lemma PublishJSON_channel env ex key body b w c :
  Marshal body = inl b → getChannel (pub w) = inl c →
  PublishJSON any Marshal env ex key body w =
  Done (send_res env,
        {| pub := pub w;
           heap := <[fresh (dom (heap w)) := Carrier.written (span_fields env) ∅]> (heap w);
           trace := trace w ++
             [span_start ex key; EvInject (span_fields env); EvNow;
              EvPublish c ex key false false
                {| ContentType := "application/json";
                   DeliveryMode := Persistent;
                   Timestamp := now env;
                   Body := b;
                   Headers := Some (fresh (dom (heap w))) |};
              match send_res env with
              | Some err => EvSpanRecordError err
              | None => EvSpanSetAttributes
                          [AInt "messaging.message.body.size" (Z.of_nat (length b))]
              end;
              EvSpanEnd] |}).
Proof.
  intros Hb He. unfold PublishJSON, PublishJSON_span. rewrite Hb. run.
  unfold lift_store.
  rewrite (Inject_live _ _ _ (fresh (dom (heap w))) ∅)
    by (done || apply lookup_insert_eq).
  run. rewrite He. run.
  destruct (send_res env); run; rewrite insert_insert_eq, <- !app_assoc; done.
Qed.

Lemma PublishJSON_pub env ex key body r w w' :
  PublishJSON any Marshal env ex key body w = Done (r, w') → pub w' = pub w.
Proof.
  destruct (Marshal body) as [b|err] eqn:Hb.
  - destruct (getChannel (pub w)) as [c|e] eqn:Hg.
    + rewrite (PublishJSON_channel env ex key body b w c) by done.
      by intros [= _ <-].
    + rewrite (PublishJSON_no_channel env ex key body b w e) by done.
      by intros [= _ <-].
  - unfold PublishJSON. rewrite Hb. by intros [= _ <-].
Qed.

Lemma step_criticals w w' :
  step any Marshal w w' → ∃ ss, pub w' = run_criticals (pub w) ss.
Proof.
  destruct 1 as [res r w w' H|env ex key body r w w' H|a b r w w' H
                |closes e script r w w' H|s w w' H].
  - exists [SecClose]. by eapply Close_criticals.
  - exists []. by eapply PublishJSON_pub.
  - by eapply reconnect_iter_criticals.
  - by eapply watch_iter_criticals.
  - by exists [s].
Qed.

Lemma steps_criticals w w' :
  rtc (step any Marshal) w w' → ∃ ss, pub w' = run_criticals (pub w) ss.
Proof.
  induction 1 as [w|w w1 w' Hstep _ [ss2 Hss2]].
  - by exists [].
  - apply step_criticals in Hstep as [ss1 Hss1].
    exists (ss1 ++ ss2). by rewrite run_criticals_app, <- Hss1.
Qed.

End publish.

End publisher_facts.

Lemma reconnect_from_app s1 s2 backoff backoff' w w1 :
  Publisher.reconnect_from backoff s1 w = Done (Publisher.Running backoff', w1) →
  Publisher.reconnect_from backoff (s1 ++ s2) w =
  Publisher.reconnect_from backoff' s2 w1.
Proof.
  revert backoff w. induction s1 as [|a s1 IH]; intros backoff w.
  - by intros [= <- <-].
  - simpl. unfold mbind, Publisher.M_bind.
    destruct (Publisher.reconnect_iter a backoff w) as [[[b1|] w']|]; try done.
    apply IH.
Qed.

Lemma sends_app_quiet tr evs :
  forallb (λ e, negb (Publisher.is_publish e)) evs = true →
  Publisher.sends (tr ++ evs) = Publisher.sends tr.
Proof.
  intros Hq. unfold Publisher.sends. rewrite filter_app.
  replace (filter Publisher.is_publish evs) with ([] : list event);
    [by rewrite app_nil_r|].
  symmetry. induction evs as [|e evs IH]; [done|].
  simpl in Hq. apply andb_prop in Hq as [He Hq].
  rewrite filter_cons_False; [by apply IH|].
  revert He. destruct (Publisher.is_publish e); simpl; [done|tauto].
Qed.

(** C4. While the Publisher is not closed, a reconnect whose first N attempts
    fail (at the dial, at opening the channel or at setting QoS) sleeps N
    times, the i-th time (from 0) for min(2^i, 30) seconds: 1 second first,
    then twice the last delay with 30 seconds as the ceiling.  Every call of
    reconnect starts again from 1 second.  After the N failures the loop is
    still going; when the next attempt succeeds, reconnect has returned, has
    slept the sum of those delays and the new channel is the one
    getChannel gives. *)
Theorem reconnect_backoff_schedule (script : list Publisher.attempt)
    (c : Connection) (h : Channel) (w : Publisher.world) :
  Publisher.closed (Publisher.pub w) = false →
  forallb Publisher.failed script = true →
  ∃ w1 w2 ds,
    Publisher.reconnect script w =
      Done (Publisher.Running (Publisher.backoff_delay (length script)), w1) ∧
    Publisher.sleeps (Publisher.trace w1) =
      Publisher.sleeps (Publisher.trace w) ++ ds ∧
    Publisher.reconnect (script ++ [Publisher.Connected c h]) w =
      Done (Publisher.Returned, w2) ∧
    Publisher.sleeps (Publisher.trace w2) =
      Publisher.sleeps (Publisher.trace w) ++ ds ∧
    Publisher.getChannel (Publisher.pub w2) = inl h ∧
    length ds = length script ∧
    (∀ i, (i < length script)%nat →
          ds !! i = Some (Z.min (2 ^ Z.of_nat i * Second) (30 * Second))) ∧
    (∀ i d d', ds !! i = Some d → ds !! S i = Some d' →
               d' = Z.min (2 * d) (30 * Second)) ∧
    (script ≠ [] → ds !! 0%nat = Some Second) ∧
    Publisher.total ds =
      Publisher.total
        ((λ i, Z.min (2 ^ Z.of_nat i) 30 * Second) <$> seq 0 (length script)).
Proof.
  intros Hc Hall.
  assert (H0 : Second = Publisher.backoff_delay 0) by reflexivity.
  destruct (reconnect_from_failed script 0 w Hc Hall)
    as (w1 & Hrun & Hpub & Hheap & Hsl).
  destruct (reconnect_iter_connected c h
              (Publisher.backoff_delay (length script)) w1)
    as (w2 & Hrun2 & Hpub2 & _ & Hsl2); [by rewrite Hpub|].
  assert (Hds : ∀ i, (i < length script)%nat →
            (Publisher.backoff_delay <$> seq 0 (length script)) !! i =
            Some (Publisher.backoff_delay i)).
  { intros i Hi. rewrite list_lookup_fmap, lookup_seq_lt by done. done. }
  assert (Hform : ∀ i, Publisher.backoff_delay i =
                       Z.min (2 ^ Z.of_nat i * Second) (30 * Second)).
  { intros i. unfold Publisher.backoff_delay, Second. lia. }
  exists w1, w2, (Publisher.backoff_delay <$> seq 0 (length script)).
  unfold Publisher.reconnect. rewrite H0.
  split; [exact Hrun|]. split; [exact Hsl|]. split.
  { rewrite (reconnect_from_app _ _ _ _ _ _ Hrun). simpl.
    unfold mbind, Publisher.M_bind. by rewrite Hrun2. }
  split; [by rewrite Hsl2, Hsl|]. split; [by rewrite Hpub2|].
  split; [by rewrite length_fmap, length_seq|]. split; [|split; [|split]].
  - intros i Hi. by rewrite Hds, Hform.
  - intros i d d' Hd Hd'.
    assert (Hi : (S i < length script)%nat).
    { apply lookup_lt_Some in Hd'. by rewrite length_fmap, length_seq in Hd'. }
    rewrite Hds in Hd, Hd' by lia. injection Hd as <-. injection Hd' as <-.
    rewrite <- backoff_delay_next. unfold Publisher.maxBackoff.
    rewrite wrap64_small; [f_equal; lia|].
    rewrite Hform. unfold Second. lia.
  - intros Hne. rewrite Hds; [done|]. destruct script; [done|simpl; lia].
  - done.
Qed.

(** The schedule for three failures (dial, channel, QoS) and a success:
    1 s, 2 s and 4 s of sleep. *)
Lemma reconnect_backoff_schedule_witness :
  let w := {| Publisher.pub :=
                {| Publisher.conn := Some (ConnId 0);
                   Publisher.ch := Some (ChanId 0);
                   Publisher.closed := false |};
              Publisher.heap := ∅;
              Publisher.trace := [] |} in
  let script := [Publisher.DialFails (ErrLib 1);
                 Publisher.ChannelFails (ConnId 1) (ErrLib 2);
                 Publisher.QosFails (ConnId 2) (ChanId 2) (ErrLib 3)] in
  ∃ w2,
    Publisher.reconnect (script ++ [Publisher.Connected (ConnId 3) (ChanId 3)]) w =
      Done (Publisher.Returned, w2) ∧
    Publisher.sleeps (Publisher.trace w2) =
      [1000000000; 2000000000; 4000000000].
Proof.
  intros w script.
  destruct (reconnect_backoff_schedule script (ConnId 3) (ChanId 3) w
              eq_refl eq_refl)
    as (w1 & w2 & ds & _ & _ & Hrun & Hsl & _ & Hlen & Hds & _).
  exists w2. split; [exact Hrun|]. rewrite Hsl. simpl.
  destruct ds as [|d0 [|d1 [|d2 [|]]]]; try discriminate Hlen.
  pose proof (Hds 0%nat ltac:(simpl; lia)) as E0.
  pose proof (Hds 1%nat ltac:(simpl; lia)) as E1.
  pose proof (Hds 2%nat ltac:(simpl; lia)) as E2.
  simpl in E0, E1, E2. injection E0 as ->. injection E1 as ->. injection E2 as ->.
  reflexivity.
Defined.

(** C10. When the body cannot be serialized, PublishJSON returns the
    encoder's error and leaves the program state as it was: no span, no
    header table, no channel access and no send. *)
Theorem PublishJSON_marshal_error (any : Type)
    (Marshal : any → list Byte.byte + error) (env : Publisher.publish_env)
    (exchangeName routingKey : string) (body : any) (err : error)
    (w : Publisher.world) :
  Marshal body = inr err →
  Publisher.PublishJSON any Marshal env exchangeName routingKey body w =
    Done (Some err, w) ∧
  ∀ r w', Publisher.PublishJSON any Marshal env exchangeName routingKey body w =
            Done (r, w') →
          r = Some err ∧
          Publisher.trace w' = Publisher.trace w ∧
          Publisher.heap w' = Publisher.heap w ∧
          Publisher.pub w' = Publisher.pub w.
Proof.
  intros Hm. unfold Publisher.PublishJSON. rewrite Hm. split; [done|].
  by intros r w' [= <- <-].
Qed.

(** A body the encoder rejects, sent through an open Publisher. *)
Lemma PublishJSON_marshal_error_witness :
  let Marshal := λ b : bool, if b then inl [] else inr (ErrLib 7) in
  let env := {| Publisher.span_fields := [("traceparent", "00-ab-cd-01")];
                Publisher.now := 1700000000;
                Publisher.send_res := None |} in
  let w := {| Publisher.pub :=
                {| Publisher.conn := Some (ConnId 0);
                   Publisher.ch := Some (ChanId 0);
                   Publisher.closed := false |};
              Publisher.heap := ∅;
              Publisher.trace := [] |} in
  Publisher.PublishJSON bool Marshal env "orders" "created" false w =
    Done (Some (ErrLib 7), w).
Proof.
  intros Marshal env w.
  exact (proj1 (PublishJSON_marshal_error bool Marshal env "orders" "created"
                  false (ErrLib 7) w eq_refl)).
Defined.

(** C2. With a body that serializes: whenever getChannel fails (the Publisher
    is closed, or it has no channel), PublishJSON returns that error wrapped
    as "failed to get channel: ...", sends nothing and leaves the Publisher
    as it was; and once Close has run, whatever the goroutines do afterwards,
    every PublishJSON fails in this way. *)
Theorem PublishJSON_fail_closed (any : Type)
    (Marshal : any → list Byte.byte + error) (env : Publisher.publish_env)
    (exchangeName routingKey : string) (body : any) (b : list Byte.byte) :
  Marshal body = inl b →
  (∀ p, Publisher.closed p = true ∨ Publisher.ch p = None ↔
        ∃ e, Publisher.getChannel p = inr e) ∧
  (∀ w e, Publisher.getChannel (Publisher.pub w) = inr e →
     (e = ErrNew "publisher is closed" ∨ e = ErrNew "channel is not available") ∧
     ∃ w', Publisher.PublishJSON any Marshal env exchangeName routingKey body w =
             Done (Some (ErrWrap "failed to get channel: " e), w') ∧
           Unwrap (ErrWrap "failed to get channel: " e) = Some e ∧
           Publisher.sends (Publisher.trace w') =
             Publisher.sends (Publisher.trace w) ∧
           Publisher.pub w' = Publisher.pub w) ∧
  (∀ res r w w1 w2,
     Publisher.Close res w = Done (r, w1) →
     rtc (Publisher.step any Marshal) w1 w2 →
     ∃ w3, Publisher.PublishJSON any Marshal env exchangeName routingKey body w2 =
             Done (Some (ErrWrap "failed to get channel: "
                           (ErrNew "publisher is closed")), w3) ∧
           Publisher.sends (Publisher.trace w3) =
             Publisher.sends (Publisher.trace w2)).
Proof.
  intros Hb.
  assert (Hfail : ∀ w e, Publisher.getChannel (Publisher.pub w) = inr e →
     ∃ w', Publisher.PublishJSON any Marshal env exchangeName routingKey body w =
             Done (Some (ErrWrap "failed to get channel: " e), w') ∧
           Publisher.sends (Publisher.trace w') =
             Publisher.sends (Publisher.trace w) ∧
           Publisher.pub w' = Publisher.pub w).
  { intros w e He. eexists. split; [by apply (PublishJSON_no_channel _ _ _ _ _ _ b)|].
    simpl. split; [|done]. by apply sends_app_quiet. }
  split; [|split].
  - intros p. unfold Publisher.getChannel.
    destruct (Publisher.closed p), (Publisher.ch p); split;
      (try by eauto); (try by intros [e He]); intros [|]; done.
  - intros w e He. split.
    + revert He. unfold Publisher.getChannel.
      destruct (Publisher.closed (Publisher.pub w)); [intros [= <-]; by left|].
      destruct (Publisher.ch (Publisher.pub w)); [done|intros [= <-]; by right].
    + destruct (Hfail w e He) as (w' & ? & ? & ?). by exists w'.
  - intros res r w w1 w2 Hclose Hsteps.
    apply Close_criticals in Hclose.
    apply (steps_criticals any Marshal) in Hsteps as [ss Hss].
    assert (Hc : Publisher.closed (Publisher.pub w2) = true).
    { rewrite Hss. apply run_criticals_closed. by rewrite Hclose. }
    destruct (Hfail w2 (ErrNew "publisher is closed")) as (w3 & ? & ? & ?).
    { unfold Publisher.getChannel. by rewrite Hc. }
    by exists w3.
Qed.

(** Publishing after Close on a Publisher that was open. *)
Lemma PublishJSON_fail_closed_witness :
  let Marshal := λ b : bool, if b then inl [] else inr (ErrLib 7) in
  let env := {| Publisher.span_fields := [("traceparent", "00-ab-cd-01")];
                Publisher.now := 1700000000;
                Publisher.send_res := None |} in
  let w := {| Publisher.pub :=
                {| Publisher.conn := Some (ConnId 0);
                   Publisher.ch := Some (ChanId 0);
                   Publisher.closed := false |};
              Publisher.heap := ∅;
              Publisher.trace := [] |} in
  ∃ w1 w',
    Publisher.Close None w = Done (None, w1) ∧
    Publisher.PublishJSON bool Marshal env "orders" "created" true w1 =
      Done (Some (ErrWrap "failed to get channel: "
                    (ErrNew "publisher is closed")), w') ∧
    Publisher.sends (Publisher.trace w') = [].
Proof.
  intros Marshal env w.
  destruct (PublishJSON_fail_closed bool Marshal env "orders" "created" true []
              eq_refl) as (_ & _ & Hafter).
  eexists. 
  destruct (Hafter None None w _ _ eq_refl (rtc_refl _ _)) as (w' & Hrun & Hsends).
  exists w'. split; [reflexivity|]. split; [exact Hrun|].
  rewrite Hsends. reflexivity.
Defined.

(** C5. With a body that serializes to [b] and a channel [c] at hand,
    PublishJSON makes one send on [c], to the given exchange and routing key,
    of a message with content type "application/json", the persistent delivery
    mode, the clock's time as timestamp, [b] as body, and as headers a table
    that did not exist before the call and holds what the propagator's
    injection wrote into the empty table.  After the send it only finishes the
    span (no wait for a confirmation), and it returns what the send
    returned. *)
Theorem PublishJSON_envelope (any : Type)
    (Marshal : any → list Byte.byte + error) (env : Publisher.publish_env)
    (exchangeName routingKey : string) (body : any) (b : list Byte.byte)
    (c : Channel) (w : Publisher.world) :
  Marshal body = inl b →
  Publisher.getChannel (Publisher.pub w) = inl c →
  ∃ w' l msg after,
    Publisher.PublishJSON any Marshal env exchangeName routingKey body w =
      Done (Publisher.send_res env, w') ∧
    Publisher.trace w' =
      Publisher.trace w ++
        [Publisher.span_start exchangeName routingKey;
         EvInject (Publisher.span_fields env); EvNow;
         EvPublish c exchangeName routingKey false false msg] ++ after ∧
    Publisher.sends (Publisher.trace w') =
      Publisher.sends (Publisher.trace w) ++
        [EvPublish c exchangeName routingKey false false msg] ∧
    ContentType msg = "application/json" ∧
    DeliveryMode msg = Persistent ∧
    Persistent = 2 ∧
    Timestamp msg = Publisher.now env ∧
    Body msg = b ∧
    Headers msg = Some l ∧
    Publisher.heap w !! l = None ∧
    Publisher.heap w' !! l =
      Some (Carrier.written (Publisher.span_fields env) ∅) ∧
    Carrier.Inject (Publisher.span_fields env) {| Carrier.table := Some l |}
      (<[l := ∅]> (Publisher.heap w)) = Done (Publisher.heap w') ∧
    after =
      [match Publisher.send_res env with
       | Some err => EvSpanRecordError err
       | None => EvSpanSetAttributes
                   [AInt "messaging.message.body.size" (Z.of_nat (length b))]
       end; EvSpanEnd].
Proof.
  intros Hb Hc.
  pose proof (PublishJSON_channel any Marshal env exchangeName routingKey
                body b w c Hb Hc) as Hrun.
  set (l := fresh (dom (Publisher.heap w))) in *.
  assert (Hl : Publisher.heap w !! l = None).
  { apply not_elem_of_dom. apply is_fresh. }
  eexists _, l, _, _. split; [exact Hrun|]. simpl.
  split; [reflexivity|]. split.
  { unfold Publisher.sends. rewrite !filter_app. simpl.
    destruct (Publisher.send_res env); by simpl. }
  repeat (split; [reflexivity|]).
  split; [exact Hl|]. split; [apply lookup_insert_eq|]. split; [|reflexivity].
  rewrite (Inject_live _ _ _ l ∅) by (done || apply lookup_insert_eq).
  by rewrite insert_insert_eq.
Qed.

(** One publish of a two-byte body through an open Publisher: the message
    that reaches the channel. *)
Lemma PublishJSON_envelope_witness :
  let Marshal := λ n : nat, inl (repeat Byte.x7b n) : list Byte.byte + error in
  let env := {| Publisher.span_fields := [("traceparent", "00-ab-cd-01")];
                Publisher.now := 1700000000;
                Publisher.send_res := None |} in
  let w := {| Publisher.pub :=
                {| Publisher.conn := Some (ConnId 0);
                   Publisher.ch := Some (ChanId 4);
                   Publisher.closed := false |};
              Publisher.heap := ∅;
              Publisher.trace := [] |} in
  ∃ w' msg,
    Publisher.PublishJSON nat Marshal env "orders" "created" 2%nat w =
      Done (None, w') ∧
    Publisher.sends (Publisher.trace w') =
      [EvPublish (ChanId 4) "orders" "created" false false msg] ∧
    ContentType msg = "application/json" ∧ DeliveryMode msg = 2 ∧
    Timestamp msg = 1700000000 ∧ Body msg = [Byte.x7b; Byte.x7b].
Proof.
  intros Marshal env w.
  destruct (PublishJSON_envelope nat Marshal env "orders" "created" 2%nat
              [Byte.x7b; Byte.x7b] (ChanId 4) w eq_refl eq_refl)
    as (w' & l & msg & after & Hrun & _ & Hs & Hct & Hdm & Hp & Hts & Hbody & _).
  exists w', msg. split; [exact Hrun|]. split; [exact Hs|].
  split; [exact Hct|]. split; [by rewrite Hdm, Hp|]. by split.
Defined.

(** C9. A Publisher that NewPublisher returned has a channel, and keeps
    having one through every step that any of its goroutines takes: Close
    leaves the field alone and reconnect only stores a channel it has just
    opened.  So on such a Publisher getChannel never answers "channel is not
    available"; when it fails, it is with "publisher is closed". *)
Theorem NewPublisher_channel_forever (any : Type)
    (Marshal : any → list Byte.byte + error) (conn : option Connection)
    (channel_res : Channel + error) (qos_res : option error)
    (p : Publisher.Publisher) (evs : list event) (w0 w : Publisher.world) :
  Publisher.NewPublisher conn channel_res qos_res = Done (inl p, evs) →
  Publisher.pub w0 = p →
  rtc (Publisher.step any Marshal) w0 w →
  is_Some (Publisher.ch p) ∧
  is_Some (Publisher.ch (Publisher.pub w)) ∧
  Publisher.getChannel (Publisher.pub w) ≠ inr (ErrNew "channel is not available") ∧
  (∀ e, Publisher.getChannel (Publisher.pub w) = inr e →
        e = ErrNew "publisher is closed" ∧
        Publisher.closed (Publisher.pub w) = true).
Proof.
  intros Hnew Hp0 Hsteps.
  assert (Hp : is_Some (Publisher.ch p)).
  { unfold Publisher.NewPublisher in Hnew.
    destruct conn as [c|]; [|done]. destruct channel_res as [h|]; [|done].
    destruct qos_res; [done|]. injection Hnew as <- _. by eexists. }
  apply (steps_criticals any Marshal) in Hsteps as [ss Hss].
  assert (Hch : is_Some (Publisher.ch (Publisher.pub w))).
  { rewrite Hss, Hp0. by apply run_criticals_ch. }
  split; [done|]. split; [done|].
  unfold Publisher.getChannel. destruct Hch as [h ->].
  destruct (Publisher.closed (Publisher.pub w)); [|done].
  split; [done|]. by intros e [= <-].
Qed.

(** A Publisher from NewPublisher, closed and then reconnected by a watcher
    that had passed its check: the channel is the new one. *)
Lemma NewPublisher_channel_forever_witness :
  let Marshal := λ _ : unit, inl [] : list Byte.byte + error in
  let p := {| Publisher.conn := Some (ConnId 0);
              Publisher.ch := Some (ChanId 1);
              Publisher.closed := false |} in
  let w0 := {| Publisher.pub := p; Publisher.heap := ∅; Publisher.trace := [] |} in
  let w2 := {| Publisher.pub :=
                 {| Publisher.conn := Some (ConnId 5);
                    Publisher.ch := Some (ChanId 6);
                    Publisher.closed := true |};
               Publisher.heap := ∅;
               Publisher.trace := [EvChannelClose (ChanId 1)] |} in
  is_Some (Publisher.ch (Publisher.pub w2)) ∧
  Publisher.getChannel (Publisher.pub w2) = inr (ErrNew "publisher is closed").
Proof.
  intros Marshal p w0 w2. split; [|reflexivity].
  refine (proj1 (proj2
    (NewPublisher_channel_forever unit Marshal (Some (ConnId 0))
       (inl (ChanId 1)) None p _ w0 w2 eq_refl eq_refl _))).
  set (w1 := {| Publisher.pub :=
                  {| Publisher.conn := Some (ConnId 0);
                     Publisher.ch := Some (ChanId 1);
                     Publisher.closed := true |};
                Publisher.heap := ∅;
                Publisher.trace := [EvChannelClose (ChanId 1)] |}).
  apply (rtc_l _ w0 w1 w2);
    [exact (Publisher.step_Close unit Marshal None None w0 w1 eq_refl)|].
  apply rtc_once.
  exact (Publisher.step_critical unit Marshal
           (Publisher.SecSwap (ConnId 5) (ChanId 6)) w1 w2 eq_refl).
Defined.

(** C8 as stated fails on a Publisher just built with NewPublisher: the
    second Close calls Close on the channel a second time. *)
Lemma Close_twice_closes_channel_again :
  let p := {| Publisher.conn := Some (ConnId 0);
              Publisher.ch := Some (ChanId 1);
              Publisher.closed := false |} in
  let w := {| Publisher.pub := p; Publisher.heap := ∅; Publisher.trace := [] |} in
  Publisher.NewPublisher (Some (ConnId 0)) (inl (ChanId 1)) None =
    Done (inl p, [EvChannel (ConnId 0); EvQos (ChanId 1) 0 0 false;
                  EvGo "watchConnection"]) ∧
  ∃ w1 w2,
    Publisher.Close None w = Done (None, w1) ∧
    Publisher.Close None w1 = Done (None, w2) ∧
    Publisher.channel_closes (Publisher.trace w1) = [ChanId 1] ∧
    Publisher.channel_closes (Publisher.trace w2) = [ChanId 1; ChanId 1] ∧
    ¬ (length (Publisher.channel_closes (Publisher.trace w2)) ≤ 1)%nat.
Proof.
  intros p w. split; [reflexivity|].
  eexists _, _. split; [reflexivity|]. split; [reflexivity|].
  split; [reflexivity|]. split; [reflexivity|]. simpl. lia.
Qed.

Lemma channel_closes_app tr1 tr2 :
  Publisher.channel_closes (tr1 ++ tr2) =
  Publisher.channel_closes tr1 ++ Publisher.channel_closes tr2.
Proof. apply omap_app. Qed.

Lemma watch_iter_closed closes amqpErr script w :
  Publisher.closed (Publisher.pub w) = true →
  Publisher.watch_iter closes amqpErr script w = Done (Publisher.WReturn, w).
Proof. intros Hc. unfold Publisher.watch_iter. Publisher.run. by rewrite Hc. Qed.

(** C8, amended. Close never panics, marks the Publisher closed, leaves its
    connection and channel fields alone and calls Close on the channel the
    Publisher holds, on every call: after two calls the Publisher is closed
    and the channel's Close has been called twice.  NewPublisher starts one
    watcher and Close starts none; on a closed Publisher the watcher and its
    reconnect loop return at their next check without doing anything, and a
    watcher that waits for the close notification while the two calls run
    returns when it is notified, without a reconnect attempt. *)
Theorem Close_twice (res1 res2 : option error) (w : Publisher.world) :
  ∃ r1 r2 w1 w2,
    Publisher.Close res1 w = Done (r1, w1) ∧
    Publisher.Close res2 w1 = Done (r2, w2) ∧
    Publisher.closed (Publisher.pub w1) = true ∧
    Publisher.closed (Publisher.pub w2) = true ∧
    Publisher.ch (Publisher.pub w2) = Publisher.ch (Publisher.pub w) ∧
    Publisher.conn (Publisher.pub w2) = Publisher.conn (Publisher.pub w) ∧
    Publisher.trace w1 =
      Publisher.trace w ++ Publisher.close_events (Publisher.pub w) ∧
    Publisher.trace w2 =
      Publisher.trace w1 ++ Publisher.close_events (Publisher.pub w) ∧
    Publisher.channel_closes (Publisher.trace w2) =
      Publisher.channel_closes (Publisher.trace w) ++
      match Publisher.ch (Publisher.pub w) with
      | Some c => [c; c]
      | None => []
      end ∧
    (∀ conn channel_res qos_res p evs,
       Publisher.NewPublisher conn channel_res qos_res = Done (inl p, evs) →
       Publisher.spawned evs = ["watchConnection"]) ∧
    Publisher.spawned (Publisher.close_events (Publisher.pub w)) = [] ∧
    (∀ a backoff,
       Publisher.reconnect_iter a backoff w2 = Done (Publisher.Return, w2)) ∧
    (∀ round rounds,
       Publisher.watchConnection (round :: rounds) w2 =
         Done (Publisher.WDone, w2)) ∧
    (∀ c amqpErr script rounds,
       Publisher.closed (Publisher.pub w) = false →
       Publisher.conn (Publisher.pub w) = Some c →
       Publisher.watchConnection
         ({| Publisher.round_closes := [res1; res2];
             Publisher.round_amqpErr := amqpErr;
             Publisher.round_script := script |} :: rounds) w =
         Done (Publisher.WDone,
               {| Publisher.pub := Publisher.pub w2;
                  Publisher.heap := Publisher.heap w;
                  Publisher.trace :=
                    Publisher.trace w ++ [EvNotifyClose c] ++
                    Publisher.close_events (Publisher.pub w) ++
                    Publisher.close_events (Publisher.pub w) |})).
Proof.
  rewrite Close_run.
  set (w1 := {| Publisher.pub := _; Publisher.heap := _; Publisher.trace := _ |}).
  pose proof (Close_run res2 w1) as H2.
  set (w2 := {| Publisher.pub := _; Publisher.heap := _; Publisher.trace := _ |}) in H2.
  exists (match Publisher.ch (Publisher.pub w) with Some _ => res1 | None => None end),
         (match Publisher.ch (Publisher.pub w1) with Some _ => res2 | None => None end),
         w1, w2.
  split; [done|]. split; [done|]. repeat (split; [reflexivity|]).
  split; [|split; [|split; [|split; [|split]]]].
  - simpl. unfold Publisher.close_events. rewrite !channel_closes_app, <- app_assoc.
    simpl. by destruct (Publisher.ch (Publisher.pub w)).
  - intros conn channel_res qos_res p evs. unfold Publisher.NewPublisher.
    destruct conn; [|done]. destruct channel_res; [|done].
    destruct qos_res; [done|]. by intros [= _ <-].
  - unfold Publisher.close_events. by destruct (Publisher.ch (Publisher.pub w)).
  - intros a backoff. by apply reconnect_iter_closed.
  - intros round rounds. simpl. unfold mbind, Publisher.M_bind.
    by rewrite watch_iter_closed.
  - intros c amqpErr script rounds Hc Hconn. simpl. unfold Publisher.watch_iter.
    Publisher.run. rewrite Hc, Hconn. Publisher.run.
    unfold Publisher.Close. Publisher.run. unfold Publisher.close_events.
    destruct (Publisher.ch (Publisher.pub w)); Publisher.run;
      rewrite <- ?app_assoc, ?Hconn; simpl; by rewrite ?app_nil_r.
Qed.

(** * Properties of the Consumer *)
Section consumer_facts.
Import Consumer.
Variable hstate : Type.
Variable handler : hstate → list Byte.byte → option error * hstate.

Lemma acks_app tr1 tr2 : acks (tr1 ++ tr2) = acks tr1 ++ acks tr2.
Proof. apply filter_app. Qed.

Lemma handled_app tr1 tr2 : handled (tr1 ++ tr2) = handled tr1 ++ handled tr2.
Proof. apply omap_app. Qed.

Lemma acks_span_ends n : acks (replicate n EvSpanEnd) = [].
Proof. induction n as [|n IH]; [done|]. simpl. by rewrite <- IH. Qed.

Lemma handled_span_ends n : handled (replicate n EvSpanEnd) = [].
Proof. induction n as [|n IH]; [done|]. simpl. by rewrite <- IH. Qed.

Lemma deliver_state c st m :
  (deliver hstate handler c st m).1 = (handler st (Body m)).2.
Proof. unfold deliver. by destruct (handler st (Body m)) as [[e|] st']. Qed.

Lemma deliver_acks c st m :
  acks (deliver hstate handler c st m).2 = [ack_for m (handler st (Body m)).1].
Proof.
  unfold deliver. destruct (handler st (Body m)) as [[e|] st']; simpl;
    rewrite acks_app; by destruct (Headers m).
Qed.

Lemma deliver_handled c st m :
  handled (deliver hstate handler c st m).2 = [Body m].
Proof.
  unfold deliver. destruct (handler st (Body m)) as [[e|] st']; simpl;
    rewrite handled_app; by destruct (Headers m).
Qed.

Lemma Handle_loop_acks c st deferred sched :
  acks (Handle_loop hstate handler c st deferred sched).2 =
  zip_with ack_for (received sched)
    (handler_results hstate handler st (received sched)).
Proof.
  revert st deferred. induction sched as [|s sched IH]; intros st deferred.
  - done.
  - destruct s as [err|m|]; simpl; try apply acks_span_ends.
    rewrite acks_app, deliver_acks, IH, deliver_state. done.
Qed.

Lemma Handle_loop_handled c st deferred sched :
  handled (Handle_loop hstate handler c st deferred sched).2 =
  Body <$> received sched.
Proof.
  revert st deferred. induction sched as [|s sched IH]; intros st deferred.
  - done.
  - destruct s as [err|m|]; simpl; try apply handled_span_ends.
    rewrite handled_app, deliver_handled, IH. done.
Qed.

Lemma Handle_loop_end c st deferred sched :
  (Handle_loop hstate handler c st deferred sched).1 =
  match first_stop sched with
  | Some (CtxDone err) => HReturned err
  | Some MsgsClosed => HReturned (ErrNew "consumer channel closed")
  | _ => HSelecting
  end.
Proof.
  revert st deferred. induction sched as [|s sched IH]; intros st deferred.
  - done.
  - destruct s as [err|m|]; simpl; [done | apply IH | done].
Qed.

Lemma handler_results_length st ms :
  length (handler_results hstate handler st ms) = length ms.
Proof.
  revert st. induction ms as [|m ms IH]; intros st; [done|].
  simpl. by rewrite IH.
Qed.

End consumer_facts.

Lemma ack_for_tag m r : Consumer.ack_tag (Consumer.ack_for m r) = Some (Consumer.DeliveryTag m).
Proof. by destruct r. Qed.

Lemma acks_of_count tag ms rs :
  length rs = length ms →
  length (filter (λ e, Consumer.ack_tag e = Some tag)
            (zip_with Consumer.ack_for ms rs)) =
  length (filter (λ m, Consumer.DeliveryTag m = tag) ms).
Proof.
  revert rs. induction ms as [|m ms IH]; intros [|r rs] Hlen; try done.
  simpl. injection Hlen as Hlen. rewrite !filter_cons, ack_for_tag.
  destruct (decide (Consumer.DeliveryTag m = tag)) as [->|Hne].
  - rewrite decide_True by done. simpl. by rewrite IH.
  - rewrite decide_False by congruence. by apply IH.
Qed.

Lemma filter_tag_absent (ms : list Consumer.Delivery) tag :
  tag ∉ Consumer.DeliveryTag <$> ms →
  filter (λ m, Consumer.DeliveryTag m = tag) ms = [].
Proof.
  induction ms as [|m ms IH]; intros Hnot; [done|].
  rewrite fmap_cons in Hnot. apply not_elem_of_cons in Hnot as [Hne Hnot].
  rewrite filter_cons, decide_False by done. by apply IH.
Qed.

Lemma filter_tag_once (ms : list Consumer.Delivery) m :
  NoDup (Consumer.DeliveryTag <$> ms) → m ∈ ms →
  length (filter (λ m', Consumer.DeliveryTag m' = Consumer.DeliveryTag m) ms) = 1%nat.
Proof.
  induction ms as [|m0 ms IH]; intros Hnd Hin.
  - by apply elem_of_nil in Hin.
  - rewrite fmap_cons in Hnd. apply NoDup_cons in Hnd as [Hfresh Hnd].
    rewrite filter_cons. apply elem_of_cons in Hin as [->|Hin].
    + rewrite decide_True by done. simpl. by rewrite filter_tag_absent.
    + rewrite decide_False; [by apply IH|].
      intros Heq. apply Hfresh. rewrite Heq. by apply list_elem_of_fmap_2.
Qed.

Lemma first_stop_split sched s :
  Consumer.first_stop sched = Some s →
  ∃ ms rest, sched = (Consumer.Received <$> ms) ++ s :: rest.
Proof.
  induction sched as [|s0 sched IH]; [done|].
  destruct s0 as [err|m|]; simpl.
  - intros [= <-]. by exists [], sched.
  - intros (ms & rest & ->)%IH. by exists (m :: ms), rest.
  - intros [= <-]. by exists [], sched.
Qed.

Lemma first_stop_app ms s rest :
  (∀ m, s ≠ Consumer.Received m) →
  Consumer.first_stop ((Consumer.Received <$> ms) ++ s :: rest) = Some s.
Proof.
  intros Hs. induction ms as [|m ms IH]; [|done].
  simpl. destruct s; try done. by destruct (Hs m).
Qed.

Lemma first_stop_deliveries sched :
  Forall (λ s, ∃ m, s = Consumer.Received m) sched →
  Consumer.first_stop sched = None.
Proof. induction 1 as [|s sched [m ->] _ IH]; done. Qed.

(** C1. Once consuming has started, Handle calls the handler once on every
    delivery its loop receives, in order, and answers each with one
    acknowledgment and no more: Nack with requeue when the handler returned
    an error, Ack when it returned nil; then it goes on with the rest of the
    schedule.  The acknowledgments that name a delivery tag are as many as the
    deliveries received with that tag, so with distinct tags exactly one. *)
Theorem Handle_ack_exactly_once (hstate : Type)
    (handler : hstate → list Byte.byte → option error * hstate)
    (c : Consumer.Consumer) (st : hstate) (sched : list Consumer.selected) :
  let tr := (Consumer.Handle hstate handler c None st sched).2 in
  let ms := Consumer.received sched in
  let rs := Consumer.handler_results hstate handler st ms in
  Consumer.handled tr = Consumer.Body <$> ms ∧
  length rs = length ms ∧
  Consumer.acks tr = zip_with Consumer.ack_for ms rs ∧
  length (Consumer.acks tr) = length ms ∧
  (∀ i m, ms !! i = Some m →
     ∃ r, rs !! i = Some r ∧
          Consumer.acks tr !! i =
            Some match r with
                 | Some _ => EvNack (Consumer.DeliveryTag m) false true
                 | None => EvAck (Consumer.DeliveryTag m) false
                 end) ∧
  (∀ tag, length (Consumer.acks_of tag tr) =
          length (filter (λ m, Consumer.DeliveryTag m = tag) ms)) ∧
  (∀ m, NoDup (Consumer.DeliveryTag <$> ms) → m ∈ ms →
        ∃ a, Consumer.acks_of (Consumer.DeliveryTag m) tr = [a]) ∧
  (∀ m sched',
     Consumer.acks
       (Consumer.Handle hstate handler c None st (Consumer.Received m :: sched')).2 =
     Consumer.ack_for m (handler st (Consumer.Body m)).1 ::
     Consumer.acks
       (Consumer.Handle hstate handler c None (handler st (Consumer.Body m)).2
          sched').2).
Proof.
  intros tr ms rs.
  assert (Hacks : ∀ st' sched',
            Consumer.acks (Consumer.Handle hstate handler c None st' sched').2 =
            zip_with Consumer.ack_for (Consumer.received sched')
              (Consumer.handler_results hstate handler st'
                 (Consumer.received sched'))).
  { intros st' sched'. unfold Consumer.Handle. simpl.
    change (?e :: ?l) with ([e] ++ l).
    by rewrite acks_app, Handle_loop_acks. }
  assert (Hlen : length rs = length ms) by apply handler_results_length.
  assert (Htr : Consumer.acks tr = zip_with Consumer.ack_for ms rs) by apply Hacks.
  assert (Hcount : ∀ tag, length (Consumer.acks_of tag tr) =
            length (filter (λ m, Consumer.DeliveryTag m = tag) ms)).
  { intros tag. unfold Consumer.acks_of. rewrite Htr. by apply acks_of_count. }
  split; [|split; [done|split; [done|split; [|split; [|split; [done|split]]]]]].
  - unfold tr, Consumer.Handle. simpl. apply Handle_loop_handled.
  - rewrite Htr, length_zip_with. lia.
  - intros i m Hm.
    destruct (lookup_lt_is_Some_2 rs i) as [r Hr].
    { rewrite Hlen. by eapply lookup_lt_Some. }
    exists r. split; [done|]. rewrite Htr, lookup_zip_with, Hm. simpl.
    rewrite Hr. simpl. by destruct r.
  - intros m Hnd Hin. specialize (Hcount (Consumer.DeliveryTag m)).
    rewrite (filter_tag_once ms m Hnd Hin) in Hcount.
    destruct (Consumer.acks_of _ tr) as [|a [|]]; try done. by exists a.
  - intros m sched'. rewrite !Hacks. simpl. done.
Qed.

(** C3. Once consuming has started, what ends Handle is the first entry of
    the schedule that is not a delivery: a done context, with the context's
    error, or the closed delivery channel, with "consumer channel closed".
    While the selects take deliveries Handle stays in its loop whatever the
    handler returns, and the handler gets every one of them.  (When Consume
    itself fails, Handle returns that error before its first select.) *)
Theorem Handle_returns_on_ctx_or_close (hstate : Type)
    (handler : hstate → list Byte.byte → option error * hstate)
    (c : Consumer.Consumer) (st : hstate) (sched : list Consumer.selected) :
  let run := Consumer.Handle hstate handler c None st sched in
  run.1 = match Consumer.first_stop sched with
          | Some (Consumer.CtxDone err) => Consumer.HReturned err
          | Some Consumer.MsgsClosed =>
              Consumer.HReturned (ErrNew "consumer channel closed")
          | _ => Consumer.HSelecting
          end ∧
  (∀ err, run.1 = Consumer.HReturned err →
     ∃ ms rest,
       sched = (Consumer.Received <$> ms) ++ Consumer.CtxDone err :: rest ∨
       (sched = (Consumer.Received <$> ms) ++ Consumer.MsgsClosed :: rest ∧
        err = ErrNew "consumer channel closed")) ∧
  (Forall (λ s, ∃ m, s = Consumer.Received m) sched →
     run.1 = Consumer.HSelecting) ∧
  (∀ ms err rest,
     (Consumer.Handle hstate handler c None st
        ((Consumer.Received <$> ms) ++ Consumer.CtxDone err :: rest)).1 =
     Consumer.HReturned err) ∧
  (∀ ms rest,
     (Consumer.Handle hstate handler c None st
        ((Consumer.Received <$> ms) ++ Consumer.MsgsClosed :: rest)).1 =
     Consumer.HReturned (ErrNew "consumer channel closed")) ∧
  (∀ m sched',
     (Consumer.Handle hstate handler c None st (Consumer.Received m :: sched')).1 =
     (Consumer.Handle hstate handler c None (handler st (Consumer.Body m)).2
        sched').1) ∧
  Consumer.handled run.2 = Consumer.Body <$> Consumer.received sched ∧
  (∀ err,
     Consumer.Handle hstate handler c (Some err) st sched =
     (Consumer.HReturned err,
      [EvConsume (Consumer.ch c) (Consumer.Name (Consumer.q c)) ""
         false false false false])).
Proof.
  intros run.
  assert (Hend : ∀ st' sched',
            (Consumer.Handle hstate handler c None st' sched').1 =
            match Consumer.first_stop sched' with
            | Some (Consumer.CtxDone err) => Consumer.HReturned err
            | Some Consumer.MsgsClosed =>
                Consumer.HReturned (ErrNew "consumer channel closed")
            | _ => Consumer.HSelecting
            end).
  { intros st' sched'. unfold Consumer.Handle. simpl. apply Handle_loop_end. }
  split; [apply Hend|]. split; [|split; [|split; [|split; [|split; [|split]]]]].
  - intros err. unfold run. rewrite Hend.
    destruct (Consumer.first_stop sched) as [[e|m|]|] eqn:Hstop; try done.
    + intros [= <-]. apply first_stop_split in Hstop as (ms & rest & ->).
      exists ms, rest. by left.
    + intros [= <-]. apply first_stop_split in Hstop as (ms & rest & ->).
      exists ms, rest. by right.
  - intros Hall. unfold run. by rewrite Hend, first_stop_deliveries.
  - intros ms err rest. by rewrite Hend, first_stop_app.
  - intros ms rest. by rewrite Hend, first_stop_app.
  - intros m sched'. by rewrite !Hend.
  - unfold run, Consumer.Handle. simpl. apply Handle_loop_handled.
  - done.
Qed.

(** C7. On a connection, NewConsumer opens a channel, sets on it a prefetch of
    10 when the caller gave at most 0 and the caller's count otherwise, and
    declares the queue durable, not auto-deleted and not exclusive, in this
    order; the first of the three to fail ends the construction with its
    error and without a Consumer, and when none fails the Consumer holds the
    channel and the queue. *)
Theorem NewConsumer_setup (c : Connection) (queueName : string) (prefetch : Z)
    (channel_res : Channel + error) (qos_res : option error)
    (declare_res : Consumer.Queue + error) :
  let count := if prefetch <=? 0 then 10 else prefetch in
  (prefetch ≤ 0 → count = 10) ∧ (0 < prefetch → count = prefetch) ∧
  ∃ r evs,
    Consumer.NewConsumer (Some c) queueName prefetch channel_res qos_res
      declare_res = Done (r, evs) ∧
    match channel_res with
    | inr err => r = inr err ∧ evs = [EvChannel c]
    | inl ch =>
        match qos_res with
        | Some err =>
            r = inr err ∧ evs = [EvChannel c; EvQos ch count 0 false]
        | None =>
            evs = [EvChannel c; EvQos ch count 0 false;
                   EvQueueDeclare ch queueName true false false false] ∧
            match declare_res with
            | inr err => r = inr err
            | inl q => r = inl {| Consumer.ch := ch; Consumer.q := q |}
            end
        end
    end ∧
    ((∃ consumer, r = inl consumer) ↔
     (∃ ch q, channel_res = inl ch ∧ qos_res = None ∧ declare_res = inl q)).
Proof.
  intros count. split; [|split].
  - intros Hle. unfold count. by rewrite (proj2 (Z.leb_le _ _) Hle).
  - intros Hlt. unfold count. by rewrite (proj2 (Z.leb_gt _ _) Hlt).
  - unfold Consumer.NewConsumer. fold count.
    destruct channel_res as [ch|e1].
    2:{ eexists _, _. split; [done|]. split; [done|].
        split; [by intros [? ?]|by intros (? & ? & ? & _)]. }
    destruct qos_res as [e2|].
    { eexists _, _. split; [done|]. split; [done|].
      split; [by intros [? ?]|by intros (? & ? & _ & ? & _)]. }
    destruct declare_res as [q|e3].
    + eexists _, _. split; [done|]. split; [done|].
      split; [by exists ch, q|by eexists].
    + eexists _, _. split; [done|]. split; [done|].
      split; [by intros [? ?]|by intros (? & ? & _ & _ & ?)].
Qed.

(** * The properties at concrete runs *)

(** The failed delivery is requeued, its redelivery acknowledged. *)
Lemma Handle_ack_exactly_once_witness :
  Consumer.acks
    (Consumer.Handle nat flaky_handler orders_consumer None 0%nat
       redelivery_schedule).2 =
  [EvNack 1 false true; EvAck 2 false].
Proof.
  destruct (Handle_ack_exactly_once nat flaky_handler orders_consumer 0%nat
              redelivery_schedule) as (_ & _ & Hacks & _).
  rewrite Hacks. reflexivity.
Defined.

(** The handler's failure does not end the loop; the cancellation does. *)
Lemma Handle_returns_on_ctx_or_close_witness :
  (Consumer.Handle nat flaky_handler orders_consumer None 0%nat
     redelivery_schedule).1 = Consumer.HReturned (ErrLib 9) ∧
  (Consumer.Handle nat flaky_handler orders_consumer None 0%nat
     (take 2 redelivery_schedule)).1 = Consumer.HSelecting.
Proof.
  split.
  - destruct (Handle_returns_on_ctx_or_close nat flaky_handler orders_consumer
                0%nat redelivery_schedule) as (Hend & _).
    rewrite Hend. reflexivity.
  - destruct (Handle_returns_on_ctx_or_close nat flaky_handler orders_consumer
                0%nat (take 2 redelivery_schedule)) as (_ & _ & Hloop & _).
    apply Hloop. repeat constructor; by eexists.
Defined.

(** A caller that passes prefetch 0 gets 10. *)
Lemma NewConsumer_setup_witness :
  ∃ r,
    Consumer.NewConsumer (Some (ConnId 0)) "orders" 0 (inl (ChanId 2)) None
      (inl (Consumer.q orders_consumer)) =
    Done (r, [EvChannel (ConnId 0); EvQos (ChanId 2) 10 0 false;
              EvQueueDeclare (ChanId 2) "orders" true false false false]) ∧
    r = inl orders_consumer.
Proof.
  destruct (NewConsumer_setup (ConnId 0) "orders" 0 (inl (ChanId 2)) None
              (inl (Consumer.q orders_consumer)))
    as (_ & _ & r & evs & Hrun & (Hevs & Hr) & _).
  exists r. rewrite Hrun, Hevs. by split.
Defined.

(** Two calls of Close on an open Publisher. *)
Lemma Close_twice_witness :
  let w := {| Publisher.pub :=
                {| Publisher.conn := Some (ConnId 0);
                   Publisher.ch := Some (ChanId 1);
                   Publisher.closed := false |};
              Publisher.heap := ∅;
              Publisher.trace := [] |} in
  ∃ w1 w2,
    Publisher.Close None w = Done (None, w1) ∧
    Publisher.Close (Some (ErrLib 504)) w1 = Done (Some (ErrLib 504), w2) ∧
    Publisher.closed (Publisher.pub w2) = true ∧
    Publisher.channel_closes (Publisher.trace w2) = [ChanId 1; ChanId 1].
Proof.
  intros w.
  destruct (Close_twice None (Some (ErrLib 504)) w)
    as (r1 & r2 & w1 & w2 & H1 & H2 & _ & Hc & _ & _ & _ & _ & Hcl & _).
  exists w1, w2.
  assert (E1 : Publisher.Close None w = Done (None, w1)).
  { rewrite H1. f_equal. f_equal. rewrite Close_run in H1. by injection H1 as <- _. }
  split; [exact E1|].
  assert (E2 : Publisher.Close (Some (ErrLib 504)) w1 = Done (Some (ErrLib 504), w2)).
  { rewrite H2. f_equal. f_equal. rewrite Close_run in E1. injection E1 as <-.
    rewrite Close_run in H2. by injection H2 as <- _. }
  split; [exact E2|]. split; [exact Hc|]. exact Hcl.
Defined.

(** The whole trace of the redelivery run: the handler's failure is recorded
    on the span and requeued, and the two deferred span ends run at the
    return. *)
Example Handle_redelivery_trace :
  Consumer.Handle nat flaky_handler orders_consumer None 0%nat
    redelivery_schedule =
  (Consumer.HReturned (ErrLib 9),
   let span :=
     EvSpanStart "rabbitmq.consume"
       [AString "messaging.system" "rabbitmq";
        AString "messaging.destination" "orders";
        AString "messaging.destination_kind" "queue";
        AString "messaging.operation" "receive";
        AInt "messaging.message.body.size" 2] in
   [EvConsume (ChanId 2) "orders" "" false false false false;
    span; EvHandler [Byte.x7b; Byte.x7d]; EvSpanRecordError (ErrLib 42);
    EvNack 1 false true; EvLog Error "consume error";
    EvExtract 1%positive; span; EvHandler [Byte.x7b; Byte.x7d];
    EvAck 2 false;
    EvSpanEnd; EvSpanEnd]).
Proof. reflexivity. Qed.

(** Scenario B of the specification: the dial fails twice, then succeeds;
    the watcher has slept 1 s and 2 s and holds the new channel. *)
Example reconnect_two_failures :
  let w := {| Publisher.pub :=
                {| Publisher.conn := Some (ConnId 0);
                   Publisher.ch := Some (ChanId 0);
                   Publisher.closed := false |};
              Publisher.heap := ∅;
              Publisher.trace := [] |} in
  ∃ w',
    Publisher.reconnect
      [Publisher.DialFails (ErrLib 1); Publisher.DialFails (ErrLib 1);
       Publisher.Connected (ConnId 1) (ChanId 1)] w =
      Done (Publisher.Returned, w') ∧
    Publisher.sleeps (Publisher.trace w') = [Second; 2 * Second] ∧
    Publisher.total (Publisher.sleeps (Publisher.trace w')) = 3 * Second ∧
    Publisher.getChannel (Publisher.pub w') = inl (ChanId 1).
Proof.
  intros w. eexists. split; [vm_compute; reflexivity|].
  vm_compute. by repeat split.
Qed.

(** A Close that arrives while reconnect sleeps ends the loop at the next
    check: no further dial. *)
Example reconnect_stops_when_closed :
  let w := {| Publisher.pub :=
                {| Publisher.conn := Some (ConnId 0);
                   Publisher.ch := Some (ChanId 0);
                   Publisher.closed := true |};
              Publisher.heap := ∅;
              Publisher.trace := [EvChannelClose (ChanId 0)] |} in
  Publisher.reconnect_from (2 * Second)
    [Publisher.DialFails (ErrLib 1); Publisher.Connected (ConnId 1) (ChanId 1)] w =
  Done (Publisher.Returned, w).
Proof. vm_compute. reflexivity. Qed.

(** * Further properties of the Publisher *)

(** What one pass of the reconnect loop adds to the trace, read through
    each observer. *)
Lemma reconnect_iter_failed_events a backoff w :
  Publisher.closed (Publisher.pub w) = false → Publisher.failed a = true →
  ∃ w' evs,
    Publisher.reconnect_iter a backoff w =
      Done (Publisher.Continue
              (Z.min (wrap64 (backoff * 2)) Publisher.maxBackoff), w') ∧
    Publisher.pub w' = Publisher.pub w ∧
    Publisher.heap w' = Publisher.heap w ∧
    Publisher.trace w' = Publisher.trace w ++ evs ∧
    Obs.conn_closes evs = option_list (Obs.opened_conn a) ∧
    Publisher.channel_closes evs = option_list (Obs.opened_chan a) ∧
    Obs.notified evs = [] ∧ Publisher.sends evs = [] ∧
    Publisher.spawned evs = [] ∧ Obs.dials evs = 1%nat ∧
    Publisher.sleeps evs = [backoff].
Proof.
  intros Hc Ha. unfold Publisher.reconnect_iter, Publisher.sleep_and_double.
  Publisher.run. rewrite Hc.
  destruct a; try done; Publisher.run; eexists _, _;
    (split; [reflexivity|]); simpl; rewrite <- ?app_assoc; simpl;
    (split; [reflexivity|]); (split; [reflexivity|]);
    (split; [reflexivity|]); by repeat split.
Qed.

Lemma reconnect_iter_connected_events c h backoff w :
  Publisher.closed (Publisher.pub w) = false →
  ∃ w' evs,
    Publisher.reconnect_iter (Publisher.Connected c h) backoff w =
      Done (Publisher.Return, w') ∧
    Publisher.pub w' =
      {| Publisher.conn := Some c; Publisher.ch := Some h;
         Publisher.closed := false |} ∧
    Publisher.heap w' = Publisher.heap w ∧
    Publisher.trace w' = Publisher.trace w ++ evs ∧
    Obs.conn_closes evs = [] ∧ Publisher.channel_closes evs = [] ∧
    Obs.notified evs = [] ∧ Publisher.sends evs = [] ∧
    Publisher.spawned evs = [] ∧ Obs.dials evs = 1%nat ∧
    Publisher.sleeps evs = [].
Proof.
  intros Hc. unfold Publisher.reconnect_iter. Publisher.run. rewrite Hc.
  Publisher.run. eexists _, _. split; [reflexivity|]. simpl. rewrite Hc.
  rewrite <- ?app_assoc. simpl. by repeat split.
Qed.

Lemma reconnect_from_failed_events script backoff w :
  Publisher.closed (Publisher.pub w) = false →
  forallb Publisher.failed script = true →
  ∃ backoff' w' evs,
    Publisher.reconnect_from backoff script w =
      Done (Publisher.Running backoff', w') ∧
    Publisher.pub w' = Publisher.pub w ∧
    Publisher.heap w' = Publisher.heap w ∧
    Publisher.trace w' = Publisher.trace w ++ evs ∧
    Obs.conn_closes evs = omap Obs.opened_conn script ∧
    Publisher.channel_closes evs = omap Obs.opened_chan script ∧
    Obs.notified evs = [] ∧ Publisher.sends evs = [] ∧
    Publisher.spawned evs = [] ∧ Obs.dials evs = length script.
Proof.
  revert backoff w. induction script as [|a script IH]; intros backoff w Hc Hall.
  - exists backoff, w, []. simpl. rewrite app_nil_r. by repeat split.
  - simpl in Hall. apply andb_prop in Hall as [Ha Hall].
    destruct (reconnect_iter_failed_events a backoff w Hc Ha)
      as (w1 & evs1 & Hrun & Hpub & Hheap & Htr & Hcc & Hch & Hn & Hs & Hg & Hd & _).
    destruct (IH (Z.min (wrap64 (backoff * 2)) Publisher.maxBackoff) w1)
      as (b' & w2 & evs2 & Hrun2 & Hpub2 & Hheap2 & Htr2 & Hcc2 & Hch2 & Hn2 & Hs2 & Hg2 & Hd2);
      [by rewrite Hpub | done |].
    exists b', w2, (evs1 ++ evs2). simpl. unfold mbind, Publisher.M_bind at 1.
    rewrite Hrun. split; [exact Hrun2|].
    split; [congruence|]. split; [congruence|].
    split; [by rewrite Htr2, Htr, app_assoc|].
    unfold Obs.conn_closes, Publisher.channel_closes, Obs.notified,
      Publisher.sends, Publisher.spawned, Obs.dials in *.
    rewrite !omap_app, filter_app, length_app.
    rewrite Hcc, Hcc2, Hch, Hch2, Hn, Hn2, Hs, Hs2, Hg, Hg2, Hd, Hd2.
    repeat split; by destruct (Obs.opened_conn a), (Obs.opened_chan a).
Qed.

Lemma reconnect_from_recovers_events script c h backoff w :
  Publisher.closed (Publisher.pub w) = false →
  forallb Publisher.failed script = true →
  ∃ w' evs,
    Publisher.reconnect_from backoff (script ++ [Publisher.Connected c h]) w =
      Done (Publisher.Returned, w') ∧
    Publisher.pub w' =
      {| Publisher.conn := Some c; Publisher.ch := Some h;
         Publisher.closed := false |} ∧
    Publisher.heap w' = Publisher.heap w ∧
    Publisher.trace w' = Publisher.trace w ++ evs ∧
    Obs.conn_closes evs = omap Obs.opened_conn script ∧
    Publisher.channel_closes evs = omap Obs.opened_chan script ∧
    Obs.notified evs = [] ∧ Publisher.sends evs = [] ∧
    Publisher.spawned evs = [] ∧ Obs.dials evs = S (length script).
Proof.
  intros Hc Hall.
  destruct (reconnect_from_failed_events script backoff w Hc Hall)
    as (b' & w1 & evs1 & Hrun & Hpub & Hheap & Htr & Hcc & Hch & Hn & Hs & Hg & Hd).
  destruct (reconnect_iter_connected_events c h b' w1)
    as (w2 & evs2 & Hrun2 & Hpub2 & Hheap2 & Htr2 & Hcc2 & Hch2 & Hn2 & Hs2 & Hg2 & Hd2 & _);
    [by rewrite Hpub|].
  exists w2, (evs1 ++ evs2).
  rewrite (reconnect_from_app _ _ _ _ _ _ Hrun). simpl.
  unfold mbind, Publisher.M_bind. rewrite Hrun2.
  split; [done|]. split; [done|]. split; [congruence|].
  split; [by rewrite Htr2, Htr, app_assoc|].
  unfold Obs.conn_closes, Publisher.channel_closes, Obs.notified,
    Publisher.sends, Publisher.spawned, Obs.dials in *.
  rewrite !omap_app, filter_app, length_app.
  rewrite Hcc, Hcc2, Hch, Hch2, Hn, Hn2, Hs, Hs2, Hg, Hg2, Hd, Hd2.
  rewrite !app_nil_r. repeat split. lia.
Qed.

Lemma reconnect_iter_lifecycle a backoff w :
  Publisher.closed (Publisher.pub w) = false →
  ∃ r w',
    Publisher.reconnect_iter a backoff w = Done (r, w') ∧
    Obs.lifecycle_of (Publisher.trace w') =
      Obs.lifecycle_of (Publisher.trace w) ++ Obs.attempt_lifecycle a.
Proof.
  intros Hc. unfold Publisher.reconnect_iter, Publisher.sleep_and_double.
  Publisher.run. rewrite Hc.
  destruct a; Publisher.run; eexists _, _; (split; [reflexivity|]); simpl;
    rewrite <- ?app_assoc; unfold Obs.lifecycle_of; by rewrite omap_app.
Qed.

Lemma reconnect_from_failed_lifecycle script backoff w :
  Publisher.closed (Publisher.pub w) = false →
  forallb Publisher.failed script = true →
  ∃ backoff' w',
    Publisher.reconnect_from backoff script w =
      Done (Publisher.Running backoff', w') ∧
    Publisher.pub w' = Publisher.pub w ∧
    Obs.lifecycle_of (Publisher.trace w') =
      Obs.lifecycle_of (Publisher.trace w) ++
      script ≫= Obs.attempt_lifecycle.
Proof.
  revert backoff w. induction script as [|a script IH]; intros backoff w Hc Hall.
  - exists backoff, w. simpl. by rewrite app_nil_r.
  - simpl in Hall. apply andb_prop in Hall as [Ha Hall].
    destruct (reconnect_iter_failed_events a backoff w Hc Ha)
      as (w1 & evs1 & Hrun & Hpub & _).
    destruct (reconnect_iter_lifecycle a backoff w Hc) as (r & w1' & Hrun' & Hl).
    rewrite Hrun in Hrun'. injection Hrun' as <- <-.
    destruct (IH (Z.min (wrap64 (backoff * 2)) Publisher.maxBackoff) w1)
      as (b' & w2 & Hrun2 & Hpub2 & Hl2); [by rewrite Hpub | done |].
    exists b', w2. simpl. unfold mbind, Publisher.M_bind at 1. rewrite Hrun.
    split; [exact Hrun2|]. split; [congruence|].
    rewrite Hl2, Hl, <- app_assoc. done.
Qed.

(** X2. While the Publisher is not closed, a reconnect whose attempts fail
    and then succeed calls the dial function once per attempt, closes every
    connection and every channel that a failed attempt had opened, in order,
    closes nothing else (not the pair it installs, not the pair the Publisher
    held), and leaves the Publisher open with the new pair.  Within a failed
    attempt the calls come in this order: the dial, the close of the channel
    if one was opened, the close of the connection if one was opened, the
    sleep; the next attempt dials only after that. *)
Theorem reconnect_releases_failed_attempts (script : list Publisher.attempt)
    (c : Connection) (h : Channel) (w : Publisher.world) :
  Publisher.closed (Publisher.pub w) = false →
  forallb Publisher.failed script = true →
  ∃ w',
    Publisher.reconnect (script ++ [Publisher.Connected c h]) w =
      Done (Publisher.Returned, w') ∧
    Publisher.pub w' =
      {| Publisher.conn := Some c; Publisher.ch := Some h;
         Publisher.closed := false |} ∧
    Obs.conn_closes (Publisher.trace w') =
      Obs.conn_closes (Publisher.trace w) ++ omap Obs.opened_conn script ∧
    Publisher.channel_closes (Publisher.trace w') =
      Publisher.channel_closes (Publisher.trace w) ++
      omap Obs.opened_chan script ∧
    Obs.dials (Publisher.trace w') =
      (Obs.dials (Publisher.trace w) + length script + 1)%nat ∧
    Obs.lifecycle_of (Publisher.trace w') =
      Obs.lifecycle_of (Publisher.trace w) ++
      (script ++ [Publisher.Connected c h]) ≫= Obs.attempt_lifecycle.
Proof.
  intros Hc Hall.
  destruct (reconnect_from_recovers_events script c h Second w Hc Hall)
    as (w' & evs & Hrun & Hpub & _ & Htr & Hcc & Hch & _ & _ & _ & Hd).
  exists w'. split; [exact Hrun|]. split; [exact Hpub|].
  split_and!.
  - unfold Obs.conn_closes in *. by rewrite Htr, omap_app, Hcc.
  - unfold Publisher.channel_closes in *. by rewrite Htr, omap_app, Hch.
  - unfold Obs.dials in *. rewrite Htr, omap_app, length_app, Hd. lia.
  - destruct (reconnect_from_failed_lifecycle script Second w Hc Hall)
      as (b1 & w1 & Hrun1 & Hpub1 & Hl1).
    destruct (reconnect_iter_lifecycle (Publisher.Connected c h) b1 w1)
      as (r & w2 & Hrun2 & Hl2); [by rewrite Hpub1|].
    assert (Hlast : Publisher.reconnect_iter (Publisher.Connected c h) b1 w1 =
                    Done (Publisher.Return, w')).
    { destruct (reconnect_iter_connected_events c h b1 w1)
        as (w3 & evs3 & Hrun3 & _); [by rewrite Hpub1|].
      unfold Publisher.reconnect in Hrun.
      rewrite (reconnect_from_app _ _ _ _ _ _ Hrun1) in Hrun. simpl in Hrun.
      unfold mbind, Publisher.M_bind in Hrun. rewrite Hrun3 in Hrun.
      injection Hrun as <-. exact Hrun3. }
    rewrite Hlast in Hrun2. injection Hrun2 as <- <-.
    rewrite Hl2, Hl1, bind_app, <- app_assoc. done.
Qed.

Lemma reconnect_releases_failed_attempts_witness :
  let w := {| Publisher.pub :=
                {| Publisher.conn := Some (ConnId 0);
                   Publisher.ch := Some (ChanId 0);
                   Publisher.closed := false |};
              Publisher.heap := ∅;
              Publisher.trace := [] |} in
  let script := [Publisher.DialFails (ErrLib 1);
                 Publisher.ChannelFails (ConnId 1) (ErrLib 2);
                 Publisher.QosFails (ConnId 2) (ChanId 2) (ErrLib 3)] in
  ∃ w',
    Publisher.reconnect (script ++ [Publisher.Connected (ConnId 3) (ChanId 3)]) w =
      Done (Publisher.Returned, w') ∧
    Obs.conn_closes (Publisher.trace w') = [ConnId 1; ConnId 2] ∧
    Publisher.channel_closes (Publisher.trace w') = [ChanId 2] ∧
    Obs.dials (Publisher.trace w') = 4%nat ∧
    Obs.lifecycle_of (Publisher.trace w') =
      [Obs.Dialed; Obs.Slept;
       Obs.Dialed; Obs.ConnClosed (ConnId 1); Obs.Slept;
       Obs.Dialed; Obs.ChannelClosed (ChanId 2); Obs.ConnClosed (ConnId 2);
       Obs.Slept;
       Obs.Dialed].
Proof.
  intros w script.
  destruct (reconnect_releases_failed_attempts script (ConnId 3) (ChanId 3) w
              eq_refl eq_refl) as (w' & Hrun & _ & Hcc & Hch & Hd & Hl).
  exists w'. split; [exact Hrun|]. by rewrite Hcc, Hch, Hd, Hl.
Defined.

Lemma run_criticals_conn p ss :
  is_Some (Publisher.conn p) → is_Some (Publisher.conn (Publisher.run_criticals p ss)).
Proof.
  revert p. induction ss as [|s ss IH]; intros p Hp; [done|].
  simpl. apply IH. destruct s; simpl; eauto.
Qed.

Lemma run_closes_extends closes w :
  ∃ w' evs, Publisher.run_closes closes w = Done (tt, w') ∧
            Publisher.heap w' = Publisher.heap w ∧
            Publisher.trace w' = Publisher.trace w ++ evs.
Proof.
  revert w. induction closes as [|res closes IH]; intros w.
  - exists w, []. by rewrite app_nil_r.
  - simpl. unfold mbind, Publisher.M_bind. rewrite Close_run.
    match goal with |- context [Publisher.run_closes closes ?w1] =>
      destruct (IH w1) as (w' & evs & -> & Hh & Htr) end.
    eexists w', _. split; [done|]. split; [done|].
    rewrite Htr. simpl. by rewrite <- app_assoc.
Qed.

Lemma reconnect_iter_extends a backoff w :
  ∃ ctl w' evs, Publisher.reconnect_iter a backoff w = Done (ctl, w') ∧
                Publisher.heap w' = Publisher.heap w ∧
                Publisher.trace w' = Publisher.trace w ++ evs.
Proof.
  destruct (Publisher.closed (Publisher.pub w)) eqn:Hc.
  - rewrite reconnect_iter_closed by done. exists Publisher.Return, w, [].
    by rewrite app_nil_r.
  - destruct (Publisher.failed a) eqn:Ha.
    + destruct (reconnect_iter_failed_events a backoff w Hc Ha)
        as (w' & evs & -> & _ & Hh & Htr & _). by eexists _, w', evs.
    + destruct a; try done.
      destruct (reconnect_iter_connected_events c h backoff w Hc)
        as (w' & evs & -> & _ & Hh & Htr & _). by eexists _, w', evs.
Qed.

Lemma reconnect_from_extends script backoff w :
  ∃ r w' evs, Publisher.reconnect_from backoff script w = Done (r, w') ∧
              Publisher.heap w' = Publisher.heap w ∧
              Publisher.trace w' = Publisher.trace w ++ evs.
Proof.
  revert backoff w. induction script as [|a script IH]; intros backoff w.
  - exists (Publisher.Running backoff), w, []. by rewrite app_nil_r.
  - simpl. unfold mbind, Publisher.M_bind at 1.
    destruct (reconnect_iter_extends a backoff w) as (ctl & w1 & evs1 & -> & Hh1 & Htr1).
    destruct ctl as [backoff'|].
    + destruct (IH backoff' w1) as (r & w2 & evs2 & -> & Hh2 & Htr2).
      exists r, w2, (evs1 ++ evs2). split; [done|]. split; [congruence|].
      by rewrite Htr2, Htr1, app_assoc.
    + by exists Publisher.Returned, w1, evs1.
Qed.

Lemma watch_iter_notifies closes amqpErr script w c :
  Publisher.closed (Publisher.pub w) = false →
  Publisher.conn (Publisher.pub w) = Some c →
  ∃ ctl w' evs,
    Publisher.watch_iter closes amqpErr script w = Done (ctl, w') ∧
    Publisher.trace w' = Publisher.trace w ++ EvNotifyClose c :: evs.
Proof.
  intros Hc Hconn. unfold Publisher.watch_iter. Publisher.run.
  rewrite Hc, Hconn. Publisher.run.
  match goal with |- context [Publisher.run_closes closes ?w1] =>
    destruct (run_closes_extends closes w1) as (w2 & evs2 & -> & _ & Htr2) end.
  simpl in Htr2.
  destruct (Publisher.closed (Publisher.pub w2)).
  { eexists _, w2, evs2. split; [done|]. by rewrite Htr2, <- app_assoc. }
  Publisher.run. unfold Publisher.reconnect.
  match goal with |- context [Publisher.reconnect_from Second script ?w3] =>
    destruct (reconnect_from_extends script Second w3)
      as (r & w4 & evs4 & -> & _ & Htr4) end.
  simpl in Htr4. rewrite Htr2 in Htr4.
  destruct r; eexists _, w4, _; (split; [done|]);
    rewrite Htr4, <- !app_assoc; simpl; reflexivity.
Qed.

(** X3. A Publisher that NewPublisher returned holds the connection it was
    given, and through every step of its goroutines its connection field
    stays non-nil.  So a round of the watcher on an open Publisher never
    takes the one-second polling branch: it returns a result and its first
    call asks the current connection for its close notification. *)
Theorem NewPublisher_conn_forever (any : Type)
    (Marshal : any → list Byte.byte + error) (conn : option Connection)
    (channel_res : Channel + error) (qos_res : option error)
    (p : Publisher.Publisher) (evs : list event) (w0 w : Publisher.world) :
  Publisher.NewPublisher conn channel_res qos_res = Done (inl p, evs) →
  Publisher.pub w0 = p →
  rtc (Publisher.step any Marshal) w0 w →
  Publisher.conn p = conn ∧
  ∃ c, Publisher.conn (Publisher.pub w) = Some c ∧
       ∀ closes amqpErr script,
         Publisher.closed (Publisher.pub w) = false →
         ∃ ctl w' evs',
           Publisher.watch_iter closes amqpErr script w = Done (ctl, w') ∧
           Publisher.trace w' = Publisher.trace w ++ EvNotifyClose c :: evs'.
Proof.
  intros Hnew Hp0 Hsteps.
  assert (Hp : Publisher.conn p = conn ∧ is_Some (Publisher.conn p)).
  { unfold Publisher.NewPublisher in Hnew.
    destruct conn as [c|]; [|done]. destruct channel_res as [h|]; [|done].
    destruct qos_res; [done|]. injection Hnew as <- _. split; [done|by eexists]. }
  destruct Hp as [Hconn Hp]. split; [done|].
  apply (steps_criticals any Marshal) in Hsteps as [ss Hss].
  destruct (run_criticals_conn p ss Hp) as [c Hc].
  exists c. split; [by rewrite Hss, Hp0|].
  intros closes amqpErr script Hopen.
  apply watch_iter_notifies; [done|]. by rewrite Hss, Hp0.
Qed.

Lemma NewPublisher_conn_forever_witness :
  let Marshal := λ _ : unit, inl [] : list Byte.byte + error in
  let p := {| Publisher.conn := Some (ConnId 0);
              Publisher.ch := Some (ChanId 1);
              Publisher.closed := false |} in
  let w0 := {| Publisher.pub := p; Publisher.heap := ∅; Publisher.trace := [] |} in
  let w1 := {| Publisher.pub :=
                 {| Publisher.conn := Some (ConnId 5);
                    Publisher.ch := Some (ChanId 6);
                    Publisher.closed := false |};
               Publisher.heap := ∅;
               Publisher.trace := [] |} in
  ∃ c, Publisher.conn (Publisher.pub w1) = Some c ∧ c = ConnId 5.
Proof.
  intros Marshal p w0 w1.
  destruct (NewPublisher_conn_forever unit Marshal (Some (ConnId 0))
              (inl (ChanId 1)) None p _ w0 w1 eq_refl eq_refl) as (_ & c & Hc & _).
  { apply rtc_once.
    exact (Publisher.step_critical unit Marshal
             (Publisher.SecSwap (ConnId 5) (ChanId 6)) w0 w1 eq_refl). }
  exists c. split; [exact Hc|]. simpl in Hc. by injection Hc.
Defined.

Lemma watch_iter_recovers r cp w c0 :
  Publisher.closed (Publisher.pub w) = false →
  Publisher.conn (Publisher.pub w) = Some c0 →
  Obs.recovers r cp →
  ∃ w' evs,
    Publisher.watch_iter (Publisher.round_closes r) (Publisher.round_amqpErr r)
      (Publisher.round_script r) w = Done (Publisher.WContinue, w') ∧
    Publisher.pub w' =
      {| Publisher.conn := Some cp.1; Publisher.ch := Some cp.2;
         Publisher.closed := false |} ∧
    Publisher.trace w' = Publisher.trace w ++ evs ∧
    Obs.notified evs = [c0] ∧
    Publisher.sends evs = [] ∧ Publisher.spawned evs = [].
Proof.
  intros Hc Hconn (Hcl & fails & Hfails & Hscript).
  unfold Publisher.watch_iter. Publisher.run. rewrite Hc, Hconn, Hcl, Hscript.
  Publisher.run. rewrite Hc. Publisher.run. unfold Publisher.reconnect.
  match goal with |- context [Publisher.reconnect_from Second _ ?w3] =>
    destruct (reconnect_from_recovers_events fails cp.1 cp.2 Second w3)
      as (w4 & evs4 & -> & Hpub & _ & Htr & _ & _ & Hn & Hs & Hg & _); [done..|] end.
  simpl in Htr.
  exists w4, ([EvNotifyClose c0;
               EvLog Warn match Publisher.round_amqpErr r with
                          | Some _ => "RabbitMQ connection closed"
                          | None => "RabbitMQ connection closed gracefully"
                          end] ++ evs4).
  split; [done|]. split; [done|].
  split; [by rewrite Htr, <- !app_assoc|].
  unfold Obs.notified, Publisher.sends, Publisher.spawned in *.
  rewrite !omap_app, filter_app, Hn, Hs, Hg. by repeat split.
Qed.

(** X4. Through any number of rounds in which nobody closes the Publisher
    and the reconnect ends by installing a pair, the watcher keeps watching:
    it asks for the close notification first of the connection the
    Publisher held and then, round after round, of the connection the round
    before installed; it ends holding the last pair, has sent nothing and has
    started no goroutine. *)
Theorem watchConnection_follows_reconnects
    (rounds : list Publisher.watch_round) (pairs : list (Connection * Channel))
    (w : Publisher.world) (c0 : Connection) :
  Publisher.closed (Publisher.pub w) = false →
  Publisher.conn (Publisher.pub w) = Some c0 →
  Forall2 Obs.recovers rounds pairs →
  ∃ w',
    Publisher.watchConnection rounds w = Done (Publisher.WWatching, w') ∧
    Obs.notified (Publisher.trace w') =
      Obs.notified (Publisher.trace w) ++ take (length rounds) (c0 :: pairs.*1) ∧
    Publisher.pub w' =
      match last pairs with
      | Some cp =>
          {| Publisher.conn := Some cp.1; Publisher.ch := Some cp.2;
             Publisher.closed := false |}
      | None => Publisher.pub w
      end ∧
    Publisher.sends (Publisher.trace w') = Publisher.sends (Publisher.trace w) ∧
    Publisher.spawned (Publisher.trace w') = Publisher.spawned (Publisher.trace w).
Proof.
  intros Hc Hconn Hall. revert w c0 Hc Hconn.
  induction Hall as [|r cp rounds pairs Hr _ IH]; intros w c0 Hc Hconn.
  - exists w. simpl. by rewrite app_nil_r.
  - destruct (watch_iter_recovers r cp w c0 Hc Hconn Hr)
      as (w1 & evs & Hrun & Hpub & Htr & Hn & Hs & Hg).
    destruct (IH w1 cp.1) as (w' & Hrun' & Hn' & Hpub' & Hs' & Hg');
      [by rewrite Hpub..|].
    exists w'. simpl. unfold mbind, Publisher.M_bind at 1. rewrite Hrun.
    split; [exact Hrun'|].
    unfold Obs.notified, Publisher.sends, Publisher.spawned in *.
    rewrite Hn', Hs', Hg', Htr, !omap_app, filter_app, Hn, Hs, Hg, !app_nil_r.
    split; [by rewrite <- app_assoc|]. split; [|done].
    rewrite Hpub', last_cons. by destruct (last pairs).
Qed.

Lemma watchConnection_follows_reconnects_witness :
  let w := {| Publisher.pub :=
                {| Publisher.conn := Some (ConnId 0);
                   Publisher.ch := Some (ChanId 0);
                   Publisher.closed := false |};
              Publisher.heap := ∅;
              Publisher.trace := [] |} in
  let round c h fails :=
    {| Publisher.round_closes := [];
       Publisher.round_amqpErr := Some (ErrLib 320);
       Publisher.round_script := fails ++ [Publisher.Connected c h] |} in
  ∃ w',
    Publisher.watchConnection
      [round (ConnId 1) (ChanId 1) [Publisher.DialFails (ErrLib 1)];
       round (ConnId 2) (ChanId 2) []] w = Done (Publisher.WWatching, w') ∧
    Obs.notified (Publisher.trace w') = [ConnId 0; ConnId 1] ∧
    Publisher.getChannel (Publisher.pub w') = inl (ChanId 2).
Proof.
  intros w round.
  destruct (watchConnection_follows_reconnects
              [round (ConnId 1) (ChanId 1) [Publisher.DialFails (ErrLib 1)];
               round (ConnId 2) (ChanId 2) []]
              [(ConnId 1, ChanId 1); (ConnId 2, ChanId 2)] w (ConnId 0)
              eq_refl eq_refl) as (w' & Hrun & Hn & Hpub & _).
  { repeat constructor.
    - by exists [Publisher.DialFails (ErrLib 1)].
    - by exists []. }
  exists w'. split; [exact Hrun|]. by rewrite Hn, Hpub.
Defined.

(** X1. On a connection, NewPublisher ends in one of three ways: the channel
    call fails and its error is returned; the QoS call (0, 0, false) fails
    and its error is returned; or both succeed and the Publisher holds the
    connection and the channel, open.  The watcher is started in the last
    case and in no other, and NewPublisher closes nothing: a channel opened
    before a failing QoS call stays open. *)
Theorem NewPublisher_outcomes (c : Connection) (channel_res : Channel + error)
    (qos_res : option error) :
  ∃ r evs,
    Publisher.NewPublisher (Some c) channel_res qos_res = Done (r, evs) ∧
    match channel_res, qos_res with
    | inl h, None =>
        r = inl {| Publisher.conn := Some c; Publisher.ch := Some h;
                   Publisher.closed := false |} ∧
        evs = [EvChannel c; EvQos h 0 0 false; EvGo "watchConnection"]
    | inl h, Some err =>
        r = inr err ∧ evs = [EvChannel c; EvQos h 0 0 false]
    | inr err, _ => r = inr err ∧ evs = [EvChannel c]
    end ∧
    ((∃ p, r = inl p) ↔ Publisher.spawned evs = ["watchConnection"]) ∧
    ((∃ err, r = inr err) ↔ Publisher.spawned evs = []) ∧
    Publisher.channel_closes evs = [] ∧ Obs.conn_closes evs = [].
Proof.
  unfold Publisher.NewPublisher.
  destruct channel_res as [h|e1]; [destruct qos_res as [e2|]|];
    eexists _, _; (split; [reflexivity|]); (split; [done|]); simpl;
    repeat split; try done; try (intros [? ?]; done); by eexists.
Qed.

Section publish_around_reconnect.
Variable any : Type.
Variable Marshal : any → list Byte.byte + error.

(** X5. While the attempts of a reconnect fail, the Publisher still holds
    the channel it had: getChannel gives it and a PublishJSON with a body
    that serializes sends on it and returns what the send returns. *)
Theorem PublishJSON_during_reconnect (env : Publisher.publish_env)
    (exchangeName routingKey : string) (body : any) (b : list Byte.byte)
    (script : list Publisher.attempt) (c0 : Channel) (w : Publisher.world) :
  Marshal body = inl b →
  Publisher.closed (Publisher.pub w) = false →
  Publisher.ch (Publisher.pub w) = Some c0 →
  forallb Publisher.failed script = true →
  ∃ backoff w1 w2 msg,
    Publisher.reconnect script w = Done (Publisher.Running backoff, w1) ∧
    Publisher.pub w1 = Publisher.pub w ∧
    Publisher.getChannel (Publisher.pub w1) = inl c0 ∧
    Publisher.PublishJSON any Marshal env exchangeName routingKey body w1 =
      Done (Publisher.send_res env, w2) ∧
    Publisher.sends (Publisher.trace w2) =
      Publisher.sends (Publisher.trace w) ++
      [EvPublish c0 exchangeName routingKey false false msg] ∧
    Body msg = b.
Proof.
  intros Hb Hc Hch Hall.
  destruct (reconnect_from_failed_events script Second w Hc Hall)
    as (b' & w1 & evs & Hrun & Hpub & _ & Htr & _ & _ & _ & Hs & _).
  assert (Hget : Publisher.getChannel (Publisher.pub w1) = inl c0).
  { unfold Publisher.getChannel. by rewrite Hpub, Hc, Hch. }
  eexists b', w1, _, _. split; [exact Hrun|]. split; [exact Hpub|].
  split; [exact Hget|].
  split; [by apply (PublishJSON_channel any Marshal env _ _ body b w1 c0)|].
  simpl. split.
  - unfold Publisher.sends in *. rewrite Htr, !filter_app, Hs, app_nil_r.
    by destruct (Publisher.send_res env).
  - reflexivity.
Qed.

(** X6. After a reconnect that succeeded, a PublishJSON with a body that
    serializes sends on the channel the reconnect opened. *)
Theorem PublishJSON_after_reconnect (env : Publisher.publish_env)
    (exchangeName routingKey : string) (body : any) (b : list Byte.byte)
    (script : list Publisher.attempt) (c : Connection) (h : Channel)
    (w : Publisher.world) :
  Marshal body = inl b →
  Publisher.closed (Publisher.pub w) = false →
  forallb Publisher.failed script = true →
  ∃ w1 w2 msg,
    Publisher.reconnect (script ++ [Publisher.Connected c h]) w =
      Done (Publisher.Returned, w1) ∧
    Publisher.PublishJSON any Marshal env exchangeName routingKey body w1 =
      Done (Publisher.send_res env, w2) ∧
    Publisher.sends (Publisher.trace w2) =
      Publisher.sends (Publisher.trace w) ++
      [EvPublish h exchangeName routingKey false false msg] ∧
    Body msg = b.
Proof.
  intros Hb Hc Hall.
  destruct (reconnect_from_recovers_events script c h Second w Hc Hall)
    as (w1 & evs & Hrun & Hpub & _ & Htr & _ & _ & _ & Hs & _).
  assert (Hget : Publisher.getChannel (Publisher.pub w1) = inl h)
    by by rewrite Hpub.
  eexists w1, _, _. split; [exact Hrun|].
  split; [by apply (PublishJSON_channel any Marshal env _ _ body b w1 h)|].
  simpl. split.
  - unfold Publisher.sends in *. rewrite Htr, !filter_app, Hs, app_nil_r.
    by destruct (Publisher.send_res env).
  - reflexivity.
Qed.

(** X7. A call of PublishJSON on a Publisher whose configuration is not
    nil returns without a panic, only adds to the trace, and leaves the
    Publisher and the header tables that existed as they were.  It starts a
    span exactly when the body serializes and then ends it as its last
    action, on every path; it sends at most once, and when it returns nil it
    has sent exactly once.  On a Publisher whose configuration is nil the
    call returns the encoder's error, with nothing done, when the body does
    not serialize, and otherwise panics on reading the configuration: no
    span is started, no table made and nothing sent. *)
Theorem PublishJSON_contained (env : Publisher.publish_env)
    (exchangeName routingKey : string) (body : any) (w : Publisher.world) :
  (∀ cfg, ∃ r w' evs,
    Publisher.PublishJSON_cfg any Marshal (Some cfg) env exchangeName
      routingKey body w = Done (r, w') ∧
    Publisher.PublishJSON any Marshal env exchangeName routingKey body w =
      Done (r, w') ∧
    Publisher.trace w' = Publisher.trace w ++ evs ∧
    Publisher.pub w' = Publisher.pub w ∧
    (∀ l, l ∈ dom (Publisher.heap w) →
          Publisher.heap w' !! l = Publisher.heap w !! l) ∧
    Obs.span_starts evs =
      match Marshal body with
      | inl _ => ["rabbitmq.publish"]
      | inr _ => []
      end ∧
    Obs.span_ends evs = length (Obs.span_starts evs) ∧
    (evs = [] ∨ last evs = Some EvSpanEnd) ∧
    (length (Publisher.sends evs) ≤ 1)%nat ∧
    (r = None → length (Publisher.sends evs) = 1%nat)) ∧
  Publisher.PublishJSON_cfg any Marshal None env exchangeName routingKey
    body w =
    match Marshal body with
    | inl _ =>
        Panic "runtime error: invalid memory address or nil pointer dereference"
    | inr err => Done (Some err, w)
    end.
Proof.
  assert (Hframe : ∀ (t : gmap string value) l,
            l ∈ dom (Publisher.heap w) →
            <[fresh (dom (Publisher.heap w)) := t]> (Publisher.heap w) !! l =
            Publisher.heap w !! l).
  { intros t l Hl. apply lookup_insert_ne. intros <-.
    by apply (is_fresh (dom (Publisher.heap w))). }
  split; [|unfold Publisher.PublishJSON_cfg; by destruct (Marshal body)].
  intros cfg.
  assert (Publisher.PublishJSON_cfg any Marshal (Some cfg) env exchangeName
            routingKey body w =
          Publisher.PublishJSON any Marshal env exchangeName routingKey body w)
    as ->.
  { unfold Publisher.PublishJSON_cfg, Publisher.PublishJSON.
    by destruct (Marshal body). }
  destruct (Marshal body) as [b|err] eqn:Hb.
  - destruct (Publisher.getChannel (Publisher.pub w)) as [c|e] eqn:Hg.
    + rewrite (PublishJSON_channel any Marshal env _ _ body b w c) by done.
      eexists _, _, _. split; [reflexivity|]. split; [reflexivity|]. simpl.
      split; [reflexivity|]. split; [done|]. split; [apply Hframe|].
      destruct (Publisher.send_res env); simpl; repeat split; eauto; done.
    + rewrite (PublishJSON_no_channel any Marshal env _ _ body b w e) by done.
      eexists _, _, _. split; [reflexivity|]. split; [reflexivity|]. simpl.
      split; [reflexivity|]. split; [done|]. split; [apply Hframe|].
      repeat split; eauto; done.
  - unfold Publisher.PublishJSON. rewrite Hb. exists (Some err), w, [].
    rewrite app_nil_r. repeat split; eauto; done.
Qed.

End publish_around_reconnect.

Section publish_around_reconnect_runs.

Lemma PublishJSON_during_reconnect_witness :
  let Marshal := λ n : nat, inl (repeat Byte.x7b n) : list Byte.byte + error in
  let env := {| Publisher.span_fields := [("traceparent", "00-ab-cd-01")];
                Publisher.now := 1700000000;
                Publisher.send_res := Some (ErrLib 504) |} in
  let w := {| Publisher.pub :=
                {| Publisher.conn := Some (ConnId 0);
                   Publisher.ch := Some (ChanId 4);
                   Publisher.closed := false |};
              Publisher.heap := ∅;
              Publisher.trace := [] |} in
  ∃ backoff w1 w2 msg,
    Publisher.reconnect
      [Publisher.DialFails (ErrLib 1); Publisher.DialFails (ErrLib 1)] w =
      Done (Publisher.Running backoff, w1) ∧
    Publisher.PublishJSON nat Marshal env "orders" "created" 2%nat w1 =
      Done (Some (ErrLib 504), w2) ∧
    Publisher.sends (Publisher.trace w2) =
      [EvPublish (ChanId 4) "orders" "created" false false msg].
Proof.
  intros Marshal env w.
  destruct (PublishJSON_during_reconnect nat Marshal env "orders" "created"
              2%nat [Byte.x7b; Byte.x7b]
              [Publisher.DialFails (ErrLib 1); Publisher.DialFails (ErrLib 1)]
              (ChanId 4) w eq_refl eq_refl eq_refl eq_refl)
    as (backoff & w1 & w2 & msg & Hrun & _ & _ & Hpub & Hs & _).
  exists backoff, w1, w2, msg. split; [exact Hrun|]. split; [exact Hpub|].
  exact Hs.
Defined.

Lemma PublishJSON_after_reconnect_witness :
  let Marshal := λ n : nat, inl (repeat Byte.x7b n) : list Byte.byte + error in
  let env := {| Publisher.span_fields := [("traceparent", "00-ab-cd-01")];
                Publisher.now := 1700000000;
                Publisher.send_res := None |} in
  let w := {| Publisher.pub :=
                {| Publisher.conn := Some (ConnId 0);
                   Publisher.ch := Some (ChanId 4);
                   Publisher.closed := false |};
              Publisher.heap := ∅;
              Publisher.trace := [] |} in
  ∃ w1 w2 msg,
    Publisher.reconnect
      [Publisher.DialFails (ErrLib 1); Publisher.Connected (ConnId 1) (ChanId 5)] w =
      Done (Publisher.Returned, w1) ∧
    Publisher.PublishJSON nat Marshal env "orders" "created" 2%nat w1 =
      Done (None, w2) ∧
    Publisher.sends (Publisher.trace w2) =
      [EvPublish (ChanId 5) "orders" "created" false false msg].
Proof.
  intros Marshal env w.
  destruct (PublishJSON_after_reconnect nat Marshal env "orders" "created"
              2%nat [Byte.x7b; Byte.x7b] [Publisher.DialFails (ErrLib 1)]
              (ConnId 1) (ChanId 5) w eq_refl eq_refl eq_refl)
    as (w1 & w2 & msg & Hrun & Hpub & Hs & _).
  exists w1, w2, msg. split; [exact Hrun|]. split; [exact Hpub|]. exact Hs.
Defined.

End publish_around_reconnect_runs.

(** * Further properties of the Consumer *)
Section consumer_more.
Variable hstate : Type.
Variable handler : hstate → list Byte.byte → option error * hstate.

Lemma span_ends_app tr1 tr2 :
  Obs.span_ends (tr1 ++ tr2) = (Obs.span_ends tr1 + Obs.span_ends tr2)%nat.
Proof. unfold Obs.span_ends. by rewrite omap_app, length_app. Qed.

Lemma span_ends_replicate n : Obs.span_ends (replicate n EvSpanEnd) = n.
Proof.
  induction n as [|n IH]; [done|].
  change (replicate (S n) EvSpanEnd) with ([EvSpanEnd] ++ replicate n EvSpanEnd).
  by rewrite span_ends_app, IH.
Qed.

Lemma deliver_spans c st m :
  Obs.span_ends (Consumer.deliver hstate handler c st m).2 = 0%nat ∧
  Obs.span_starts (Consumer.deliver hstate handler c st m).2 = ["rabbitmq.consume"] ∧
  Obs.extracted (Consumer.deliver hstate handler c st m).2 =
    option_list (Consumer.Headers m).
Proof.
  unfold Consumer.deliver.
  destruct (handler st (Consumer.Body m)) as [[e|] st'], (Consumer.Headers m); done.
Qed.

Lemma Handle_loop_spans c st deferred sched :
  ∃ body,
    (Consumer.Handle_loop hstate handler c st deferred sched).2 =
      body ++
      match Consumer.first_stop sched with
      | Some _ =>
          replicate (deferred + length (Consumer.received sched)) EvSpanEnd
      | None => []
      end ∧
    Obs.span_ends body = 0%nat ∧
    Obs.span_starts body =
      replicate (length (Consumer.received sched)) "rabbitmq.consume" ∧
    Obs.extracted body = omap Consumer.Headers (Consumer.received sched).
Proof.
  revert st deferred. induction sched as [|s sched IH]; intros st deferred.
  - by exists [].
  - destruct s as [err|m|]; simpl.
    + exists []. by rewrite Nat.add_0_r.
    + destruct (IH (Consumer.deliver hstate handler c st m).1 (S deferred))
        as (body & -> & He & Hs & Hx).
      destruct (deliver_spans c st m) as (He1 & Hs1 & Hx1).
      exists ((Consumer.deliver hstate handler c st m).2 ++ body).
      split; [|split; [|split]].
      * rewrite <- app_assoc. do 2 f_equal.
        destruct (Consumer.first_stop sched); [|done]. f_equal. lia.
      * by rewrite span_ends_app, He, He1.
      * unfold Obs.span_starts in *. by rewrite omap_app, Hs, Hs1.
      * unfold Obs.extracted in *. rewrite omap_app, Hx, Hx1.
        by destruct (Consumer.Headers m).
    + exists []. by rewrite Nat.add_0_r.
Qed.

End consumer_more.

Lemma first_stop_not_delivery sched s :
  Consumer.first_stop sched = Some s → ∀ m, s ≠ Consumer.Received m.
Proof.
  induction sched as [|s0 sched IH]; [done|].
  destruct s0; simpl; [by intros [= <-]|exact IH|by intros [= <-]].
Qed.

Lemma Handle_loop_after_stop (hstate : Type)
    (handler : hstate → list Byte.byte → option error * hstate)
    c st deferred sched rest s :
  Consumer.first_stop sched = Some s →
  Consumer.Handle_loop hstate handler c st deferred (sched ++ rest) =
  Consumer.Handle_loop hstate handler c st deferred sched.
Proof.
  revert st deferred. induction sched as [|s0 sched IH]; intros st deferred; [done|].
  destruct s0 as [err|m|]; simpl; [done| |done].
  intros Hstop. by rewrite IH.
Qed.

Lemma span_starts_replicate n : Obs.span_starts (replicate n EvSpanEnd) = [].
Proof. induction n as [|n IH]; [done|]. exact IH. Qed.

(** X8. Handle starts one consume span per delivery it receives and ends
    none of them while it is in its loop: the span ends are deferred to the
    return of Handle, where as many run, after everything else, as
    deliveries were received. *)
Theorem Handle_spans_end_at_return (hstate : Type)
    (handler : hstate → list Byte.byte → option error * hstate)
    (c : Consumer.Consumer) (st : hstate) (sched : list Consumer.selected) :
  let run := Consumer.Handle hstate handler c None st sched in
  let n := length (Consumer.received sched) in
  Obs.span_starts run.2 = replicate n "rabbitmq.consume" ∧
  (run.1 = Consumer.HSelecting → Obs.span_ends run.2 = 0%nat) ∧
  (∀ err, run.1 = Consumer.HReturned err →
     ∃ body, run.2 = body ++ replicate n EvSpanEnd ∧
             Obs.span_ends body = 0%nat ∧ Obs.span_ends run.2 = n).
Proof.
  intros run n.
  destruct (Handle_loop_spans hstate handler c st 0 sched)
    as (body & Htr & He & Hs & _).
  assert (Hend := Handle_loop_end hstate handler c st 0 sched).
  unfold run, Consumer.Handle. simpl. rewrite Htr, Hend.
  destruct (Consumer.first_stop sched) as [s|] eqn:Hstop.
  - pose proof (first_stop_not_delivery sched s Hstop) as Hs'.
    split; [|split].
    + change (?e :: ?l ++ ?r) with (([e] ++ l) ++ r).
      unfold Obs.span_starts in *. rewrite !omap_app, Hs.
      fold (Obs.span_starts (replicate (0 + n) EvSpanEnd)).
      by rewrite span_starts_replicate, app_nil_r.
    + destruct s as [e|m|]; [done|by destruct (Hs' m)|done].
    + intros err _. exists (EvConsume (Consumer.ch c)
                              (Consumer.Name (Consumer.q c)) "" false false false false
                            :: body).
      split; [done|]. split; [exact He|].
      change (?e :: ?l ++ ?r) with (([e] ++ l) ++ r).
      rewrite !span_ends_app, He, span_ends_replicate. done.
  - rewrite app_nil_r. split; [exact Hs|]. split; [by intros _|done].
Qed.

Lemma extracted_app tr1 tr2 :
  Obs.extracted (tr1 ++ tr2) = Obs.extracted tr1 ++ Obs.extracted tr2.
Proof. apply omap_app. Qed.

Lemma extracted_replicate n : Obs.extracted (replicate n EvSpanEnd) = [].
Proof. induction n as [|n IH]; [done|exact IH]. Qed.

(** X9. Handle extracts trace context from the header tables of the
    deliveries it receives that carry one, in order, and from nothing else:
    a delivery with nil headers is handled without an extraction. *)
Theorem Handle_extracts_present_headers (hstate : Type)
    (handler : hstate → list Byte.byte → option error * hstate)
    (c : Consumer.Consumer) (st : hstate) (sched : list Consumer.selected) :
  let tr := (Consumer.Handle hstate handler c None st sched).2 in
  Obs.extracted tr = omap Consumer.Headers (Consumer.received sched) ∧
  length (Obs.extracted tr) =
    length (filter (λ m, is_Some (Consumer.Headers m)) (Consumer.received sched)) ∧
  (∀ l, l ∈ Obs.extracted tr →
        ∃ m, m ∈ Consumer.received sched ∧ Consumer.Headers m = Some l).
Proof.
  intros tr.
  destruct (Handle_loop_spans hstate handler c st 0 sched)
    as (body & Htr & _ & _ & Hx).
  assert (Hext : Obs.extracted tr = omap Consumer.Headers (Consumer.received sched)).
  { unfold tr, Consumer.Handle. simpl. rewrite Htr.
    change (?e :: ?l ++ ?r) with (([e] ++ l) ++ r).
    rewrite !extracted_app, Hx. simpl.
    destruct (Consumer.first_stop sched); [|by rewrite app_nil_r].
    by rewrite extracted_replicate, app_nil_r. }
  split; [exact Hext|]. rewrite Hext. split.
  - generalize (Consumer.received sched). clear. intros ms.
    induction ms as [|m ms IH]; [done|].
    change (m :: ms) with ([m] ++ ms).
    rewrite omap_app, filter_app, !length_app, IH. f_equal.
    rewrite filter_cons, filter_nil. simpl.
    destruct (Consumer.Headers m); case_decide as Hd; simpl;
      first [done | exfalso; apply Hd; by eexists
            | exfalso; by destruct Hd as [? ?]].
  - intros l (m & Hin & Hm)%list_elem_of_omap. by exists m.
Qed.

(** X10. Once a schedule holds an entry that ends Handle, what follows it
    plays no part: the result, the trace, the acknowledgments and the handler
    calls are those of the schedule up to there.  (Deliveries still queued at
    a cancellation are neither handled nor acknowledged.) *)
Theorem Handle_ignores_after_stop (hstate : Type)
    (handler : hstate → list Byte.byte → option error * hstate)
    (c : Consumer.Consumer) (consume_res : option error) (st : hstate)
    (sched rest : list Consumer.selected) (s : Consumer.selected) :
  Consumer.first_stop sched = Some s →
  Consumer.Handle hstate handler c consume_res st (sched ++ rest) =
    Consumer.Handle hstate handler c consume_res st sched ∧
  Consumer.acks (Consumer.Handle hstate handler c consume_res st (sched ++ rest)).2 =
    Consumer.acks (Consumer.Handle hstate handler c consume_res st sched).2 ∧
  Consumer.handled (Consumer.Handle hstate handler c consume_res st (sched ++ rest)).2 =
    Consumer.handled (Consumer.Handle hstate handler c consume_res st sched).2.
Proof.
  intros Hstop.
  assert (H : Consumer.Handle hstate handler c consume_res st (sched ++ rest) =
              Consumer.Handle hstate handler c consume_res st sched).
  { unfold Consumer.Handle. destruct consume_res; [done|].
    by rewrite (Handle_loop_after_stop _ _ _ _ _ _ _ s). }
  by rewrite H.
Qed.

Lemma Handle_ignores_after_stop_witness :
  Consumer.acks
    (Consumer.Handle nat flaky_handler orders_consumer None 0%nat
       (redelivery_schedule ++
        [Consumer.Received {| Consumer.Headers := None;
                              Consumer.DeliveryTag := 3;
                              Consumer.Body := [] |}])).2 =
  [EvNack 1 false true; EvAck 2 false].
Proof.
  destruct (Handle_ignores_after_stop nat flaky_handler orders_consumer None
              0%nat redelivery_schedule
              [Consumer.Received {| Consumer.Headers := None;
                                    Consumer.DeliveryTag := 3;
                                    Consumer.Body := [] |}]
              (Consumer.CtxDone (ErrLib 9)) eq_refl) as (_ & Hacks & _).
  rewrite Hacks. reflexivity.
Defined.

(** * Further properties of the trace carrier adapter *)

Lemma written_last fields (t : gmap string value) k :
  Carrier.written fields t !! k =
  match Obs.last_value fields k with
  | Some v => Some (VString v)
  | None => t !! k
  end.
Proof.
  revert t. induction fields as [|[k' v'] fields IH]; intros t; [done|].
  unfold Carrier.written. simpl.
  fold (Carrier.written fields (<[k' := VString v']> t)).
  rewrite IH. destruct (Obs.last_value fields k); [done|].
  destruct (decide (k' = k)) as [->|Hne].
  - apply lookup_insert_eq.
  - by apply lookup_insert_ne.
Qed.

Lemma last_value_None fields k :
  Obs.last_value fields k = None ↔ k ∉ fields.*1.
Proof.
  induction fields as [|[k' v'] fields IH]; simpl.
  - split; [intros _; apply not_elem_of_nil|done].
  - rewrite not_elem_of_cons, <- IH.
    destruct (Obs.last_value fields k); [by split; [|intros [_ ?]]|].
    destruct (decide (k' = k)) as [->|Hne]; split; try done; tauto.
Qed.

Lemma Keys_elem c (h : store) l (t : gmap string value) x :
  Carrier.table c = Some l → h !! l = Some t →
  x ∈ Carrier.Keys c h ↔ is_Some (t !! x).
Proof.
  intros Hc Hl.
  assert (Hks : Carrier.Keys_result c h (Carrier.Keys c h))
    by by unfold Carrier.Keys_result.
  by destruct (Keys_exact c h l t (Carrier.Keys c h) Hc Hl Hks) as (_ & Hin & _).
Qed.

Lemma Get_lookup c (h : store) l (t : gmap string value) k :
  Carrier.table c = Some l → h !! l = Some t →
  Carrier.Get c h k =
  match t !! k with
  | Some (VString s) => s
  | Some v => Carrier.sprint_v v
  | None => ""
  end.
Proof.
  intros Hc Hl. unfold Carrier.Get. by rewrite (index_live c h l t).
Qed.

(** X11. On a live table, Set(k, v) leaves Get of every other key, and Get
    and Keys through an adapter on any other table or on a nil map, as they
    were; the keys afterwards are the old keys and k; a second Set on k
    overwrites the first; and setting the string already stored changes
    nothing. *)
Theorem tableCarrier_Set_frame (c : Carrier.tableCarrier) (h : store) (l : loc)
    (t : gmap string value) (k v : string) :
  Carrier.table c = Some l → h !! l = Some t →
  ∃ h',
    Carrier.Set_ c k v h = Done h' ∧
    (∀ k', k' ≠ k → Carrier.Get c h' k' = Carrier.Get c h k') ∧
    (∀ c', Carrier.table c' ≠ Some l →
           (∀ k', Carrier.Get c' h' k' = Carrier.Get c' h k') ∧
           Carrier.Keys c' h' = Carrier.Keys c' h) ∧
    (∀ keys', Carrier.Keys_result c h' keys' →
              ∀ x, x ∈ keys' ↔ x = k ∨ x ∈ Carrier.Keys c h) ∧
    (∀ v2, Carrier.Set_ c k v2 h' = Carrier.Set_ c k v2 h) ∧
    (Carrier.Get c h k = v → (∃ s, t !! k = Some (VString s)) →
     Carrier.Set_ c k v h = Done h).
Proof.
  intros Hc Hl. exists (<[l := <[k := VString v]> t]> h).
  set (h' := <[l := <[k := VString v]> t]> h).
  assert (Hl' : h' !! l = Some (<[k := VString v]> t)) by apply lookup_insert_eq.
  split; [by apply Set_live|]. split; [|split; [|split; [|split]]].
  - intros k' Hne.
    rewrite (Get_lookup c h' l _ k' Hc Hl'), (Get_lookup c h l t k' Hc Hl).
    by rewrite lookup_insert_ne.
  - intros [[l'|]] Hne'; simpl in Hne'; [|done].
    assert (Hother : h' !! l' = h !! l').
    { apply lookup_insert_ne. congruence. }
    unfold Carrier.Get, Carrier.index, Carrier.Keys. simpl.
    by rewrite Hother.
  - intros keys' Hks x.
    destruct (Keys_exact c h' l _ keys' Hc Hl' Hks) as (_ & Hin & _).
    rewrite Hin, (Keys_elem c h l t x Hc Hl).
    destruct (decide (k = x)) as [->|Hne].
    + rewrite lookup_insert_eq. split; [by left|by eexists].
    + rewrite lookup_insert_ne by done. split; [by right|].
      by intros [->|?].
  - intros v2. rewrite (Set_live c h' l _ k v2 Hc Hl').
    rewrite (Set_live c h l t k v2 Hc Hl). unfold h'.
    by rewrite insert_insert_eq, insert_insert_eq.
  - intros Hget [s Hs]. rewrite (Set_live c h l t k v Hc Hl). f_equal.
    rewrite (Get_lookup c h l t k Hc Hl), Hs in Hget. subst s.
    by rewrite (insert_id t), (insert_id h).
Qed.

Lemma tableCarrier_Set_frame_witness :
  let c := {| Carrier.table := Some 1%positive |} in
  let t : gmap string value := {[ "x-retries" := VInt 3 ]} in
  let h : store := {[ 1%positive := t ]} in
  ∃ h', Carrier.Set_ c "traceparent" "00-ab-cd-01" h = Done h' ∧
        Carrier.Get c h' "x-retries" = "3".
Proof.
  intros c t h.
  destruct (tableCarrier_Set_frame c h 1%positive t "traceparent" "00-ab-cd-01"
              eq_refl eq_refl) as (h' & Hset & Hframe & _).
  exists h'. split; [exact Hset|].
  rewrite (Hframe "x-retries"); [reflexivity|discriminate].
Defined.

(** X12. On a live table, injecting a list of fields always succeeds; Get
    then gives, for a key in the list, the value of its last entry, and for
    any other key what it gave before; the keys are the old keys and the
    keys of the list; other tables are untouched. *)
Theorem Inject_last_write_wins (c : Carrier.tableCarrier) (h : store) (l : loc)
    (t : gmap string value) (fields : list (string * string)) :
  Carrier.table c = Some l → h !! l = Some t →
  ∃ h',
    Carrier.Inject fields c h = Done h' ∧
    (∀ k, Carrier.Get c h' k =
          match Obs.last_value fields k with
          | Some v => v
          | None => Carrier.Get c h k
          end) ∧
    (∀ k, k ∉ fields.*1 → Carrier.Get c h' k = Carrier.Get c h k) ∧
    (∀ keys', Carrier.Keys_result c h' keys' →
              ∀ x, x ∈ keys' ↔ x ∈ fields.*1 ∨ x ∈ Carrier.Keys c h) ∧
    (∀ l', l' ≠ l → h' !! l' = h !! l').
Proof.
  intros Hc Hl. exists (<[l := Carrier.written fields t]> h).
  set (h' := <[l := Carrier.written fields t]> h).
  assert (Hl' : h' !! l = Some (Carrier.written fields t)) by apply lookup_insert_eq.
  assert (Hget : ∀ k, Carrier.Get c h' k =
            match Obs.last_value fields k with
            | Some v => v
            | None => Carrier.Get c h k
            end).
  { intros k.
    rewrite (Get_lookup c h' l _ k Hc Hl'), (Get_lookup c h l t k Hc Hl).
    rewrite written_last. by destruct (Obs.last_value fields k). }
  split; [by apply Inject_live|]. split; [exact Hget|]. split; [|split].
  - intros k Hk. rewrite Hget. by apply last_value_None in Hk as ->.
  - intros keys' Hks x.
    destruct (Keys_exact c h' l _ keys' Hc Hl' Hks) as (_ & Hin & _).
    rewrite Hin, (Keys_elem c h l t x Hc Hl), written_last.
    destruct (Obs.last_value fields x) as [v|] eqn:Hlast.
    + split; [|by eexists]. intros _. left.
      destruct (decide (x ∈ fields.*1)) as [|Hnot]; [done|].
      apply last_value_None in Hnot. congruence.
    + apply last_value_None in Hlast. split; [by right|by intros [?|?]].
  - intros l' Hne. by apply lookup_insert_ne.
Qed.

Lemma Inject_last_write_wins_witness :
  let c := {| Carrier.table := Some 1%positive |} in
  let t : gmap string value := {[ "tracestate" := VString "old" ]} in
  let h : store := {[ 1%positive := t ]} in
  ∃ h', Carrier.Inject [("traceparent", "00-a"); ("tracestate", "x=1");
                        ("traceparent", "00-b")] c h = Done h' ∧
        Carrier.Get c h' "traceparent" = "00-b" ∧
        Carrier.Get c h' "tracestate" = "x=1".
Proof.
  intros c t h.
  destruct (Inject_last_write_wins c h 1%positive t
              [("traceparent", "00-a"); ("tracestate", "x=1");
               ("traceparent", "00-b")] eq_refl eq_refl)
    as (h' & Hrun & Hget & _).
  exists h'. split; [exact Hrun|]. by rewrite !Hget.
Defined.

(** * Properties of the path utilities *)
Section path_facts.
Import Stdlib.Strings.Ascii.
Import Path.

Lemma strip_spec s p r : strip s p = Some r ↔ s = p +:+ r.
Proof.
  revert s. induction p as [|a p IH]; intros s; simpl.
  - split; [by intros [= ->]|by intros ->].
  - destruct s as [|b s]; [done|]. destruct (decide (a = b)) as [->|Hne].
    + rewrite IH. split; [by intros ->|by intros [= ->]].
    + split; [done|]. by intros [= <- _].
Qed.

Lemma HasPrefix_cons a s b p :
  HasPrefix (String a s) (String b p) = bool_decide (b = a) && HasPrefix s p.
Proof.
  unfold HasPrefix. simpl. destruct (decide (b = a)) as [->|Hne].
  - by rewrite bool_decide_eq_true_2.
  - by rewrite bool_decide_eq_false_2.
Qed.

Lemma HasPrefix_nil_r s : HasPrefix s "" = true.
Proof. by destruct s. Qed.

Lemma HasPrefix_nil_l b p : HasPrefix "" (String b p) = false.
Proof. done. Qed.

Lemma HasPrefix_spec s p : HasPrefix s p = true ↔ ∃ r, s = p +:+ r.
Proof.
  unfold HasPrefix. split.
  - destruct (strip s p) as [r|] eqn:Hs; [|done]. intros _. exists r.
    by apply strip_spec.
  - intros [r Hr]. apply strip_spec in Hr. by rewrite Hr.
Qed.

Lemma TrimPrefix_spec s p :
  (HasPrefix s p = true ∧ s = p +:+ TrimPrefix s p) ∨
  (HasPrefix s p = false ∧ TrimPrefix s p = s).
Proof.
  unfold HasPrefix, TrimPrefix. destruct (strip s p) as [r|] eqn:Hs; [left|right].
  - split; [done|]. by apply strip_spec.
  - done.
Qed.

Lemma Contains_cons a s sub :
  Contains (String a s) sub = HasPrefix (String a s) sub || Contains s sub.
Proof. done. Qed.

Lemma Split_nonempty s sep : Split s sep ≠ [].
Proof.
  destruct s as [|a s]; [done|]. simpl. destruct (decide (a = sep)); [done|].
  by destruct (Split s sep).
Qed.

Lemma Split_cons a s sep :
  Split (String a s) sep =
  if decide (a = sep) then "" :: Split s sep
  else String a (default "" (head (Split s sep))) :: tail (Split s sep).
Proof.
  simpl. destruct (decide (a = sep)); [done|].
  pose proof (Split_nonempty s sep). by destruct (Split s sep).
Qed.

(** The first part of a split is how the string starts. *)
Lemma Split_head s sep :
  ∃ r, s = default "" (head (Split s sep)) +:+ r ∧
       (r = "" ∨ HasPrefix r (String sep "") = true).
Proof.
  induction s as [|a s (r & IH & Hr)].
  - exists "". split; [done|by left].
  - rewrite Split_cons. destruct (decide (a = sep)) as [->|Hne].
    + exists (String sep s). split; [done|right].
      by rewrite HasPrefix_cons, bool_decide_eq_true_2, HasPrefix_nil_r.
    + exists r. split; [|done].
      change (String a s = String a (default "" (head (Split s sep)) +:+ r)).
      by f_equal.
Qed.

(** No part of a split holds the separator. *)
Lemma Split_no_sep s sep part :
  part ∈ Split s sep → Contains part (String sep "") = false.
Proof.
  revert part. induction s as [|a s IH]; intros part.
  - simpl. by intros ->%list_elem_of_singleton.
  - rewrite Split_cons. pose proof (Split_nonempty s sep) as Hne.
    destruct (decide (a = sep)) as [->|Ha].
    + intros [->|Hin]%elem_of_cons; [done|by apply IH].
    + destruct (Split s sep) as [|p0 ps]; [done|]. simpl.
      intros [->|Hin]%elem_of_cons.
      * rewrite Contains_cons, HasPrefix_cons, bool_decide_eq_false_2 by done.
        simpl. apply IH. by left.
      * apply IH. by right.
Qed.

Lemma Contains_byte a s c :
  Contains (String a s) (String c "") = bool_decide (c = a) || Contains s (String c "").
Proof. by rewrite Contains_cons, HasPrefix_cons, HasPrefix_nil_r, andb_true_r. Qed.

Lemma Contains_nil_byte c : Contains "" (String c "") = false.
Proof. done. Qed.

(** A byte other than the separator is in a string exactly when it is in
    one of its parts. *)
Lemma Contains_byte_Split s sep c :
  c ≠ sep →
  Contains s (String c "") =
  existsb (λ part, Contains part (String c "")) (Split s sep).
Proof.
  intros Hc. induction s as [|a s IH]; [done|].
  rewrite Contains_byte, Split_cons, IH.
  pose proof (Split_nonempty s sep) as Hne.
  destruct (decide (a = sep)) as [->|Ha].
  - by rewrite bool_decide_eq_false_2.
  - destruct (Split s sep) as [|p0 ps]; [done|]. cbn [existsb head tail default].
    by rewrite Contains_byte, orb_assoc.
Qed.

(** A string without ".." has no part with "..". *)
Lemma Split_no_dotdot s sep :
  Contains s ".." = false →
  Forall (λ part, Contains part ".." = false) (Split s sep).
Proof.
  induction s as [|a s IH]; [by repeat constructor|].
  rewrite Contains_cons. intros [Hpre Hrest]%orb_false_elim.
  specialize (IH Hrest). rewrite Split_cons.
  destruct (decide (a = sep)) as [->|Ha]; [by constructor|].
  destruct (Split_head s sep) as (r & Hs & _).
  pose proof (Split_nonempty s sep) as Hne.
  destruct (Split s sep) as [|p0 ps]; [done|]. simpl in *.
  apply Forall_cons in IH as [Hp0 Hps]. constructor; [|done].
  rewrite Contains_cons, Hp0, orb_false_r.
  rewrite HasPrefix_cons in Hpre |- *.
  destruct (bool_decide ("."%char = a)); [simpl in *|done].
  destruct (HasPrefix p0 ".") eqn:Hp; [|done].
  apply HasPrefix_spec in Hp as [q ->].
  rewrite <- Hpre. symmetry. apply HasPrefix_spec. exists (q +:+ r).
  rewrite Hs. done.
Qed.

(** A string that [Trim] with "." empties starts with a dot, and so does
    what follows the dot. *)
Lemma Trim_dots_empty a s :
  Trim (String a s) "." = "" → a = "."%char ∧ Trim s "." = "".
Proof.
  unfold Trim. simpl.
  destruct (TrimRight s ".") as [|b rest] eqn:Hr; simpl.
  - destruct (bool_decide (a = "."%char)) eqn:Ha; simpl; [|by rewrite Ha].
    apply bool_decide_eq_true in Ha. done.
  - destruct (bool_decide (a = "."%char)) eqn:Ha; simpl; [|done].
    apply bool_decide_eq_true in Ha. done.
Qed.

Lemma dots_only_dotdot part :
  Trim part "." = "" → (1 < String.length part)%nat → Contains part ".." = true.
Proof.
  destruct part as [|a [|b s]]; simpl; [lia..|].
  intros [-> [-> _]%Trim_dots_empty]%Trim_dots_empty _. done.
Qed.

Lemma check_parts_no_dotdot parts :
  Forall (λ part, Contains part ".." = false) parts →
  check_parts parts =
  if existsb (λ part, Contains part NULs) parts then Some ErrInvalidPath else None.
Proof.
  induction 1 as [|part parts Hpart _ IH]; [done|]. simpl.
  destruct (decide (part = "")) as [->|Hne]; [done|].
  destruct (bool_decide (Trim part "." = "") && (1 <? String.length part)%nat) eqn:Hdots.
  - apply andb_prop in Hdots as [Ht%bool_decide_eq_true Hl%Nat.ltb_lt].
    by rewrite (dots_only_dotdot part Ht Hl) in Hpart.
  - by destruct (Contains part NULs).
Qed.

Lemma ValidatePath_eq path :
  ValidatePath path =
  if decide (path = "") then Some ErrEmptyPath
  else if Contains path ".." then Some ErrPathTraversal
  else if Contains path NULs then Some ErrInvalidPath
  else None.
Proof.
  unfold ValidatePath. destruct (decide (path = "")); [done|].
  destruct (Contains path "..") eqn:Hdd; [done|].
  destruct (decide (path = "/")) as [->|Hroot]; [done|].
  rewrite (check_parts_no_dotdot _ (Split_no_dotdot path "/"%char Hdd)).
  unfold NULs. by rewrite <- (Contains_byte_Split path "/"%char NUL) by done.
Qed.

Lemma ReplaceAll_cons a s :
  ReplaceAll (String a s) NUL "_" =
  String (if decide (a = NUL) then "_"%char else a) (ReplaceAll s NUL "_").
Proof. simpl. by destruct (decide (a = NUL)). Qed.

Lemma ReplaceAll_no_NUL s : Contains (ReplaceAll s NUL "_") NULs = false.
Proof.
  induction s as [|a s IH]; [done|]. rewrite ReplaceAll_cons.
  unfold NULs in *. rewrite Contains_byte, IH, orb_false_r.
  apply bool_decide_eq_false_2. by destruct (decide (a = NUL)) as [->|Hne].
Qed.

Lemma ReplaceAll_length s :
  String.length (ReplaceAll s NUL "_") = String.length s.
Proof.
  induction s as [|a s IH]; [done|]. rewrite ReplaceAll_cons. simpl. by rewrite IH.
Qed.

Lemma ReplaceAll_id s : ReplaceAll s NUL "_" = s ↔ Contains s NULs = false.
Proof.
  induction s as [|a s IH]; [done|]. rewrite ReplaceAll_cons.
  unfold NULs in *. rewrite Contains_byte.
  destruct (decide (a = NUL)) as [->|Hne].
  - rewrite bool_decide_eq_true_2 by done. split; [by intros [= ? _]|done].
  - rewrite bool_decide_eq_false_2 by done. simpl. rewrite <- IH.
    split; [by intros [= ->]|by intros ->].
Qed.

Lemma ReplaceAll_HasPrefix_dot s :
  HasPrefix (ReplaceAll s NUL "_") "." = HasPrefix s ".".
Proof.
  destruct s as [|a s]; [done|]. rewrite ReplaceAll_cons, !HasPrefix_cons.
  f_equal. destruct (decide (a = NUL)) as [->|Hne]; done.
Qed.

Lemma ReplaceAll_Contains_dotdot s :
  Contains (ReplaceAll s NUL "_") ".." = Contains s "..".
Proof.
  induction s as [|a s IH]; [done|].
  rewrite ReplaceAll_cons, !Contains_cons, IH. f_equal.
  rewrite !HasPrefix_cons, ReplaceAll_HasPrefix_dot. f_equal.
  destruct (decide (a = NUL)) as [->|Hne]; done.
Qed.

Lemma ReplaceAll_empty s : ReplaceAll s NUL "_" = "" → s = "".
Proof. destruct s; [done|]. by rewrite ReplaceAll_cons. Qed.

(** The steps of [SanitizePath], one after the other. *)
Lemma SanitizePath_steps path :
  ∃ p1 p2,
    (path = "/" +:+ p1 ∨ (HasPrefix path "/" = false ∧ p1 = path)) ∧
    (p1 = "./" +:+ p2 ∨ (HasPrefix p1 "./" = false ∧ p2 = p1)) ∧
    SanitizePath path =
      if HasPrefix p2 "." then "file_" +:+ ReplaceAll p2 NUL "_"
      else ReplaceAll p2 NUL "_".
Proof.
  exists (TrimPrefix path "/"), (TrimPrefix (TrimPrefix path "/") "./").
  split; [|split].
  - destruct (TrimPrefix_spec path "/") as [[_ H]|[H1 H2]]; [by left|by right].
  - destruct (TrimPrefix_spec (TrimPrefix path "/") "./") as [[_ H]|[H1 H2]];
      [by left|by right].
  - unfold SanitizePath. by rewrite ReplaceAll_HasPrefix_dot.
Qed.

Lemma SanitizePath_Contains_dotdot path :
  Contains (SanitizePath path) ".." = Contains path "..".
Proof.
  destruct (SanitizePath_steps path) as (p1 & p2 & H1 & H2 & ->).
  assert (E2 : Contains p2 ".." = Contains p1 "..").
  { destruct H2 as [->|[_ ->]]; [|done].
    change ("./" +:+ p2) with (String "." (String "/" p2)).
    rewrite !Contains_cons, !HasPrefix_cons. done. }
  assert (E1 : Contains p1 ".." = Contains path "..").
  { destruct H1 as [->|[_ ->]]; [|done].
    change ("/" +:+ p1) with (String "/" p1).
    rewrite !Contains_cons, !HasPrefix_cons. done. }
  rewrite <- E1, <- E2.
  destruct (HasPrefix p2 "."); [|apply ReplaceAll_Contains_dotdot].
  rewrite <- (ReplaceAll_Contains_dotdot p2).
  change ("file_" +:+ ?s) with (String "f" (String "i" (String "l" (String "e" (String "_" s))))).
  rewrite !Contains_cons, !HasPrefix_cons. done.
Qed.

Lemma SanitizePath_props path :
  HasPrefix (SanitizePath path) "." = false ∧
  Contains (SanitizePath path) NULs = false.
Proof.
  destruct (SanitizePath_steps path) as (p1 & p2 & _ & _ & ->).
  rewrite <- (ReplaceAll_HasPrefix_dot p2).
  destruct (HasPrefix (ReplaceAll p2 NUL "_") ".") eqn:Hdot.
  - split; [done|].
    change ("file_" +:+ ?s) with (String "f" (String "i" (String "l" (String "e" (String "_" s))))).
    unfold NULs. rewrite !Contains_byte. simpl. apply ReplaceAll_no_NUL.
  - split; [done|apply ReplaceAll_no_NUL].
Qed.

Lemma SanitizePath_empty path :
  SanitizePath path = "" ↔ path = "" ∨ path = "/" ∨ path = "./" ∨ path = "/./".
Proof.
  split.
  - destruct (SanitizePath_steps path) as (p1 & p2 & H1 & H2 & ->).
    destruct (HasPrefix p2 "."); [done|]. intros ->%ReplaceAll_empty.
    destruct H1 as [H1|[_ H1]], H2 as [H2|[_ H2]]; subst; simpl; tauto.
  - by intros [-> | [-> | [-> | ->]]].
Qed.

Lemma HasPrefix_dot_slash s : HasPrefix s "." = false → HasPrefix s "./" = false.
Proof.
  destruct s as [|a s]; [done|]. rewrite !HasPrefix_cons, HasPrefix_nil_r.
  by destruct (bool_decide ("."%char = a)).
Qed.

(** X16. SanitizePath returns a path unchanged exactly when the path starts
    with neither a slash nor a dot and holds no zero byte. *)
Theorem SanitizePath_fixed_points (path : string) :
  SanitizePath path = path ↔
  HasPrefix path "/" = false ∧ HasPrefix path "." = false ∧
  Contains path NULs = false.
Proof.
  split.
  - destruct (SanitizePath_steps path) as (p1 & p2 & H1 & H2 & ->).
    intros Heq. assert (Hlen := f_equal String.length Heq).
    assert (L5 : ∀ s, String.length ("file_" +:+ s) = (5 + String.length s)%nat) by done.
    assert (Hl1 : String.length path = S (String.length p1) ∨
                  (p1 = path ∧ HasPrefix path "/" = false)).
    { destruct H1 as [H1|[? H1]]; [left; by rewrite H1|by right]. }
    assert (Hl2 : String.length p1 = S (S (String.length p2)) ∨
                  (p2 = p1 ∧ HasPrefix p1 "./" = false)).
    { destruct H2 as [H2|[? H2]]; [left; by rewrite H2|by right]. }
    clear H1 H2.
    assert (Hn1 : String.length path = S (String.length p1) ∨
                  String.length p1 = String.length path).
    { destruct Hl1 as [?|[-> _]]; auto. }
    assert (Hn2 : String.length p1 = S (S (String.length p2)) ∨
                  String.length p2 = String.length p1).
    { destruct Hl2 as [?|[-> _]]; auto. }
    destruct (HasPrefix p2 ".") eqn:Hd; rewrite ?L5, ReplaceAll_length in Hlen;
      [lia|].
    destruct Hl1 as [E1|[E1 Hs]]; [lia|].
    destruct Hl2 as [E2|[E2 _]]; [lia|].
    rewrite E2, E1 in Heq, Hd. by apply ReplaceAll_id in Heq.
  - intros (Hs & Hd & Hn). unfold SanitizePath.
    destruct (TrimPrefix_spec path "/") as [[H _]|[_ ->]]; [congruence|].
    destruct (TrimPrefix_spec path "./") as [[H _]|[_ ->]].
    { by rewrite HasPrefix_dot_slash in H. }
    apply ReplaceAll_id in Hn. by rewrite Hn, Hd.
Qed.

End path_facts.

(** X13. ValidatePath decides by three tests in this order: the empty path
    is ErrEmptyPath; a path that holds ".." anywhere is ErrPathTraversal,
    and only such a path is (the later check for a part made of dots alone
    never decides); a path without ".." that holds a zero byte is
    ErrInvalidPath; every other path is accepted.  No other error comes
    out. *)
Theorem ValidatePath_classifies (path : string) :
  (Path.ValidatePath path = Some Path.ErrEmptyPath ↔ path = "") ∧
  (Path.ValidatePath path = Some Path.ErrPathTraversal ↔
     Path.Contains path ".." = true) ∧
  (Path.ValidatePath path = Some Path.ErrInvalidPath ↔
     Path.Contains path ".." = false ∧ Path.Contains path Path.NULs = true) ∧
  (Path.ValidatePath path = None ↔
     path ≠ "" ∧ Path.Contains path ".." = false ∧
     Path.Contains path Path.NULs = false) ∧
  (∀ err, Path.ValidatePath path = Some err →
     err = Path.ErrEmptyPath ∨ err = Path.ErrPathTraversal ∨
     err = Path.ErrInvalidPath).
Proof.
  rewrite ValidatePath_eq.
  destruct (decide (path = "")) as [->|Hne]; [by split_and!; naive_solver|].
  destruct (Path.Contains path "..") eqn:Hdd; [by split_and!; naive_solver|].
  destruct (Path.Contains path Path.NULs) eqn:Hn; split_and!; naive_solver.
Qed.

(** X14. What SanitizePath returns never starts with a dot and holds no
    zero byte, so ValidatePath never answers ErrInvalidPath on it; it is
    empty exactly for the paths "", "/", "./" and "/./". *)
Theorem SanitizePath_output (path : string) :
  Path.HasPrefix (Path.SanitizePath path) "." = false ∧
  Path.Contains (Path.SanitizePath path) Path.NULs = false ∧
  Path.ValidatePath (Path.SanitizePath path) ≠ Some Path.ErrInvalidPath ∧
  (Path.SanitizePath path = "" ↔
     path = "" ∨ path = "/" ∨ path = "./" ∨ path = "/./").
Proof.
  destruct (SanitizePath_props path) as [Hdot Hnul].
  split; [done|]. split; [done|]. split; [|apply SanitizePath_empty].
  rewrite ValidatePath_eq, Hnul.
  destruct (decide (Path.SanitizePath path = "")); [done|].
  by destruct (Path.Contains (Path.SanitizePath path) "..").
Qed.

(** X15. SanitizePath neither removes nor creates "..": its result holds
    ".." exactly when the path does.  So a sanitized path is rejected as a
    traversal exactly when the path held "..", and is accepted by
    ValidatePath exactly when the path held none and was not "", "/", "./"
    or "/./". *)
Theorem SanitizePath_keeps_dotdot (path : string) :
  Path.Contains (Path.SanitizePath path) ".." = Path.Contains path ".." ∧
  (Path.ValidatePath (Path.SanitizePath path) = Some Path.ErrPathTraversal ↔
     Path.Contains path ".." = true) ∧
  (Path.ValidatePath (Path.SanitizePath path) = None ↔
     Path.Contains path ".." = false ∧
     path ≠ "" ∧ path ≠ "/" ∧ path ≠ "./" ∧ path ≠ "/./").
Proof.
  pose proof (SanitizePath_Contains_dotdot path) as Hdd.
  destruct (SanitizePath_props path) as [_ Hnul].
  pose proof (SanitizePath_empty path) as Hempty.
  split; [done|]. rewrite ValidatePath_eq, Hnul, Hdd.
  destruct (decide (Path.SanitizePath path = "")) as [He|Hne].
  - assert (Path.Contains path ".." = false) as ->.
    { by destruct (proj1 Hempty He) as [-> | [-> | [-> | ->]]]. }
    split; [done|]. split; [done|]. intros (_ & ? & ? & ? & ?).
    destruct (proj1 Hempty He) as [? | [? | [? | ?]]]; done.
  - destruct (Path.Contains path ".."); [by split; [|split; [done|intros [? _]]]|].
    split; [done|]. split; [|done]. intros _. split; [done|].
    split_and!; intros ->; apply Hne, Hempty; auto.
Qed.

Section directories_facts.
Import Stdlib.Strings.Ascii.
Import Path.
Variable TrimSpace : string → string.

Lemma child_of_Some parentPath filePath dir :
  child_of TrimSpace parentPath filePath = Some dir →
  dir ≠ "" ∧ Contains dir "/" = false ∧
  ∃ rest,
    (if negb (HasPrefix (TrimSpace filePath) "/")
     then "/" +:+ TrimSpace filePath else TrimSpace filePath) =
      parentPath +:+ dir +:+ rest ∧
    (rest = "" ∨ HasPrefix rest "/" = true).
Proof.
  unfold child_of.
  destruct (decide (TrimSpace filePath = "")); [done|].
  set (fp := if negb (HasPrefix (TrimSpace filePath) "/")
             then "/" +:+ TrimSpace filePath else TrimSpace filePath).
  destruct (TrimPrefix_spec fp parentPath) as [[Hpre Hfp]|[Hpre _]];
    rewrite Hpre; simpl; [|done].
  destruct (decide (TrimPrefix fp parentPath = "")); [done|].
  destruct (Split_head (TrimPrefix fp parentPath) "/"%char) as (rest & Hrel & Hrest).
  pose proof (Split_no_sep (TrimPrefix fp parentPath) "/"%char) as Hsep.
  destruct (Split (TrimPrefix fp parentPath) "/"%char) as [|part0 parts]; [done|].
  destruct (decide (part0 = "")); [done|]. intros [= <-].
  split; [done|]. split; [apply Hsep; by left|].
  exists rest. split; [|done]. simpl in Hrel. by rewrite Hfp at 1; rewrite Hrel at 1.
Qed.

Lemma directories_acc parentPath filePaths (acc : gset string) dir :
  dir ∈ foldl (λ dirs filePath,
                 match child_of TrimSpace parentPath filePath with
                 | Some d => {[d]} ∪ dirs
                 | None => dirs
                 end) acc filePaths ↔
  dir ∈ acc ∨ ∃ filePath, filePath ∈ filePaths ∧
                          child_of TrimSpace parentPath filePath = Some dir.
Proof.
  revert acc. induction filePaths as [|fp fps IH]; intros acc; simpl.
  - split; [by left|]. intros [?|(? & []%elem_of_nil & _)]. done.
  - rewrite IH. split.
    + intros [Hin|(fp' & Hin & Hc)].
      * destruct (child_of TrimSpace parentPath fp) as [d|] eqn:Hc; [|by left].
        apply elem_of_union in Hin as [->%elem_of_singleton|?]; [|by left].
        right. exists fp. split; [by left|done].
      * right. exists fp'. split; [by right|done].
    + intros [Hin|(fp' & [->|Hin]%elem_of_cons & Hc)].
      * left. destruct (child_of TrimSpace parentPath fp); [|done].
        apply elem_of_union. by right.
      * left. rewrite Hc. apply elem_of_union. left. by apply elem_of_singleton.
      * right. by exists fp'.
Qed.

Lemma elem_of_directories parentPath filePaths dir :
  dir ∈ directories TrimSpace parentPath filePaths ↔
  ∃ filePath, filePath ∈ filePaths ∧
              child_of TrimSpace parentPath filePath = Some dir.
Proof.
  unfold directories. rewrite directories_acc. split; [|by right].
  intros [[]%elem_of_empty|?]. done.
Qed.

Lemma directories_app parentPath fps1 fps2 :
  directories TrimSpace parentPath (fps1 ++ fps2) =
  directories TrimSpace parentPath fps1 ∪ directories TrimSpace parentPath fps2.
Proof.
  apply set_eq. intros dir.
  rewrite elem_of_union, !elem_of_directories. split.
  - intros (fp & [?|?]%elem_of_app & Hc); [left|right]; by exists fp.
  - intros [(fp & ? & Hc)|(fp & ? & Hc)]; exists fp;
      (split; [apply elem_of_app; auto|done]).
Qed.

Lemma HasSuffix_refl t : HasSuffix t t = true.
Proof. destruct t; cbn [HasSuffix]; by rewrite bool_decide_eq_true_2. Qed.

Lemma HasSuffix_app s t : HasSuffix (s +:+ t) t = true.
Proof.
  induction s as [|a s IH]; [apply HasSuffix_refl|].
  change (String a s +:+ t) with (String a (s +:+ t)).
  cbn [HasSuffix]. by rewrite IH, orb_true_r.
Qed.

Lemma normalize_parent_shape parentPath :
  HasPrefix (normalize_parent TrimSpace parentPath) "/" = true ∧
  HasSuffix (normalize_parent TrimSpace parentPath) "/" = true.
Proof.
  unfold normalize_parent.
  set (p0 := TrimSpace (if decide (parentPath = "") then "/" else parentPath)).
  set (p1 := if negb (HasPrefix p0 "/") then "/" +:+ p0 else p0).
  assert (H1 : HasPrefix p1 "/" = true).
  { unfold p1. destruct (HasPrefix p0 "/") eqn:Hp; [done|].
    apply HasPrefix_spec. by exists p0. }
  destruct (bool_decide (p1 = "/")) eqn:Hroot; simpl.
  - apply bool_decide_eq_true in Hroot. by rewrite Hroot.
  - destruct (HasSuffix p1 "/") eqn:Hsuf; simpl; [done|].
    split; [|apply HasSuffix_app].
    apply HasPrefix_spec in H1 as [r ->]. apply HasPrefix_spec. by exists (r +:+ "/").
Qed.

End directories_facts.

(** X17. Whatever strings.TrimSpace does: the parent path the loop uses
    starts and ends with a slash; a result of GetDirectoriesFromPaths has no
    repeated name; a name is in it exactly when the loop body yields it for
    one of the file paths; and every name in it is non-empty, holds no
    slash, and is what follows the parent in one of the file paths (trimmed,
    with a leading slash), up to the end of that path or to its next
    slash. *)
Theorem GetDirectoriesFromPaths_names (TrimSpace : string → string)
    (parentPath : string) (filePaths result : list string) :
  Path.GetDirectoriesFromPaths_result TrimSpace parentPath filePaths result →
  let parent := Path.normalize_parent TrimSpace parentPath in
  let full filePath :=
    if negb (Path.HasPrefix (TrimSpace filePath) "/")
    then "/" +:+ TrimSpace filePath else TrimSpace filePath in
  Path.HasPrefix parent "/" = true ∧ Path.HasSuffix parent "/" = true ∧
  NoDup result ∧
  (∀ dir, dir ∈ result ↔
          ∃ filePath, filePath ∈ filePaths ∧
                      Path.child_of TrimSpace parent filePath = Some dir) ∧
  (∀ dir, dir ∈ result →
     dir ≠ "" ∧ Path.Contains dir "/" = false ∧
     ∃ filePath rest,
       filePath ∈ filePaths ∧ full filePath = parent +:+ dir +:+ rest ∧
       (rest = "" ∨ Path.HasPrefix rest "/" = true)).
Proof.
  intros Hres parent full. unfold Path.GetDirectoriesFromPaths_result in Hres.
  destruct (normalize_parent_shape TrimSpace parentPath) as [Hpre Hsuf].
  split; [done|]. split; [done|].
  assert (Hin : ∀ dir, dir ∈ result ↔
            ∃ filePath, filePath ∈ filePaths ∧
                        Path.child_of TrimSpace parent filePath = Some dir).
  { intros dir. rewrite Hres. unfold Path.GetDirectoriesFromPaths.
    rewrite elem_of_elements. apply elem_of_directories. }
  split; [|split; [exact Hin|]].
  - rewrite Hres. apply NoDup_elements.
  - intros dir (fp & Hfp & Hc)%Hin.
    destruct (child_of_Some TrimSpace parent fp dir Hc) as (Hne & Hsl & rest & Hfull & Hrest).
    split; [done|]. split; [done|]. by exists fp, rest.
Qed.

Lemma GetDirectoriesFromPaths_names_witness :
  Path.GetDirectoriesFromPaths Path.TrimSpace_ascii "documents"
    ["/documents/work/a.txt"; " documents/b.txt "; "/images/c.jpg"] =
    ["work"; "b.txt"] ∧
  NoDup ["b.txt"; "work"].
Proof.
  split; [by vm_compute|].
  refine (proj1 (proj2 (proj2
    (GetDirectoriesFromPaths_names Path.TrimSpace_ascii "documents"
       ["/documents/work/a.txt"; " documents/b.txt "; "/images/c.jpg"]
       ["b.txt"; "work"] _)))).
  unfold Path.GetDirectoriesFromPaths_result.
  replace (Path.GetDirectoriesFromPaths _ _ _) with ["work"; "b.txt"]
    by by vm_compute.
  apply Permutation_swap.
Defined.

(** X18. Whatever strings.TrimSpace does: GetDirectoriesFromPaths depends
    on the file paths as a set.  The names for two lists one after the other
    are the names for the first and the names for the second; the order and
    the repetition of the file paths change nothing; no file path gives no
    name; and the empty parent path stands for "/". *)
Theorem GetDirectoriesFromPaths_paths (TrimSpace : string → string)
    (parentPath : string) (fps1 fps2 : list string) :
  (∀ dir, dir ∈ Path.GetDirectoriesFromPaths TrimSpace parentPath (fps1 ++ fps2) ↔
          dir ∈ Path.GetDirectoriesFromPaths TrimSpace parentPath fps1 ∨
          dir ∈ Path.GetDirectoriesFromPaths TrimSpace parentPath fps2) ∧
  (fps1 ≡ₚ fps2 →
     Path.GetDirectoriesFromPaths TrimSpace parentPath fps1 =
     Path.GetDirectoriesFromPaths TrimSpace parentPath fps2) ∧
  Path.GetDirectoriesFromPaths TrimSpace parentPath (fps1 ++ fps1) =
    Path.GetDirectoriesFromPaths TrimSpace parentPath fps1 ∧
  Path.GetDirectoriesFromPaths TrimSpace parentPath [] = [] ∧
  Path.GetDirectoriesFromPaths TrimSpace "" fps1 =
    Path.GetDirectoriesFromPaths TrimSpace "/" fps1.
Proof.
  unfold Path.GetDirectoriesFromPaths. split_and!.
  - intros dir. rewrite !elem_of_elements, directories_app. apply elem_of_union.
  - intros Hperm. f_equal. apply set_eq. intros dir.
    rewrite !elem_of_directories. by setoid_rewrite Hperm.
  - f_equal. rewrite directories_app. apply set_eq. intros dir.
    rewrite elem_of_union. tauto.
  - apply elements_empty.
  - done.
Qed.

(** * The path tests of the repository *)
Section path_tests.
Import Stdlib.Strings.Ascii.

Example ValidatePath_tests :
  Path.ValidatePath "documents" = None ∧
  Path.ValidatePath "folder/subfolder_v2.1" = None ∧
  Path.ValidatePath "/" = None ∧
  Path.ValidatePath "/folder/subfolder" = None ∧
  Path.ValidatePath "folder/subfolder/" = None ∧
  Path.ValidatePath "" = Some Path.ErrEmptyPath ∧
  Path.ValidatePath "../secret.txt" = Some Path.ErrPathTraversal ∧
  Path.ValidatePath "folder/../secret.txt" = Some Path.ErrPathTraversal ∧
  Path.ValidatePath ".../file.txt" = Some Path.ErrPathTraversal ∧
  Path.ValidatePath ("file" +:+ Path.NULs +:+ "name.txt") = Some Path.ErrInvalidPath.
Proof. vm_compute. by repeat split. Qed.

Example SanitizePath_tests :
  Path.SanitizePath "documents" = "documents" ∧
  Path.SanitizePath "/documents" = "documents" ∧
  Path.SanitizePath "./documents" = "documents" ∧
  Path.SanitizePath ("file" +:+ Path.NULs +:+ "name.txt") = "file_name.txt" ∧
  Path.SanitizePath ".../secret" = "file_.../secret" ∧
  Path.SanitizePath "file<name>" = "file<name>".
Proof. vm_compute. by repeat split. Qed.

Example GetDirectoriesFromPaths_tests :
  Path.GetDirectoriesFromPaths Path.TrimSpace_ascii "/documents"
    ["/documents/work/report.pdf"; "/documents/personal/photo.jpg";
     "/documents/work/notes.txt"; "/images/vacation.jpg"]
    = ["work"; "personal"] ∧
  Path.GetDirectoriesFromPaths Path.TrimSpace_ascii "documents"
    ["/documents/file1.txt"; "/documents/file2.pdf"; "/documentsx/y"]
    = ["file1.txt"; "file2.pdf"] ∧
  Path.GetDirectoriesFromPaths Path.TrimSpace_ascii " / "
    [" webp/a.webp "; "documents/b.txt"; "/images/c.jpg"; "  "; "/"]
    = ["webp"; "images"; "documents"] ∧
  Path.GetDirectoriesFromPaths Path.TrimSpace_ascii "/nonexistent"
    ["/documents/file1.txt"] = [].
Proof. vm_compute. by repeat split. Qed.

End path_tests.

(** * Properties of the message normalizer *)

Lemma valid_role_cases role :
  Converter.valid_role role ↔
  role = "user" ∨ role = "assistant" ∨ role = "system" ∨
  role = "tool" ∨ role = "function".
Proof.
  unfold Converter.valid_role. rewrite !elem_of_cons, elem_of_nil. tauto.
Qed.

Section converter_facts.

Context {O : Type} (Unmarshal : string → option O + error).

Abbreviation convert_part := (Converter.convert_part O Unmarshal).
Abbreviation convert_parts := (Converter.convert_parts O Unmarshal).
Abbreviation NormalizeFromOpenAI := (Converter.NormalizeFromOpenAI O Unmarshal).

Lemma NormalizeFromOpenAI_valid role parts :
  Converter.valid_role role →
  NormalizeFromOpenAI role parts =
    match convert_parts parts with
    | inr err => inr err
    | inl ps =>
        inl (if bool_decide (role ∈ ["tool"; "function"]) then "user" else role,
             ps)
    end.
Proof.
  rewrite valid_role_cases.
  intros [-> | [-> | [-> | [-> | ->]]]]; reflexivity.
Qed.

Lemma NormalizeFromOpenAI_invalid role parts :
  ¬ Converter.valid_role role →
  NormalizeFromOpenAI role parts =
    inr (ErrNew ("invalid OpenAI role: " +:+ role)).
Proof.
  rewrite valid_role_cases. unfold Converter.NormalizeFromOpenAI. intros Hn.
  repeat case_bool_decide; simpl; try reflexivity; exfalso; naive_solver.
Qed.

Lemma convert_parts_app parts1 parts2 :
  convert_parts (parts1 ++ parts2) =
    match convert_parts parts1 with
    | inr err => inr err
    | inl ps1 =>
        match convert_parts parts2 with
        | inr err => inr err
        | inl ps2 => inl (ps1 ++ ps2)
        end
    end.
Proof.
  induction parts1 as [|part parts1 IH]; simpl.
  - by destruct (convert_parts parts2).
  - destruct (convert_part part); [|done].
    rewrite IH. destruct (convert_parts parts1); [|done].
    by destruct (convert_parts parts2).
Qed.

Lemma convert_parts_inl parts ps :
  convert_parts parts = inl ps ↔
  Forall2 (λ part p, convert_part part = inl p) parts ps.
Proof.
  revert ps. induction parts as [|part parts IH]; intros ps; simpl.
  - split.
    + intros [= <-]. constructor.
    + intros H. by inversion H.
  - destruct (convert_part part) as [p|err] eqn:Hp.
    + destruct (convert_parts parts) as [ps'|err] eqn:Hps.
      * split.
        -- intros [= <-]. constructor; [done|]. by apply IH.
        -- intros H. inversion H as [|? p' ? ps'' Hp' Hps']; subst.
           rewrite Hp in Hp'. injection Hp' as <-.
           apply IH in Hps'. by injection Hps' as <-.
      * split; [done|].
        intros H. inversion H as [|? p' ? ps'' Hp' Hps']; subst.
        apply IH in Hps'. done.
    + split; [done|].
      intros H. inversion H as [|? p' ? ps'' Hp' Hps']; subst.
      rewrite Hp in Hp'. done.
Qed.

Lemma convert_parts_inr parts err :
  convert_parts parts = inr err ↔
  ∃ good bad rest ps,
    parts = good ++ bad :: rest ∧
    convert_parts good = inl ps ∧
    convert_part bad = inr err.
Proof.
  split.
  - induction parts as [|part parts IH]; simpl; [done|].
    destruct (convert_part part) as [p|err'] eqn:Hp.
    + destruct (convert_parts parts) as [ps'|err'] eqn:Hps; [done|].
      intros [= ->].
      destruct IH as (good & bad & rest & ps & -> & Hgood & Hbad); [done|].
      exists (part :: good), bad, rest, (p :: ps).
      split; [done|]. split; [|done].
      simpl. by rewrite Hp, Hgood.
    + intros [= ->]. by exists [], part, parts, [].
  - intros (good & bad & rest & ps & -> & Hgood & Hbad).
    rewrite convert_parts_app, Hgood. simpl. by rewrite Hbad.
Qed.

Lemma convert_part_shape part p :
  convert_part part = inl p →
  Converter.internal_type (Converter.Type_ part) = Some (Service.Type_ p) ∧
  (Converter.Type_ part = "text" →
     Service.Text p = Converter.Text part ∧ Converter.Text part ≠ "" ∧
     Service.Meta p = None) ∧
  (Converter.Type_ part ≠ "text" →
     Service.Text p = "" ∧ is_Some (Service.Meta p)) ∧
  Service.FileField p =
    (if bool_decide (Converter.Type_ part ∈ ["text"; "image_url"])
     then Converter.FileField part else "").
Proof.
  unfold Converter.convert_part, Converter.internal_type.
  destruct (decide (Converter.Type_ part = "text")) as [Ht|Ht].
  { case_decide; [done|]. intros [= <-]. rewrite Ht. simpl.
    by split_and!. }
  destruct (decide (Converter.Type_ part = "image_url")) as [Hi|Hi].
  { destruct (Converter.ImageURL part); [|done]. intros [= <-].
    rewrite Hi. simpl. split_and!; try done; intros _; split; eauto. }
  destruct (decide (Converter.Type_ part = "input_audio")) as [Ha|Ha].
  { destruct (Converter.InputAudio part); [|done]. intros [= <-].
    rewrite Ha. simpl. split_and!; try done; intros _; split; eauto. }
  destruct (decide (Converter.Type_ part = "tool_call")) as [Hc|Hc].
  { case_decide; [done|].
    destruct (Converter.Function part) as [f|]; [|done].
    destruct (if decide (Converter.Arguments f = "") then _ else _);
      [|done].
    intros [= <-]. rewrite Hc. simpl. split_and!; try done; intros _; split; eauto. }
  destruct (decide (Converter.Type_ part = "tool_result")) as [Hr|Hr].
  { case_decide; [done|]. intros [= <-]. rewrite Hr. simpl.
    split_and!; try done; intros _; split; eauto. }
  done.
Qed.

(** X19. The role: a role other than user, assistant, system, tool and
    function is refused with an error that names it, whatever the parts
    are; when the call succeeds the role returned is user, assistant or
    system, it is user for tool and function, and the given role
    otherwise. *)
Theorem NormalizeFromOpenAI_role role parts :
  (¬ Converter.valid_role role →
     NormalizeFromOpenAI role parts =
       inr (ErrNew ("invalid OpenAI role: " +:+ role))) ∧
  (∀ r ps, NormalizeFromOpenAI role parts = inl (r, ps) →
     Converter.valid_role role ∧
     r ∈ ["user"; "assistant"; "system"] ∧
     r = if bool_decide (role ∈ ["tool"; "function"]) then "user" else role).
Proof.
  split; [apply NormalizeFromOpenAI_invalid|].
  intros r ps Hn.
  destruct (decide (Converter.valid_role role)) as [Hv|Hv].
  - split; [done|].
    rewrite NormalizeFromOpenAI_valid in Hn by done.
    destruct (convert_parts parts); [|done].
    injection Hn as <- _.
    split; [|done].
    apply valid_role_cases in Hv.
    destruct Hv as [-> | [-> | [-> | [-> | ->]]]]; simpl; set_solver.
  - rewrite NormalizeFromOpenAI_invalid in Hn by done. done.
Qed.

(** X20. The parts of a successful call: there is one internal part for
    each given part, in the same order; its type is the internal type of
    the given part's type; a text part keeps its text, which is not empty,
    and has no meta map, every other part has an empty text and a meta
    map; the file field is kept for text and image_url parts only. *)
Theorem NormalizeFromOpenAI_parts role parts r ps :
  NormalizeFromOpenAI role parts = inl (r, ps) →
  Forall2 (λ part p,
    Converter.internal_type (Converter.Type_ part) = Some (Service.Type_ p) ∧
    (Converter.Type_ part = "text" →
       Service.Text p = Converter.Text part ∧ Converter.Text part ≠ "" ∧
       Service.Meta p = None) ∧
    (Converter.Type_ part ≠ "text" →
       Service.Text p = "" ∧ is_Some (Service.Meta p)) ∧
    Service.FileField p =
      (if bool_decide (Converter.Type_ part ∈ ["text"; "image_url"])
       then Converter.FileField part else "")) parts ps.
Proof.
  intros Hn.
  destruct (decide (Converter.valid_role role)) as [Hv|Hv].
  - rewrite NormalizeFromOpenAI_valid in Hn by done.
    destruct (convert_parts parts) as [ps'|] eqn:Hps; [|done].
    injection Hn as _ <-.
    apply convert_parts_inl in Hps.
    eapply Forall2_impl; [exact Hps|].
    intros part p Hp. by apply convert_part_shape.
  - rewrite NormalizeFromOpenAI_invalid in Hn by done. done.
Qed.

(** X21. Errors of the parts: with a valid role the call fails with an
    error exactly when some part is refused with that error and every part
    before it is accepted; no part after the first refused one is looked
    at. *)
Theorem NormalizeFromOpenAI_first_error role parts err :
  Converter.valid_role role →
  NormalizeFromOpenAI role parts = inr err ↔
  ∃ good bad rest,
    parts = good ++ bad :: rest ∧
    Forall (λ part, ∃ p, convert_part part = inl p) good ∧
    convert_part bad = inr err.
Proof.
  intros Hv. rewrite NormalizeFromOpenAI_valid by done.
  split.
  - destruct (convert_parts parts) as [|err'] eqn:Hps; [done|].
    intros [= ->]. apply convert_parts_inr in Hps.
    destruct Hps as (good & bad & rest & ps & -> & Hgood & Hbad).
    exists good, bad, rest. split; [done|]. split; [|done].
    apply convert_parts_inl in Hgood.
    clear -Hgood. induction Hgood as [|part p good ps Hp _ IH]; constructor.
    + by exists p.
    + done.
  - intros (good & bad & rest & -> & Hgood & Hbad).
    assert (∃ ps, convert_parts good = inl ps) as [ps Hps].
    { clear -Hgood. induction Hgood as [|part good Hp _ [ps IH]].
      - by exists [].
      - simpl. destruct Hp as [p ->]. rewrite IH. by eexists. }
    assert (convert_parts (good ++ bad :: rest) = inr err) as ->; [|done].
    apply convert_parts_inr. by exists good, bad, rest, ps.
Qed.

(** X22. Splitting a message: the parts normalize together exactly as
    they do in two pieces; the call on [parts1 ++ parts2] fails with the
    error of the first piece that fails, and otherwise returns the parts
    of the first piece followed by those of the second. *)
Theorem NormalizeFromOpenAI_app role parts1 parts2 :
  NormalizeFromOpenAI role (parts1 ++ parts2) =
    match NormalizeFromOpenAI role parts1 with
    | inr err => inr err
    | inl (r, ps1) =>
        match NormalizeFromOpenAI role parts2 with
        | inr err => inr err
        | inl (_, ps2) => inl (r, ps1 ++ ps2)
        end
    end.
Proof.
  destruct (decide (Converter.valid_role role)) as [Hv|Hv].
  - rewrite !NormalizeFromOpenAI_valid by done.
    rewrite convert_parts_app.
    destruct (convert_parts parts1); [|done].
    by destruct (convert_parts parts2).
  - by rewrite !NormalizeFromOpenAI_invalid.
Qed.

(** X23. Tool calls of a successful call: the internal part of a
    tool_call part has a meta map with exactly the keys id, tool_name and
    arguments; id and tool_name are the part's id, which is not empty, and
    the name of its function; arguments is the nil map when the arguments
    string is empty, and otherwise the object [json.Unmarshal] made of that
    string. *)
Theorem NormalizeFromOpenAI_tool_call role parts r ps (i : nat) part p :
  NormalizeFromOpenAI role parts = inl (r, ps) →
  parts !! i = Some part → ps !! i = Some p →
  Converter.Type_ part = "tool_call" →
  ∃ f m a,
    Converter.Function part = Some f ∧ Converter.ID part ≠ "" ∧
    Service.Meta p = Some m ∧
    dom m = ({[ "id"; "tool_name"; "arguments" ]} : gset string) ∧
    m !! "id" = Some (Service.MString (Converter.ID part)) ∧
    m !! "tool_name" = Some (Service.MString (Converter.Name f)) ∧
    m !! "arguments" = Some (Service.MObject a) ∧
    (if decide (Converter.Arguments f = "") then a = None
     else Unmarshal (Converter.Arguments f) = inl a).
Proof.
  intros Hn Hpart Hp Ht.
  destruct (decide (Converter.valid_role role)) as [Hv|Hv];
    [|by rewrite NormalizeFromOpenAI_invalid in Hn].
  rewrite NormalizeFromOpenAI_valid in Hn by done.
  destruct (convert_parts parts) as [ps'|] eqn:Hps; [|done].
  injection Hn as _ <-.
  apply convert_parts_inl in Hps.
  destruct (Forall2_lookup_l _ _ _ _ _ Hps Hpart) as (p' & Hp' & Hc).
  rewrite Hp in Hp'. injection Hp' as <-. clear -Hc Ht.
  unfold Converter.convert_part in Hc. rewrite Ht in Hc. simpl in Hc.
  destruct (decide (Converter.ID part = "")) as [|Hid]; [done|].
  destruct (Converter.Function part) as [f|]; [|done].
  destruct (decide (Converter.Arguments f = "")) as [Ha|Ha].
  - injection Hc as <-. eexists f, _, None. simpl.
    split_and!; try done. by rewrite decide_True.
  - destruct (Unmarshal (Converter.Arguments f)) as [a|] eqn:Ha'; [|done].
    injection Hc as <-. eexists f, _, a. simpl.
    split_and!; try done. by rewrite decide_False.
Qed.

(** X24. The role and the parts are checked apart: two accepted roles
    give the same parts or the same error on the same parts; so a
    tool_call part is taken under the role user and a tool_result part
    under the role assistant. *)
Theorem NormalizeFromOpenAI_role_independent role1 role2 parts :
  Converter.valid_role role1 → Converter.valid_role role2 →
  match NormalizeFromOpenAI role1 parts, NormalizeFromOpenAI role2 parts with
  | inl (_, ps1), inl (_, ps2) => ps1 = ps2
  | inr err1, inr err2 => err1 = err2
  | _, _ => False
  end.
Proof.
  intros Hv1 Hv2. rewrite !NormalizeFromOpenAI_valid by done.
  by destruct (convert_parts parts).
Qed.

End converter_facts.

Lemma NormalizeFromOpenAI_parts_witness :
  let parts :=
    [Converter.text_part "Hello" "upload";
     Converter.tool_result_part "call_abc123" "Sunny"] in
  ∃ ps,
    Converter.NormalizeFromOpenAI () Converter.Unmarshal_sample "tool" parts =
      inl ("user", ps) ∧
    Forall2 (λ part p,
      Converter.internal_type (Converter.Type_ part) = Some (Service.Type_ p) ∧
      (Converter.Type_ part = "text" →
         Service.Text p = Converter.Text part ∧ Converter.Text part ≠ "" ∧
         Service.Meta p = None) ∧
      (Converter.Type_ part ≠ "text" →
         Service.Text p = "" ∧ is_Some (Service.Meta p)) ∧
      Service.FileField p =
        (if bool_decide (Converter.Type_ part ∈ ["text"; "image_url"])
         then Converter.FileField part else "")) parts ps.
Proof.
  intros parts. eexists. split; [reflexivity|].
  apply (NormalizeFromOpenAI_parts Converter.Unmarshal_sample "tool" parts
           "user").
  reflexivity.
Defined.

Lemma NormalizeFromOpenAI_first_error_witness :
  let parts :=
    [Converter.text_part "Part 1" ""; Converter.text_part "" "";
     Converter.part_of_type "unknown_type"] in
  Converter.valid_role "user" ∧
  Converter.NormalizeFromOpenAI () Converter.Unmarshal_sample "user" parts =
    inr (ErrNew "text part requires non-empty text field").
Proof.
  intros parts.
  assert (Hv : Converter.valid_role "user")
    by (apply valid_role_cases; auto).
  split; [exact Hv|].
  apply (NormalizeFromOpenAI_first_error Converter.Unmarshal_sample "user"
           parts _ Hv).
  exists [Converter.text_part "Part 1" ""], (Converter.text_part "" ""),
    [Converter.part_of_type "unknown_type"].
  split; [reflexivity|]. split; [|reflexivity].
  constructor; [|constructor]. by eexists.
Defined.

Lemma NormalizeFromOpenAI_tool_call_witness :
  let call := λ arguments : string,
    Converter.tool_call_part "call_123"
      (Some {| Converter.Name := "no_args_tool";
               Converter.Arguments := arguments |}) in
  ∃ p0 p1 m0 m1,
    Converter.NormalizeFromOpenAI () Converter.Unmarshal_sample "assistant"
      [call ""; call "{}"] = inl ("assistant", [p0; p1]) ∧
    Service.Meta p0 = Some m0 ∧ Service.Meta p1 = Some m1 ∧
    m0 !! "arguments" = Some (Service.MObject None) ∧
    m1 !! "arguments" = Some (Service.MObject (Some ())).
Proof.
  intros call. do 2 eexists.
  assert (Hn : Converter.NormalizeFromOpenAI () Converter.Unmarshal_sample
                 "assistant" [call ""; call "{}"]
               = inl ("assistant", [_; _]))
    by reflexivity.
  destruct (NormalizeFromOpenAI_tool_call Converter.Unmarshal_sample
              _ _ _ _ 0 _ _ Hn eq_refl eq_refl eq_refl)
    as (f0 & m0 & a0 & Hf0 & _ & Hm0 & _ & _ & _ & Ha0 & Hd0).
  destruct (NormalizeFromOpenAI_tool_call Converter.Unmarshal_sample
              _ _ _ _ 1 _ _ Hn eq_refl eq_refl eq_refl)
    as (f1 & m1 & a1 & Hf1 & _ & Hm1 & _ & _ & _ & Ha1 & Hd1).
  exists m0, m1. split; [exact Hn|]. split; [exact Hm0|]. split; [exact Hm1|].
  injection Hf0 as <-. injection Hf1 as <-. simpl in Hd0, Hd1.
  injection Hd1 as <-. subst a0. by split.
Defined.

Lemma NormalizeFromOpenAI_role_independent_witness :
  let parts := [Converter.tool_result_part "call_abc123" "Sunny"] in
  Converter.valid_role "assistant" ∧ Converter.valid_role "tool" ∧
  match Converter.NormalizeFromOpenAI () Converter.Unmarshal_sample
          "assistant" parts,
        Converter.NormalizeFromOpenAI () Converter.Unmarshal_sample
          "tool" parts with
  | inl (_, ps1), inl (_, ps2) => ps1 = ps2
  | inr err1, inr err2 => err1 = err2
  | _, _ => False
  end.
Proof.
  intros parts.
  assert (Hv1 : Converter.valid_role "assistant")
    by (apply valid_role_cases; auto).
  assert (Hv2 : Converter.valid_role "tool")
    by (apply valid_role_cases; auto).
  split; [exact Hv1|]. split; [exact Hv2|].
  exact (NormalizeFromOpenAI_role_independent Converter.Unmarshal_sample
           "assistant" "tool" parts Hv1 Hv2).
Defined.

(** * The normalizer tests of the repository *)

Example NormalizeFromOpenAI_tests :
  let Normalize := Converter.NormalizeFromOpenAI () Converter.Unmarshal_sample in
  let image := {| Converter.URL := "https://example.com/image.jpg";
                  Converter.Detail := "high" |} in
  let call := λ id arguments,
    Converter.tool_call_part id
      (Some {| Converter.Name := "tool"; Converter.Arguments := arguments |}) in
  Normalize "user" [Converter.text_part "Part 1" ""; Converter.text_part "Part 2" ""]
    = inl ("user",
           [ {| Service.Type_ := "text"; Service.Text := "Part 1";
                Service.Meta := None; Service.FileField := "" |};
             {| Service.Type_ := "text"; Service.Text := "Part 2";
                Service.Meta := None; Service.FileField := "" |} ]) ∧
  Normalize "function" [Converter.text_part "Function result" ""]
    = inl ("user",
           [ {| Service.Type_ := "text"; Service.Text := "Function result";
                Service.Meta := None; Service.FileField := "" |} ]) ∧
  Normalize "system" [Converter.text_part "You are a helpful assistant" ""]
    = inl ("system",
           [ {| Service.Type_ := "text";
                Service.Text := "You are a helpful assistant";
                Service.Meta := None; Service.FileField := "" |} ]) ∧
  (∃ p m, Normalize "user" [Converter.image_url_part (Some image)]
            = inl ("user", [p]) ∧
          Service.Type_ p = "image" ∧ Service.Meta p = Some m ∧
          m !! "url" = Some (Service.MString "https://example.com/image.jpg") ∧
          m !! "detail" = Some (Service.MString "high")) ∧
  Normalize "invalid_role" [Converter.text_part "Hello" ""]
    = inr (ErrNew "invalid OpenAI role: invalid_role") ∧
  Normalize "user" [Converter.text_part "" ""]
    = inr (ErrNew "text part requires non-empty text field") ∧
  Normalize "user" [Converter.image_url_part None]
    = inr (ErrNew "image_url part requires image_url field") ∧
  Normalize "user" [Converter.input_audio_part None]
    = inr (ErrNew "input_audio part requires input_audio field") ∧
  Normalize "assistant" [call "" "{}"]
    = inr (ErrNew "tool_call part requires id and function fields") ∧
  Normalize "assistant" [Converter.tool_call_part "call_123" None]
    = inr (ErrNew "tool_call part requires id and function fields") ∧
  Normalize "assistant" [call "call_123" "{invalid json}"]
    = inr (ErrWrap "invalid tool_call arguments JSON: " (ErrLib 1)) ∧
  Normalize "user" [Converter.tool_result_part "" "Result"]
    = inr (ErrNew "tool_result part requires tool_call_id field") ∧
  Normalize "user" [Converter.part_of_type "unknown_type"]
    = inr (ErrNew "unsupported OpenAI part type: unknown_type").
Proof.
  intros Normalize image call.
  split_and!; try reflexivity.
  do 2 eexists. split; [reflexivity|]. by split_and!.
Qed.
